(** * Transfer orchestration engine of the uploader: a shallow embedding

    The development follows [src/models/protocols/base.py] (the bandwidth
    throttle of [BaseUploader]) and [src/models/worker.py] (the collector,
    the retry loops, the progress accounting and the session life cycle of
    [EnhancedUploadWorker]), and, around them, the progress callbacks and
    the remote directories of the adapters ([ftp.py], [sftp.py], [s3.py])
    and the parts of the window that feed the worker ([src/models/ui.py]).

    Conventions.
    - Python [int] is [Z]; a file size returned by [os.path.getsize] is an
      [N] (it is never negative).
    - Python [float] (percentages, wall-clock readings, speeds) is idealised
      as an exact rational [Q]; rounding of binary floating point is not
      modelled.  Equalities between such quantities are stated with [==].
    - Qt signals and calls on the adapter are recorded, in order, in a trace
      of [event]s carried by the worker state. *)

From Stdlib Require Import ZArith NArith QArith Qround List String Ascii Bool Lia.
From Stdlib Require Import DecimalString.
Import ListNotations.
Open Scope Z_scope.

(** ** Python arithmetic used by the sources *)

Module Py.

(** [int(x)] on a float: truncation toward zero. *)
Definition int (x : Q) : Z := Z.quot (Qnum x) (Zpos (Qden x)).

(** [x / y] on numbers: raises [ZeroDivisionError] ([None]) when [y] is zero. *)
Definition truediv (x y : Q) : option Q :=
  if Qeq_bool y 0 then None else Some (x / y)%Q.

(** [str(n)] for an integer. *)
Definition str (n : Z) : string := NilZero.string_of_int (Z.to_int n).

(** [max(a, b)] on floats. *)
Definition max (a b : Q) : Q := if Qlt_le_dec a b then b else a.

End Py.

(** ** [BaseUploader]: the bandwidth throttle (base.py) *)

Module Base.

(** The fields of [BaseUploader] the throttle reads and writes.
    [bandwidth_limit] is in KB/s, [0] meaning unlimited;
    [last_byte_time] is the wall-clock reading taken when the adapter is
    constructed and is never written again. *)
Record BaseUploader := mkBase {
  bandwidth_limit : Z;
  last_byte_time : Q;
  bytes_transferred : Z
}.

(** [BaseUploader.__init__]: [now] is the value of [time.time()]. *)
Definition init (limit : Z) (now : Q) : BaseUploader :=
  mkBase limit now 0.

(** [_throttle_bandwidth(self, bytes_sent)].  [current_time] is the value
    [time.time()] returns inside the call.  The result is the updated
    adapter and the argument of [time.sleep], if it is called. *)
Definition _throttle_bandwidth (self : BaseUploader) (bytes_sent : Z)
    (current_time : Q) : BaseUploader * option Q :=
  if bandwidth_limit self <=? 0 then (self, None)
  else
    let self' := mkBase (bandwidth_limit self) (last_byte_time self)
                        (bytes_transferred self + bytes_sent) in
    let expected_time :=
      (inject_Z (bytes_transferred self')
         / inject_Z (bandwidth_limit self' * 1024))%Q in
    let actual_time := (current_time - last_byte_time self')%Q in
    if Qlt_le_dec actual_time expected_time
    then (self', Some (expected_time - actual_time)%Q)
    else (self', None).

(** A transfer loop delivering chunks one after the other: each chunk is
    its length together with the clock reading inside the throttle call.
    The result lists, per chunk, the sleep the throttle asked for. *)
Fixpoint deliver (self : BaseUploader) (chunks : list (Z * Q))
    : BaseUploader * list (option Q) :=
  match chunks with
  | [] => (self, [])
  | (n, t) :: rest =>
      let '(self1, d) := _throttle_bandwidth self n t in
      let '(self2, ds) := deliver self1 rest in
      (self2, d :: ds)
  end.

End Base.

(** ** [os.path] on a POSIX host

    The functions of [posixpath] that [collect_files] calls, on strings.
    The separator is ["/"]. *)

Module PosixPath.
Local Open Scope string_scope.

Definition sep : ascii := "/"%char.

Definition is_sep (c : ascii) : bool := Ascii.eqb c sep.

(** [s.startswith('/')] *)
Definition isabs (s : string) : bool :=
  match s with String c _ => is_sep c | EmptyString => false end.

(** [s.endswith('/')] *)
Fixpoint ends_with_sep (s : string) : bool :=
  match s with
  | EmptyString => false
  | String c EmptyString => is_sep c
  | String _ r => ends_with_sep r
  end.

(** [s.split('/')]: always at least one component. *)
Fixpoint split (s : string) : list string :=
  match s with
  | EmptyString => [EmptyString]
  | String c r =>
      if is_sep c then EmptyString :: split r
      else match split r with
           | h :: t => String c h :: t
           | [] => [String c EmptyString]
           end
  end.

(** ['/'.join(comps)] *)
Fixpoint sep_join (comps : list string) : string :=
  match comps with
  | [] => EmptyString
  | [c] => c
  | c :: rest => c ++ String sep (sep_join rest)
  end.

(** [os.path.join(a, b)] *)
Definition join (a b : string) : string :=
  if isabs b then b
  else if (String.eqb a EmptyString || ends_with_sep a)%bool then a ++ b
  else a ++ String sep b.

(** [os.path.join] applied to the components of a non-empty list. *)
Definition join_all (comps : list string) : string :=
  match comps with
  | [] => EmptyString
  | c :: rest => fold_left join rest c
  end.

(** [(p[:i], p[i:])] for [i = p.rfind('/') + 1]. *)
Fixpoint rsplit (p : string) : string * string :=
  match p with
  | EmptyString => (EmptyString, EmptyString)
  | String c r =>
      let '(h, t) := rsplit r in
      if is_sep c then (String c h, t)
      else match h with
           | EmptyString => (EmptyString, String c t)
           | _ => (String c h, t)
           end
  end.

(** [s.rstrip('/')] *)
Fixpoint rstrip_sep (s : string) : string :=
  match s with
  | EmptyString => EmptyString
  | String c r =>
      match rstrip_sep r with
      | EmptyString => if is_sep c then EmptyString else String c EmptyString
      | r' => String c r'
      end
  end.

(** [os.path.basename(p)] *)
Definition basename (p : string) : string := snd (rsplit p).

(** [os.path.dirname(p)]: the head up to the last separator, with its
    trailing separators removed unless it consists of separators only. *)
Definition dirname (p : string) : string :=
  let head := fst (rsplit p) in
  match rstrip_sep head with
  | EmptyString => head
  | stripped => stripped
  end.

(** One iteration of the loop of [normpath] over the components. *)
Definition norm_step (rooted : bool) (new_comps : list string) (comp : string)
    : list string :=
  if (String.eqb comp EmptyString || String.eqb comp ".")%bool then new_comps
  else if (negb (String.eqb comp "..")
           || (negb rooted && match new_comps with [] => true | _ => false end)
           || match rev new_comps with
              | last :: _ => String.eqb last ".."
              | [] => false
              end)%bool
       then (new_comps ++ [comp])%list
       else removelast new_comps.

(** The number of initial slashes [normpath] keeps: one, or two when
    the path starts with exactly two. *)
Definition initial_slashes (path : string) : nat :=
  match path with
  | String c1 (String c2 (String c3 _)) =>
      if is_sep c1 then (if (is_sep c2 && negb (is_sep c3))%bool then 2 else 1)%nat
      else 0%nat
  | String c1 (String c2 EmptyString) =>
      if is_sep c1 then (if is_sep c2 then 2 else 1)%nat else 0%nat
  | String c1 EmptyString => if is_sep c1 then 1%nat else 0%nat
  | EmptyString => 0%nat
  end.

Fixpoint slashes (n : nat) : string :=
  match n with O => EmptyString | S k => String sep (slashes k) end.

(** [os.path.normpath(path)] *)
Definition normpath (path : string) : string :=
  match path with
  | EmptyString => "."
  | _ =>
      let k := initial_slashes path in
      let comps :=
        fold_left (norm_step (negb (Nat.eqb k 0))) (split path) [] in
      match slashes k ++ sep_join comps with
      | EmptyString => "."
      | p => p
      end
  end.

(** [os.path.abspath(path)]; [cwd] is the result of [os.getcwd()],
    [None] when it raises [OSError] (the working directory is gone).
    The result is [None] when that error propagates. *)
Definition abspath (cwd : option string) (path : string) : option string :=
  if isabs path then Some (normpath path)
  else match cwd with
       | Some d => Some (normpath (join d path))
       | None => None
       end.

(** The length of [os.path.commonprefix([l1, l2])] on component lists. *)
Fixpoint common_len (l1 l2 : list string) : nat :=
  match l1, l2 with
  | a :: r1, b :: r2 => if String.eqb a b then S (common_len r1 r2) else O
  | _, _ => O
  end.

Definition nonempty (s : string) : bool := negb (String.eqb s EmptyString).

(** [os.path.relpath(path, start)]; [None] when [os.getcwd()] raises. *)
Definition relpath (cwd : option string) (path start : string)
    : option string :=
  match abspath cwd start, abspath cwd path with
  | Some astart, Some apath =>
      let start_list := filter nonempty (split astart) in
      let path_list := filter nonempty (split apath) in
      let i := common_len start_list path_list in
      let rel_list :=
        (repeat ".." (List.length start_list - i) ++ skipn i path_list)%list in
      match rel_list with
      | [] => Some "."
      | _ => Some (join_all rel_list)
      end
  | _, _ => None
  end.

(** [s.replace('\\', '/')] *)
Fixpoint replace_backslash (s : string) : string :=
  match s with
  | EmptyString => EmptyString
  | String c r =>
      String (if Ascii.eqb c "\"%char then sep else c) (replace_backslash r)
  end.

End PosixPath.

(** ** [EnhancedUploadWorker] (worker.py) *)

Module Worker.
Import PosixPath.

(** *** Signals and calls recorded in the trace *)

Inductive level := info | warning | error.

(** The log lines of worker.py, by template; the arguments are the values
    interpolated into the f-string. *)
Inductive log_msg :=
| StartingUpload (max_threads : Z)
| ConnectFailed (message : string)
| ConnectedPreparing
| CouldNotCalculateTotal
| FoundFiles (count : nat) (total_bytes : Z)
| UnsupportedProtocol (protocol : string)
| FailedToCreateUploader
| InvalidIgnorePattern (pattern : string)
| ErrorAccessing (file_path : string)
| ThreadConnectionFailed (message : string)
| UploadThreadError (local_path : string)
| Uploading (local_path remote_path : string)
| Retry (attempt max_retries : Z) (local_path : string)
| CouldNotGetSize (local_path : string)
| CouldNotGetSizeForSpeed (local_path : string)
| CouldNotGetSizeForProgress (local_path : string)
| SuccessfullyUploaded (local_path : string) (speed : Q)
| FailedToUpload (local_path error_message : string).

Inductive event :=
(* the six Qt signals *)
| progress_signal (local_path : string) (percent : Q)
| file_completed_signal (local_path : string) (success : bool)
    (message : string) (speed : Q)
| all_completed_signal (success : bool) (message : string)
    (succeeded failed : Z)
| log_signal (lvl : level) (msg : log_msg)
| speed_signal (kb_per_s : Q)
| overall_progress_signal (uploaded total : Z) (percent : Q)
(* calls on an adapter, named by the number of the adapter instance *)
| adapter_created (conn : nat)
| call_connect (conn : nat)
| call_disconnect (conn : nat)
| call_upload_file (conn : nat) (local_path remote_path : string)
(* [time.sleep(seconds)] *)
| call_sleep (seconds : Q).

(** *** The environment of a session *)

(** A directory as [os.walk] lists it: the names of its non-directory
    entries and its sub-directories. *)
Inductive dirtree :=
| DirTree (files : list string) (dirs : subdirs)
with subdirs :=
| NoDirs
| SubDir (name : string) (t : dirtree) (rest : subdirs).

(** What [os.stat] finds at a selection root. *)
Inductive node :=
| RegularFile
| Directory (t : dirtree).

(** The [re] module, as far as [collect_files] uses it: [compile] is
    [None] on [re.error]. *)
Record RegexEngine := {
  pattern : Type;
  re_compile : string -> option pattern;
  re_search : pattern -> string -> bool
}.

(** What happens inside one call of an adapter's [upload_file]: the
    progress callbacks it makes, each with the clock reading at that
    moment, interleaved with a [cancel()] arriving from the interface
    thread. *)
Inductive call_step :=
| Progress (percent : Q) (time : Q)
| CancelRequest.

Inductive exn :=
| ZeroDivisionError
| AdapterException (message : string).

Inductive result (A : Type) :=
| Ok (a : A)
| Raise (e : exn).
Arguments Ok {A} a.
Arguments Raise {A} e.

(** [returns] is the pair [(ok, message)] the call returns; [raises] is
    the message of an exception that leaves the call instead, against the
    contract of the adapter. *)
Record upload_run := {
  steps : list call_step;
  end_time : Q;
  returns : bool * string;
  raises : option string
}.

Record Env := {
  regex : RegexEngine;
  (** [os.stat] on a selection root; [None] when it fails *)
  os_stat : string -> option node;
  (** [os.getcwd()]; [None] when it raises [OSError] *)
  os_getcwd : option string;
  os_path_exists : string -> bool;
  (** [os.path.getsize]; [None] when it raises [OSError] *)
  os_path_getsize : string -> option N;
  (** [connect()] of the adapter instance with the given number *)
  adapter_connect : nat -> bool * string;
  (** the [k]-th call of [upload_file] made during the session *)
  adapter_upload_file : nat -> string -> string -> upload_run;
  (** the pause loop before the [k]-th task of a sequential session:
      how many times it polls, and whether it ends because [cancel()]
      was called rather than [resume()] *)
  pause_polls : nat -> nat * bool
}.

(** *** Configuration and state *)

Record uploader_cfg := {
  protocol : string;
  (** the keys the constructor of the chosen adapter reads are present *)
  required_keys_present : bool
}.

Record config := {
  uploader_config : uploader_cfg;
  files : list string;
  remote_dir : string;
  max_retries : Z;
  ignore_patterns : list string;
  max_threads : Z;
  include_hidden_files : bool;
  upload_directory_contents_only : bool
}.

Record worker := mkWorker {
  should_cancel : bool;
  total_bytes : Z;
  uploaded_bytes : Z;
  (** the latest reading of [time.time()] *)
  clock : Q;
  (** [upload_file] calls made so far *)
  upload_calls : nat;
  (** adapter instances created so far *)
  adapters : nat;
  (** signals and calls so far, oldest first *)
  trace : list event
}.

(** The state [__init__] leaves; [now] is the clock when the thread starts. *)
Definition init (now : Q) : worker := mkWorker false 0 0 now 0 0 [].

Definition task : Type := string * string.

(** *** State and exceptions *)

Definition M (A : Type) : Type := worker -> worker * result A.

Definition ret {A} (a : A) : M A := fun st => (st, Ok a).

Definition bind {A B} (c : M A) (k : A -> M B) : M B :=
  fun st =>
    match c st with
    | (st1, Ok a) => k a st1
    | (st1, Raise e) => (st1, Raise e)
    end.

Definition raise {A} (e : exn) : M A := fun st => (st, Raise e).

(** [try: body finally: cleanup] *)
Definition finally {A} (body : M A) (cleanup : M unit) : M A :=
  fun st =>
    let '(st1, r) := body st in
    match cleanup st1 with
    | (st2, Ok _) => (st2, r)
    | (st2, Raise e) => (st2, Raise e)
    end.

Declare Scope worker_scope.
Delimit Scope worker_scope with worker.
Notation "x <- c ;; k" := (bind c (fun x => k))
  (at level 61, c at next level, right associativity) : worker_scope.
Notation "c ;; k" := (bind c (fun _ => k))
  (at level 61, right associativity) : worker_scope.
Open Scope worker_scope.

Definition emit (e : event) : M unit :=
  fun st =>
    (mkWorker (should_cancel st) (total_bytes st) (uploaded_bytes st)
       (clock st) (upload_calls st) (adapters st) (trace st ++ [e]), Ok tt).

Definition log (lvl : level) (msg : log_msg) : M unit :=
  emit (log_signal lvl msg).

Definition set_cancel : M unit :=
  fun st =>
    (mkWorker true (total_bytes st) (uploaded_bytes st)
       (clock st) (upload_calls st) (adapters st) (trace st), Ok tt).

Definition set_total_bytes (n : Z) : M unit :=
  fun st =>
    (mkWorker (should_cancel st) n (uploaded_bytes st)
       (clock st) (upload_calls st) (adapters st) (trace st), Ok tt).

Definition add_uploaded_bytes (n : Z) : M unit :=
  fun st =>
    (mkWorker (should_cancel st) (total_bytes st) (uploaded_bytes st + n)
       (clock st) (upload_calls st) (adapters st) (trace st), Ok tt).

Definition set_clock (t : Q) : M unit :=
  fun st =>
    (mkWorker (should_cancel st) (total_bytes st) (uploaded_bytes st)
       t (upload_calls st) (adapters st) (trace st), Ok tt).

Definition next_upload_call : M nat :=
  fun st =>
    (mkWorker (should_cancel st) (total_bytes st) (uploaded_bytes st)
       (clock st) (S (upload_calls st)) (adapters st) (trace st),
     Ok (upload_calls st)).

Definition next_adapter : M nat :=
  fun st =>
    (mkWorker (should_cancel st) (total_bytes st) (uploaded_bytes st)
       (clock st) (upload_calls st) (S (adapters st)) (trace st),
     Ok (adapters st)).

Definition get {A} (f : worker -> A) : M A := fun st => (st, Ok (f st)).

(** [time.time()] *)
Definition time : M Q := get clock.

(** [time.sleep(seconds)]: the clock has advanced by that much on return. *)
Definition sleep (seconds : Q) : M unit :=
  emit (call_sleep seconds) ;;
  now <- time ;;
  set_clock (now + seconds)%Q.

Section Session.
Variable E : Env.
Variable C : config.

(** *** File collector *)

(** [filename.startswith('.')] *)
Definition is_hidden (filename : string) : bool :=
  match filename with
  | String c _ => Ascii.eqb c "."%char
  | EmptyString => false
  end.

(** [_should_ignore(self, filename, patterns)] *)
Definition _should_ignore (filename : string)
    (patterns : list (pattern (regex E))) : bool :=
  if (negb (include_hidden_files C) && is_hidden filename)%bool then true
  else existsb (fun p => re_search (regex E) p filename) patterns.

(** Characters [str.strip()] removes. *)
Definition is_space (c : ascii) : bool :=
  let n := nat_of_ascii c in
  ((Nat.leb 9 n && Nat.leb n 13) || (Nat.leb 28 n && Nat.leb n 32))%bool.

Fixpoint lstrip (s : string) : string :=
  match s with
  | String c r => if is_space c then lstrip r else s
  | EmptyString => EmptyString
  end.

Fixpoint rstrip (s : string) : string :=
  match s with
  | EmptyString => EmptyString
  | String c r =>
      match rstrip r with
      | EmptyString =>
          if is_space c then EmptyString else String c EmptyString
      | r' => String c r'
      end
  end.

(** [s.strip()] *)
Definition strip (s : string) : string := rstrip (lstrip s).

(** The first loop of [collect_files]: the compiled patterns, and a
    warning per pattern [re.compile] rejects. *)
Fixpoint compile_patterns (patterns : list string)
    : list (pattern (regex E)) * list event :=
  match patterns with
  | [] => ([], [])
  | p :: rest =>
      let '(compiled, logs) := compile_patterns rest in
      match strip p with
      | EmptyString => (compiled, logs)
      | stripped =>
          match re_compile (regex E) stripped with
          | Some r => (r :: compiled, logs)
          | None =>
              (compiled, log_signal warning (InvalidIgnorePattern p) :: logs)
          end
      end
  end.

(** The remote path of a file found under the directory root
    [file_path]; [None] when [os.path.relpath] raises [OSError]. *)
Definition remote_path_of (file_path local_file_path : string)
    : option string :=
  let start :=
    if upload_directory_contents_only C then file_path
    else dirname file_path in
  match relpath (os_getcwd E) local_file_path start with
  | Some rel_path =>
      Some (replace_backslash (join (remote_dir C) rel_path))
  | None => None
  end.

(** The loop [for file in files] for one directory [root] of the walk.
    The result is what was appended to [all_files], and whether an
    [OSError] left the loop. *)
Fixpoint collect_dir_files (patterns : list (pattern (regex E)))
    (file_path root : string) (names : list string)
    : list task * bool :=
  match names with
  | [] => ([], false)
  | file :: rest =>
      if _should_ignore file patterns
      then collect_dir_files patterns file_path root rest
      else
        let local_file_path := join root file in
        match remote_path_of file_path local_file_path with
        | None => ([], true)
        | Some remote_file_path =>
            let '(more, raised) :=
              collect_dir_files patterns file_path root rest in
            ((local_file_path, remote_file_path) :: more, raised)
        end
  end.

(** The loop over [os.walk(file_path)], top-down.  [os.walk] yields a
    directory, the body prunes [dirs] in place and collects the files
    of the directory, then the walk descends into the directories that
    were kept, in order; errors of [os.scandir] are ignored by
    [os.walk], so nothing is raised here but what the body raises. *)
Fixpoint walk (patterns : list (pattern (regex E)))
    (file_path root : string) (t : dirtree) : list task * bool :=
  match t with
  | DirTree names dirs =>
      match collect_dir_files patterns file_path root names with
      | (found, true) => (found, true)
      | (found, false) =>
          let '(below, raised) :=
            walk_dirs patterns file_path root dirs in
          ((found ++ below)%list, raised)
      end
  end
with walk_dirs (patterns : list (pattern (regex E)))
    (file_path root : string) (dirs : subdirs) : list task * bool :=
  match dirs with
  | NoDirs => ([], false)
  | SubDir d t rest =>
      if _should_ignore d patterns
      then walk_dirs patterns file_path root rest
      else
        match walk patterns file_path (join root d) t with
        | (found, true) => (found, true)
        | (found, false) =>
            let '(more, raised) :=
              walk_dirs patterns file_path root rest in
            ((found ++ more)%list, raised)
        end
  end.

(** The body of the loop [for file_path in self.files]: the tasks it
    appends and the log lines it emits.  [os.path.isfile] and
    [os.path.isdir] answer [False] when [os.stat] fails. *)
Definition collect_root (patterns : list (pattern (regex E)))
    (file_path : string) : list task * list event :=
  match os_stat E file_path with
  | Some RegularFile =>
      if _should_ignore (basename file_path) patterns then ([], [])
      else ([(file_path, basename file_path)], [])
  | Some (Directory t) =>
      if _should_ignore (basename file_path) patterns then ([], [])
      else
        match walk patterns file_path file_path t with
        | (found, true) =>
            (found, [log_signal error (ErrorAccessing file_path)])
        | (found, false) => (found, [])
        end
  | None => ([], [])
  end.

Fixpoint collect_roots (patterns : list (pattern (regex E)))
    (roots : list string) : list task * list event :=
  match roots with
  | [] => ([], [])
  | file_path :: rest =>
      let '(found, logs) := collect_root patterns file_path in
      let '(more, logs') := collect_roots patterns rest in
      ((found ++ more)%list, (logs ++ logs')%list)
  end.

(** [collect_files(self)]: the task list and the log lines, in order. *)
Definition collect_files : list task * list event :=
  let '(compiled_patterns, warnings) :=
    compile_patterns (ignore_patterns C) in
  let '(all_files, logs) := collect_roots compiled_patterns (files C) in
  (all_files, (warnings ++ logs)%list).

(** *** Adapters *)

Definition supported_protocol (p : string) : bool :=
  (String.eqb p "FTP" || String.eqb p "FTPS" || String.eqb p "SFTP"
   || String.eqb p "HTTP/HTTPS" || String.eqb p "S3")%bool.

(** [create_uploader(self)]: the number of the new adapter instance, or
    [None] after logging why none was made. *)
Definition create_uploader : M (option nat) :=
  if supported_protocol (protocol (uploader_config C)) then
    if required_keys_present (uploader_config C) then
      u <- next_adapter ;;
      emit (adapter_created u) ;;
      ret (Some u)
    else
      log error FailedToCreateUploader ;;
      ret None
  else
    log error (UnsupportedProtocol (protocol (uploader_config C))) ;;
    ret None.

Definition connect (uploader : nat) : M (bool * string) :=
  emit (call_connect uploader) ;;
  ret (adapter_connect E uploader).

Definition disconnect (uploader : nat) : M unit :=
  emit (call_disconnect uploader).

Definition lift {A} (r : result A) : M A := fun st => (st, r).

Fixpoint deliver_steps (progress_callback : Q -> M unit)
    (ss : list call_step) : M unit :=
  match ss with
  | [] => ret tt
  | Progress percent t :: rest =>
      set_clock t ;;
      progress_callback percent ;;
      deliver_steps progress_callback rest
  | CancelRequest :: rest =>
      set_cancel ;;
      deliver_steps progress_callback rest
  end.

(** The transfer loop of an adapter, making the callbacks of one call on
    the calling thread.  The adapters of protocols/ wrap the transfer in
    [except Exception], so an exception leaving a callback ends the
    transfer; the result tells whether the transfer ran to its end. *)
Definition transfer (progress_callback : Q -> M unit) (ss : list call_step)
    : M bool :=
  fun st =>
    match deliver_steps progress_callback ss st with
    | (st1, Ok _) => (st1, Ok true)
    | (st1, Raise _) => (st1, Ok false)
    end.

(** [uploader.upload_file(local_path, remote_path, progress_callback)] *)
Definition upload_file (uploader : nat) (local_path remote_path : string)
    (progress_callback : Q -> M unit) : M (bool * string) :=
  k <- next_upload_call ;;
  emit (call_upload_file uploader local_path remote_path) ;;
  let r := adapter_upload_file E k local_path remote_path in
  completed <- transfer progress_callback (steps r) ;;
  if completed then
    set_clock (end_time r) ;;
    match raises r with
    | Some message => raise (AdapterException message)
    | None => ret (returns r)
    end
  else ret (false, "Upload failed"%string).

(** *** Progress accounting *)

(** [(overall / total_bytes * 100) if total_bytes > 0 else 0] *)
Definition overall_percent (overall : Q) (total : Z) : result Q :=
  if 0 <? total then
    match Py.truediv overall (inject_Z total) with
    | Some q => Ok (q * 100)%Q
    | None => Raise ZeroDivisionError
    end
  else Ok 0%Q.

(** The part of both progress callbacks that follows the reading of
    the file size. *)
Definition report_progress (file_size : N) (file_start_time percent : Q)
    : M unit :=
  let bytes_sent_this_file :=
    (inject_Z (Z.of_N file_size) * percent / 100)%Q in
  uploaded <- get uploaded_bytes ;;
  total <- get total_bytes ;;
  let overall_bytes_uploaded :=
    (inject_Z uploaded + bytes_sent_this_file)%Q in
  percent_overall <- lift (overall_percent overall_bytes_uploaded total) ;;
  emit (overall_progress_signal (Py.int overall_bytes_uploaded) total
          percent_overall) ;;
  now <- time ;;
  let elapsed := (now - file_start_time)%Q in
  if Qlt_le_dec 0 elapsed
  then emit (speed_signal (bytes_sent_this_file / 1024 / elapsed)%Q)
  else ret tt.

(** [progress_callback] of [upload_single_file] *)
Definition progress_callback (local_path : string) (file_start_time : Q)
    (percent : Q) : M unit :=
  cancelled <- get should_cancel ;;
  if cancelled then ret tt
  else
    emit (progress_signal local_path percent) ;;
    match os_path_getsize E local_path with
    | Some file_size => report_progress file_size file_start_time percent
    | None => log warning (CouldNotGetSize local_path)
    end.

(** [progress_callback] of [upload_single_file_threaded]; the body
    after the first signal runs under [upload_lock]. *)
Definition progress_callback_threaded (local_path : string)
    (file_size : N) (file_start_time : Q) (percent : Q) : M unit :=
  cancelled <- get should_cancel ;;
  if cancelled then ret tt
  else
    emit (progress_signal local_path percent) ;;
    report_progress file_size file_start_time percent.

(** *** Per-task upload with retries *)

(** The loop [for attempt in range(self.max_retries + 1)], with [n]
    iterations left; it is the same text in both variants, which differ
    in the callback only. *)
Fixpoint attempts (callback : Q -> M unit) (uploader : nat)
    (local_path remote_path : string) (n : nat) (attempt : Z)
    (success : bool) (error_message : string) : M (bool * string) :=
  match n with
  | O => ret (success, error_message)
  | S n' =>
      cancelled <- get should_cancel ;;
      if cancelled then ret (success, error_message)
      else
        (if 0 <? attempt
         then log warning (Retry attempt (max_retries C) local_path)
         else ret tt) ;;
        r <- upload_file uploader local_path remote_path callback ;;
        if fst r then ret r
        else
          (if attempt <? max_retries C then sleep 2 else ret tt) ;;
          attempts callback uploader local_path remote_path n'
            (attempt + 1) (fst r) (snd r)
  end.

(** [error_message or "Success"] *)
Definition or_success (error_message : string) : string :=
  match error_message with
  | EmptyString => "Success"%string
  | _ => error_message
  end.

(** The update of [uploaded_bytes] at a task's success and the progress
    signal that follows it. *)
Definition count_uploaded (file_size : N) : M unit :=
  add_uploaded_bytes (Z.of_N file_size) ;;
  uploaded <- get uploaded_bytes ;;
  total <- get total_bytes ;;
  percent_overall <- lift (overall_percent (inject_Z uploaded) total) ;;
  emit (overall_progress_signal uploaded total percent_overall).

Definition speed_of (file_size : N) (elapsed : Q) : Q :=
  (inject_Z (Z.of_N file_size) / 1024 / Py.max elapsed (1 # 10))%Q.

Definition report_completion (local_path : string) (success : bool)
    (error_message : string) (speed : Q) : M bool :=
  emit (file_completed_signal local_path success
          (or_success error_message) speed) ;;
  (if success then log info (SuccessfullyUploaded local_path speed)
   else log error (FailedToUpload local_path error_message)) ;;
  ret success.

(** [upload_single_file(self, uploader, local_path, remote_path)] *)
Definition upload_single_file (uploader : nat)
    (local_path remote_path : string) : M bool :=
  log info (Uploading local_path remote_path) ;;
  file_start_time <- time ;;
  r <- attempts (progress_callback local_path file_start_time) uploader
         local_path remote_path (Z.to_nat (max_retries C + 1)) 0
         false EmptyString ;;
  now <- time ;;
  speed <- match os_path_getsize E local_path with
           | Some file_size =>
               ret (speed_of file_size (now - file_start_time)%Q)
           | None =>
               log warning (CouldNotGetSizeForSpeed local_path) ;;
               ret 0%Q
           end ;;
  (if fst r then
     match os_path_getsize E local_path with
     | Some file_size => count_uploaded file_size
     | None => log warning (CouldNotGetSizeForProgress local_path)
     end
   else ret tt) ;;
  report_completion local_path (fst r) (snd r) speed.

(** [upload_single_file_threaded(self, uploader, local_path,
    remote_path, upload_lock)] *)
Definition upload_single_file_threaded (uploader : nat)
    (local_path remote_path : string) : M bool :=
  log info (Uploading local_path remote_path) ;;
  file_start_time <- time ;;
  match os_path_getsize E local_path with
  | None =>
      log error (CouldNotGetSize local_path) ;;
      ret false
  | Some file_size =>
      r <- attempts
             (progress_callback_threaded local_path file_size
                file_start_time)
             uploader local_path remote_path
             (Z.to_nat (max_retries C + 1)) 0 false EmptyString ;;
      now <- time ;;
      let speed := speed_of file_size (now - file_start_time)%Q in
      (if fst r then count_uploaded file_size else ret tt) ;;
      report_completion local_path (fst r) (snd r) speed
  end.

(** *** Session completion *)

(** [emit_completion_signal(self, successful, failed, total)] *)
Definition emit_completion_signal (successful failed total : Z)
    : M unit :=
  cancelled <- get should_cancel ;;
  if cancelled then
    emit (all_completed_signal false "Upload canceled" successful failed)
  else if failed =? 0 then
    emit (all_completed_signal true
            ("All " ++ Py.str total ++ " files uploaded successfully")%string
            successful failed)
  else
    emit (all_completed_signal false
            ("Upload completed with " ++ Py.str failed ++ " errors")%string
            successful failed).

(** *** Dispatch *)

Fixpoint poll (n : nat) : M unit :=
  match n with
  | O => ret tt
  | S k => sleep (1 # 10) ;; poll k
  end.

(** [while self.is_paused and not self.should_cancel: time.sleep(0.1)]
    before the [k]-th task: the loop polls as long as the interface
    keeps the session paused, and ends on [resume()] or [cancel()]. *)
Definition wait_while_paused (k : nat) : M unit :=
  poll (fst (pause_polls E k)) ;;
  if snd (pause_polls E k) then set_cancel else ret tt.

(** The loop of [upload_files_sequential], at its [k]-th task. *)
Fixpoint sequential_loop (uploader : nat) (k : nat) (tasks : list task)
    (successful_uploads failed_uploads : Z) : M (Z * Z) :=
  match tasks with
  | [] => ret (successful_uploads, failed_uploads)
  | (local_path, remote_path) :: rest =>
      cancelled <- get should_cancel ;;
      if cancelled then ret (successful_uploads, failed_uploads)
      else
        wait_while_paused k ;;
        success <- upload_single_file uploader local_path remote_path ;;
        if success
        then sequential_loop uploader (S k) rest
               (successful_uploads + 1) failed_uploads
        else sequential_loop uploader (S k) rest
               successful_uploads (failed_uploads + 1)
  end.

(** [upload_files_sequential(self, uploader, files)] *)
Definition upload_files_sequential (uploader : nat) (tasks : list task)
    : M unit :=
  tally <- sequential_loop uploader 0 tasks 0 0 ;;
  emit_completion_signal (fst tally) (snd tally)
    (Z.of_nat (List.length tasks)).

(** [upload_worker(local_path, remote_path)], the body of one pool
    task.  The counters [successful_uploads] and [failed_uploads] of
    the enclosing function are passed in and out. *)
Definition upload_worker (local_path remote_path : string)
    (tally : Z * Z) : M (Z * Z) :=
  thread_uploader <- create_uploader ;;
  match thread_uploader with
  | None => ret tally
  | Some u =>
      r <- connect u ;;
      if negb (fst r) then
        log error (ThreadConnectionFailed (snd r)) ;;
        ret tally
      else
        success <- finally
                     (upload_single_file_threaded u local_path remote_path)
                     (disconnect u) ;;
        if success then ret (fst tally + 1, snd tally)
        else ret (fst tally, snd tally + 1)
  end.

(** The pool of [upload_files_threaded] under the schedule in which
    the workers run one at a time, in submission order, each to its
    end before the main thread sees its future complete.  When the main
    thread observes the cancel flag it cancels the futures that have not
    started and leaves the loop; otherwise it reads the result of the
    future, counting an exception as a failure. *)
Fixpoint pool_loop (tasks : list task) (tally : Z * Z) : M (Z * Z) :=
  match tasks with
  | [] => ret tally
  | (local_path, remote_path) :: rest =>
      fun st =>
        let '(st1, r) := upload_worker local_path remote_path tally st in
        if should_cancel st1 then
          (st1, Ok match r with Ok tally1 => tally1 | Raise _ => tally end)
        else
          match r with
          | Ok tally1 => pool_loop rest tally1 st1
          | Raise _ =>
              (log error (UploadThreadError local_path) ;;
               pool_loop rest (fst tally, snd tally + 1)) st1
          end
  end.

(** [upload_files_threaded(self, uploader, files)] *)
Definition upload_files_threaded (uploader : nat) (tasks : list task)
    : M unit :=
  tally <- pool_loop tasks (0, 0) ;;
  emit_completion_signal (fst tally) (snd tally)
    (Z.of_nat (List.length tasks)).

(** [sum(os.path.getsize(p) for p, _ in all_files if os.path.exists(p))];
    [None] when [getsize] raises [OSError]. *)
Fixpoint sum_sizes (tasks : list task) : option Z :=
  match tasks with
  | [] => Some 0
  | (local_path, _) :: rest =>
      if os_path_exists E local_path then
        match os_path_getsize E local_path with
        | Some size =>
            match sum_sizes rest with
            | Some total => Some (Z.of_N size + total)
            | None => None
            end
        | None => None
        end
      else sum_sizes rest
  end.

Fixpoint emit_all (events : list event) : M unit :=
  match events with
  | [] => ret tt
  | e :: rest => emit e ;; emit_all rest
  end.

(** [run(self)] *)
Definition run : M unit :=
  log info (StartingUpload (max_threads C)) ;;
  created <- create_uploader ;;
  match created with
  | None =>
      emit (all_completed_signal false "Failed to create uploader" 0 0)
  | Some uploader =>
      finally
        (r <- connect uploader ;;
         if negb (fst r) then
           log error (ConnectFailed (snd r)) ;;
           emit (all_completed_signal false (snd r) 0 0)
         else
           log info ConnectedPreparing ;;
           let all_files := fst collect_files in
           emit_all (snd collect_files) ;;
           match sum_sizes all_files with
           | Some total => set_total_bytes total
           | None =>
               log error CouldNotCalculateTotal ;;
               set_total_bytes 0
           end ;;
           total <- get total_bytes ;;
           log info (FoundFiles (List.length all_files) total) ;;
           if 1 <? max_threads C
           then upload_files_threaded uploader all_files
           else upload_files_sequential uploader all_files)
        (disconnect uploader)
  end.

End Session.

End Worker.


(** ** Concrete sessions

    Small environments and configurations on which the model is run. *)

Module Scenario.
Import Worker.
Local Open Scope string_scope.

Fixpoint prefixb (p s : string) : bool :=
  match p, s with
  | EmptyString, _ => true
  | String a p', String b s' => (Ascii.eqb a b && prefixb p' s')%bool
  | _, _ => false
  end.

Fixpoint substrb (p s : string) : bool :=
  (prefixb p s
   || match s with
      | String _ s' => substrb p s'
      | EmptyString => false
      end)%bool.

(** A regular-expression engine for literal patterns: a pattern matches
    the names that contain it; the pattern ["("] does not compile. *)
Definition literal_engine : RegexEngine :=
  {| pattern := string;
     re_compile := fun p => if String.eqb p "(" then None else Some p;
     re_search := substrb |}.

(** Three files of 100, 200 and 300 bytes, and files of 3, 2048 and 0 bytes. *)
Definition sizes (p : string) : option N :=
  if String.eqb p "f1" then Some 100%N
  else if String.eqb p "f2" then Some 200%N
  else if String.eqb p "f3" then Some 300%N
  else if String.eqb p "tiny" then Some 3%N
  else if String.eqb p "big" then Some 2048%N
  else if String.eqb p "empty" then Some 0%N
  else None.

(** The directory [root] with [root/sub/file.txt], a temporary file, a
    hidden file and a hidden directory. *)
Definition root_tree : dirtree :=
  DirTree ["a.txt"; ".hidden"; "b.tmp"]
    (SubDir "sub" (DirTree ["file.txt"] NoDirs)
       (SubDir ".git" (DirTree ["config"] NoDirs) NoDirs)).

Definition stat (p : string) : option node :=
  if (String.eqb p "root" || String.eqb p "root/")%bool
  then Some (Directory root_tree)
  else match sizes p with
       | Some _ => Some RegularFile
       | None => None
       end.

Definition succeeds : upload_run :=
  {| steps := [Progress 50 1; Progress 100 2];
     end_time := 3;
     returns := (true, "File uploaded successfully");
     raises := None |}.

Definition fails : upload_run :=
  {| steps := [Progress 50 1];
     end_time := 3;
     returns := (false, "Upload failed: timed out");
     raises := None |}.

Definition env (connects : nat -> bool * string)
    (uploads : nat -> string -> string -> upload_run) : Env :=
  {| regex := literal_engine;
     os_stat := stat;
     os_getcwd := Some "/home/u";
     os_path_exists :=
       fun p => match sizes p with Some _ => true | None => false end;
     os_path_getsize := sizes;
     adapter_connect := connects;
     adapter_upload_file := uploads;
     pause_polls := fun _ => (0%nat, false) |}.

(** Every connection is accepted and every upload succeeds. *)
Definition healthy : Env :=
  env (fun _ => (true, "Connected successfully")) (fun _ _ _ => succeeds).

(** Every connection is accepted and every upload fails. *)
Definition failing : Env :=
  env (fun _ => (true, "Connected successfully")) (fun _ _ _ => fails).

(** Every connection is accepted; every upload of [f2] fails, every other
    upload succeeds. *)
Definition second_file_fails : Env :=
  env (fun _ => (true, "Connected successfully"))
      (fun _ local_path _ =>
         if String.eqb local_path "f2" then fails else succeeds).

(** The server refuses every connection. *)
Definition unreachable : Env :=
  env (fun _ => (false, "Connection failed: connection refused"))
      (fun _ _ _ => succeeds).

(** The session connection is accepted; the server refuses every further
    connection. *)
Definition one_connection_only : Env :=
  env (fun conn =>
         match conn with
         | O => (true, "Connected successfully")
         | S _ => (false, "Connection failed: too many connections")
         end)
      (fun _ _ _ => succeeds).

Definition session (selection : list string) (threads retries : Z)
    (contents_only : bool) : config :=
  {| uploader_config := {| protocol := "FTP"; required_keys_present := true |};
     files := selection;
     remote_dir := EmptyString;
     max_retries := retries;
     ignore_patterns := [".tmp"];
     max_threads := threads;
     include_hidden_files := false;
     upload_directory_contents_only := contents_only |}.

End Scenario.

(** ** The progress callbacks of the adapters (ftp.py, sftp.py, s3.py)

    The transfer libraries call a function of the adapter as the bytes of a
    file go out; that function feeds the throttle of [BaseUploader] and
    reports a percentage to the [progress_callback] of the worker.  The
    functions below are these callbacks; the library is the list of calls
    it makes, each with the clock reading inside the call and the value of
    [should_cancel] at that moment.  [progress_callback] is present, as it
    is on every call the worker makes. *)

Module Adapter.
Import Base.

(** What one call of a callback did: nothing (the cancel flag was set), a
    report to [progress_callback] after the sleep the throttle asked for,
    or [ZeroDivisionError] in the computation of the percentage. *)
Inductive step :=
| Skipped
| Reported (delay : option Q) (percent : Q)
| Raised (delay : option Q).

(** [uploaded / file_size * 100] *)
Definition percent_of (uploaded file_size : Z) : option Q :=
  match Py.truediv (inject_Z uploaded) (inject_Z file_size) with
  | Some q => Some (q * 100)%Q
  | None => None
  end.

(** A call of a library: the flag [should_cancel] of the adapter when the
    call is made, the number the library passes, and the clock. *)
Record call := mkCall {
  cancel_set : bool;
  amount : Z;
  at_time : Q
}.

(** *** FTP: [callback(data)] of [FTPUploader.upload_file]

    The state is the adapter and the variable [uploaded] of the enclosing
    function; [amount] is [len(data)]. *)
Definition ftp_callback (file_size : Z) (self : BaseUploader) (uploaded : Z)
    (c : call) : BaseUploader * Z * step :=
  if cancel_set c then (self, uploaded, Skipped)
  else
    let uploaded' := uploaded + amount c in
    let '(self', delay) := _throttle_bandwidth self (amount c) (at_time c) in
    match percent_of uploaded' file_size with
    | Some p => (self', uploaded', Reported delay p)
    | None => (self', uploaded', Raised delay)
    end.

(** *** SFTP: [ProgressTracker.progress(transferred, total)]

    The state is the adapter and the field [uploaded] of the tracker;
    [amount] is [transferred].  The field is assigned before the throttle
    is called with [transferred - self.uploaded]. *)
Definition sftp_progress (total : Z) (self : BaseUploader) (uploaded : Z)
    (c : call) : BaseUploader * Z * step :=
  if cancel_set c then (self, uploaded, Skipped)
  else
    let uploaded' := amount c in
    let '(self', delay) :=
      _throttle_bandwidth self (amount c - uploaded') (at_time c) in
    match percent_of (amount c) total with
    | Some p => (self', uploaded', Reported delay p)
    | None => (self', uploaded', Raised delay)
    end.

(** *** S3: [S3ProgressCallback.__call__(bytes_transferred)]

    The state is the field [uploaded] of the callback object; the adapter
    is not touched and the cancel flag is not read. *)
Definition s3_callback (file_size : Z) (self : BaseUploader) (uploaded : Z)
    (c : call) : BaseUploader * Z * step :=
  let uploaded' := uploaded + amount c in
  match percent_of uploaded' file_size with
  | Some p => (self, uploaded', Reported None p)
  | None => (self, uploaded', Raised None)
  end.

(** The library at work ([FTP.storbinary], [SFTPClient.put],
    [S3.upload_file]): it calls the callback once per call of the list, in
    order, and an exception of the callback ends the transfer.  The result
    is the state, the steps made, and whether the transfer ran to its
    end. *)
Record transferred := mkTransferred {
  final_self : BaseUploader;
  final_uploaded : Z;
  steps_made : list step;
  finished : bool
}.

Fixpoint transfer
    (callback : BaseUploader -> Z -> call -> BaseUploader * Z * step)
    (self : BaseUploader) (uploaded : Z) (calls : list call) : transferred :=
  match calls with
  | [] => mkTransferred self uploaded [] true
  | c :: rest =>
      match callback self uploaded c with
      | (self', uploaded', Raised d) =>
          mkTransferred self' uploaded' [Raised d] false
      | (self', uploaded', s) =>
          let r := transfer callback self' uploaded' rest in
          mkTransferred (final_self r) (final_uploaded r) (s :: steps_made r)
            (finished r)
      end
  end.

(** The percentages reported and the sleeps made, in order. *)
Fixpoint percents (steps : list step) : list Q :=
  match steps with
  | [] => []
  | Reported _ p :: rest => p :: percents rest
  | _ :: rest => percents rest
  end.

Fixpoint delays (steps : list step) : list (option Q) :=
  match steps with
  | [] => []
  | Reported d _ :: rest => d :: delays rest
  | Raised d :: rest => d :: delays rest
  | Skipped :: rest => delays rest
  end.

End Adapter.

(** ** Remote directories (ftp.py, sftp.py)

    [create_remote_directory] of the FTP and SFTP adapters walks down the
    components of a remote path and creates the directories that are
    missing.  The server is the set of directories that exist, the answer
    it gives to a request to create one, and, for FTP, the working
    directory of the session. *)

Module Remote.
Import PosixPath.

Record server := mkServer {
  dirs : list string;
  (** the server lets the session create this directory *)
  may_create : string -> bool;
  (** the text of the error with which it refuses *)
  refusal : string -> string;
  (** the working directory of an FTP session *)
  cwd : string
}.

(** The requests of the adapters: [FTP.cwd], [FTP.mkd], [SFTPClient.stat]
    and [SFTPClient.mkdir]. *)
Inductive request :=
| CWD (path : string)
| MKD (path : string)
| STAT (path : string)
| MKDIR (path : string).

Definition has_dir (s : server) (path : string) : bool :=
  existsb (String.eqb path) (dirs s).

Definition enter (s : server) (path : string) : server :=
  mkServer (dirs s) (may_create s) (refusal s) path.

Definition add_dir (s : server) (path : string) : server :=
  mkServer (path :: dirs s) (may_create s) (refusal s) (cwd s).

(** The loop [for part in path_parts] of [FTPUploader]: [cwd] answers
    [error_perm] for a directory that does not exist; a refused [mkd]
    leaves the loop with its exception.  The result is the server, the
    requests made, and the text of the exception, if any. *)
Fixpoint ftp_make_parts (s : server) (current_path : string)
    (path_parts : list string) : server * list request * option string :=
  match path_parts with
  | [] => (s, [], None)
  | part :: rest =>
      if String.eqb part EmptyString then ftp_make_parts s current_path rest
      else
        let current_path := (current_path ++ "/" ++ part)%string in
        if has_dir s current_path then
          let '(s', requests, raised) :=
            ftp_make_parts (enter s current_path) current_path rest in
          (s', CWD current_path :: requests, raised)
        else if may_create s current_path then
          let '(s', requests, raised) :=
            ftp_make_parts (enter (add_dir s current_path) current_path)
              current_path rest in
          (s', CWD current_path :: MKD current_path :: CWD current_path
               :: requests, raised)
        else
          (s, [CWD current_path; MKD current_path],
           Some (refusal s current_path))
  end.

(** The pair a call returns, from what its loop ended in. *)
Definition answer (raised : option string) : bool * string :=
  match raised with
  | None => (true, "Directory created successfully"%string)
  | Some e => (false, ("Failed to create directory: " ++ e)%string)
  end.

(** [FTPUploader.create_remote_directory(self, remote_path)] *)
Definition ftp_create_remote_directory (is_connected : bool) (s : server)
    (remote_path : string) : server * list request * (bool * string) :=
  if negb is_connected then (s, [], (false, "Not connected"%string))
  else
    let '(s', requests, raised) :=
      ftp_make_parts s EmptyString (split remote_path) in
    (s', requests, answer raised).



End Remote.

(** ** The window that drives the worker (ui.py)

    The parts of [MainWindow] that prepare the arguments of the worker and
    consume its signals: the selection, the text of the ignore patterns,
    and the history of speeds.  The widgets are the values they hold. *)

Module UI.
Import Worker.

(** [self.selected_files] and the texts of the items of
    [self.file_list]. *)
Record window := mkWindow {
  selected_files : list string;
  file_list : list string
}.



(** [list.remove(x)]: the first occurrence goes. *)
Fixpoint list_remove (x : string) (l : list string) : list string :=
  match l with
  | [] => []
  | y :: rest => if String.eqb x y then rest else y :: list_remove x rest
  end.

(** [takeItem(row)] *)
Fixpoint take_item (row : nat) (items : list string) : list string :=
  match row, items with
  | _, [] => []
  | O, _ :: rest => rest
  | S k, item :: rest => item :: take_item k rest
  end.

(** The first path of the selection with which the text starts. *)
Definition original_path_of (w : window) (item_text : string)
    : option string :=
  find (fun path => String.prefix path item_text) (selected_files w).

(** The body of the loop of [remove_selected_files] for the selected item
    at [row]: [if original_path:] is false for [None] and for the empty
    string. *)
Definition remove_selected_item (w : window) (row : nat) : window :=
  match nth_error (file_list w) row with
  | None => w
  | Some item_text =>
      let selected_files' :=
        match original_path_of w item_text with
        | Some EmptyString | None => selected_files w
        | Some original_path => list_remove original_path (selected_files w)
        end in
      mkWindow selected_files' (take_item row (file_list w))
  end.



(** [update_speed(self, speed_kbps)]: the new [speed_history] and
    [avg_speed]. *)
Definition update_speed (speed_history : list Q) (speed_kbps : Q)
    : list Q * Q :=
  let speed_history := (speed_history ++ [speed_kbps])%list in
  let speed_history :=
    if (10 <? List.length speed_history)%nat then tl speed_history
    else speed_history in
  let avg_speed :=
    match speed_history with
    | [] => 0%Q
    | _ =>
        (fold_left Qplus speed_history 0
         / inject_Z (Z.of_nat (List.length speed_history)))%Q
    end in
  (speed_history, avg_speed).

(** The history after the signals of a session, from the empty history
    [start_upload] leaves. *)
Definition speed_history_after (speeds : list Q) : list Q :=
  fold_left (fun history v => fst (update_speed history v)) speeds [].

End UI.
(** * Properties *)

(** ** The bandwidth throttle *)

Module BaseSpec.
Import Base.

(** The bytes of a sequence of chunks. *)
Definition chunk_bytes (chunks : list (Z * Q)) : Z :=
  fold_right (fun c acc => fst c + acc) 0 chunks.

(** The delay a cap of [cap] bytes per second calls for once [sent]
    bytes have gone out, [t - start] seconds after the start: the time
    [sent] bytes should take, less the time that has passed, when that is
    positive. *)
Definition paced (cap : Z) (sent : Z) (start t : Q) (delay : option Q)
    : Prop :=
  let expected := (inject_Z sent / inject_Z cap)%Q in
  let actual := (t - start)%Q in
  ((actual < expected)%Q ->
     exists d, delay = Some d /\ (d == expected - actual)%Q)
  /\ ((expected <= actual)%Q -> delay = None).

Lemma throttle_unlimited self n t :
  bandwidth_limit self <= 0 -> _throttle_bandwidth self n t = (self, None).
Proof.
  intros H. unfold _throttle_bandwidth.
  destruct (Z.leb_spec (bandwidth_limit self) 0); [reflexivity | lia].
Qed.

Lemma throttle_limited self n t :
  0 < bandwidth_limit self ->
  fst (_throttle_bandwidth self n t)
    = mkBase (bandwidth_limit self) (last_byte_time self)
             (bytes_transferred self + n)
  /\ paced (bandwidth_limit self * 1024) (bytes_transferred self + n)
           (last_byte_time self) t (snd (_throttle_bandwidth self n t)).
Proof.
  intros H. unfold _throttle_bandwidth, paced.
  destruct (Z.leb_spec (bandwidth_limit self) 0); [lia |].
  cbn [bandwidth_limit last_byte_time bytes_transferred].
  destruct (Qlt_le_dec _ _) as [Hlt | Hle]; cbn [fst snd].
  - split; [reflexivity |]. split.
    + intros _. eexists. split; [reflexivity | reflexivity].
    + intros Hge. exfalso. exact (Qlt_not_le _ _ Hlt Hge).
  - split; [reflexivity |]. split.
    + intros Hlt. exfalso. exact (Qlt_not_le _ _ Hlt Hle).
    + reflexivity.
Qed.

Lemma deliver_app self l1 l2 :
  deliver self (l1 ++ l2)
  = (fst (deliver (fst (deliver self l1)) l2),
     snd (deliver self l1) ++ snd (deliver (fst (deliver self l1)) l2)).
Proof.
  revert self. induction l1 as [| [n t] l1 IH]; intros self; cbn [deliver app].
  - cbn. destruct (deliver self l2); reflexivity.
  - destruct (_throttle_bandwidth self n t) as [self1 d] eqn:Ht.
    rewrite IH.
    destruct (deliver self1 l1) as [self2 ds]. cbn. reflexivity.
Qed.

Lemma deliver_length self l : List.length (snd (deliver self l)) = List.length l.
Proof.
  revert self. induction l as [| [n t] l IH]; intros self; cbn [deliver].
  - reflexivity.
  - destruct (_throttle_bandwidth self n t) as [self1 d].
    specialize (IH self1). destruct (deliver self1 l). cbn in *. lia.
Qed.

Lemma deliver_state self l :
  0 < bandwidth_limit self ->
  fst (deliver self l)
  = mkBase (bandwidth_limit self) (last_byte_time self)
           (bytes_transferred self + chunk_bytes l).
Proof.
  revert self. induction l as [| [n t] l IH]; intros self H; cbn [deliver].
  - cbn. rewrite Z.add_0_r. destruct self; reflexivity.
  - destruct (throttle_limited self n t H) as [Hst _].
    destruct (_throttle_bandwidth self n t) as [self1 d]. cbn [fst] in Hst.
    subst self1.
    match goal with |- context [deliver ?s l] => specialize (IH s H) end.
    destruct (deliver _ l) as [self2 ds]. cbn [fst] in *. rewrite IH.
    cbn. unfold chunk_bytes. f_equal. lia.
Qed.





(** ** Further properties of the throttle *)

(** *** The average rate *)

(** The clock when the throttle call made at [t] returns, for the delay it
    asked for: [time.sleep] returns no earlier than asked. *)
Definition wakes (t : Q) (delay : option Q) (wake : Q) : Prop :=
  match delay with
  | Some d => (t + d <= wake)%Q
  | None => (t <= wake)%Q
  end.

Lemma paced_under_cap cap sent start t delay wake :
  0 < cap ->
  paced cap sent start t delay ->
  wakes t delay wake ->
  (inject_Z sent <= inject_Z cap * (wake - start))%Q.
Proof.
  intros Hcap [Hlt Hle] Hw.
  assert (Hc : (0 < inject_Z cap)%Q).
  { change 0%Q with (inject_Z 0). rewrite <- Zlt_Qlt. exact Hcap. }
  assert (Hne : ~ (inject_Z cap == 0)%Q).
  { intros H. rewrite H in Hc. exact (Qlt_irrefl _ Hc). }
  assert (He : (inject_Z sent / inject_Z cap <= wake - start)%Q).
  { destruct (Qlt_le_dec (t - start) (inject_Z sent / inject_Z cap))
      as [H | H].
    - destruct (Hlt H) as [d [-> Hd]]. cbn in Hw.
      rewrite Hd in Hw.
      apply Qle_trans with (t + (inject_Z sent / inject_Z cap - (t - start))
                            - start)%Q.
      + apply Qle_lteq. right. ring.
      + unfold Qminus at 3. apply Qplus_le_compat; [exact Hw |].
        apply Qle_refl.
    - rewrite (Hle H) in Hw. cbn in Hw.
      apply Qle_trans with (t - start)%Q; [exact H |].
      unfold Qminus. apply Qplus_le_compat; [exact Hw | apply Qle_refl]. }
  apply Qle_trans with (inject_Z cap * (inject_Z sent / inject_Z cap))%Q.
  - rewrite Qmult_div_r by exact Hne. apply Qle_refl.
  - rewrite (Qmult_comm (inject_Z cap) (inject_Z sent / inject_Z cap)).
    rewrite (Qmult_comm (inject_Z cap) (wake - start)).
    apply Qmult_le_compat_r; [exact He | apply Qlt_le_weak; exact Hc].
Qed.

(** X16.  With a positive cap of [C] KB/s, when the throttle call for a
    chunk returns (after the sleep it asked for, if any), the bytes counted
    since the adapter was constructed, this chunk included, are at most
    what [C * 1024] bytes per second allow in the time since then: the
    average rate never exceeds the cap. *)
Theorem throttle_keeps_average_under_cap self before n t after delay wake :
  0 < bandwidth_limit self ->
  nth_error (snd (deliver self (before ++ (n, t) :: after)))
    (List.length before) = Some delay ->
  wakes t delay wake ->
  (inject_Z (bytes_transferred self + chunk_bytes before + n)
   <= inject_Z (bandwidth_limit self * 1024) * (wake - last_byte_time self))%Q.
Proof.
  intros H Hnth Hw.
  rewrite deliver_app in Hnth. cbn [snd] in Hnth.
  rewrite nth_error_app2 in Hnth by (rewrite deliver_length; lia).
  rewrite deliver_length, Nat.sub_diag in Hnth.
  rewrite (deliver_state self before H) in Hnth.
  set (self1 := mkBase _ _ _) in Hnth.
  assert (H1 : 0 < bandwidth_limit self1) by exact H.
  destruct (throttle_limited self1 n t H1) as [_ Hp].
  cbn [deliver] in Hnth.
  destruct (_throttle_bandwidth self1 n t) as [self2 d].
  destruct (deliver self2 after) as [self3 ds].
  cbn [snd nth_error] in *. inversion Hnth; subst d.
  cbn [self1 bandwidth_limit bytes_transferred last_byte_time] in Hp.
  eapply paced_under_cap; [| exact Hp | exact Hw]. lia.
Qed.

Lemma throttle_keeps_average_under_cap_witness :
  0 < bandwidth_limit (Base.init 1 0)
  /\ (inject_Z (0 + chunk_bytes [(1024%Z, 0%Q)] + 1024)
      <= inject_Z (1 * 1024) * (2 - 0))%Q.
Proof.
  split; [reflexivity |].
  refine (throttle_keeps_average_under_cap (Base.init 1 0) [(1024, 0%Q)] 1024
            1%Q [] (Some (1024 # 1024)%Q) 2%Q eq_refl _ _).
  - vm_compute. reflexivity.
  - cbn. discriminate.
Defined.

(** *** Idle time *)

Lemma chunk_bytes_nonneg chunks :
  Forall (fun c => 0 <= fst c) chunks -> 0 <= chunk_bytes chunks.
Proof.
  induction 1 as [| c l Hc _ IH]; cbn; [lia |].
  unfold chunk_bytes in IH. lia.
Qed.

Lemma on_time_is_not_delayed self n t :
  0 < bandwidth_limit self ->
  (inject_Z (bytes_transferred self + n)
   / inject_Z (bandwidth_limit self * 1024)
   <= t - last_byte_time self)%Q ->
  snd (_throttle_bandwidth self n t) = None.
Proof.
  intros H Hle. destruct (throttle_limited self n t H) as [_ [_ Hnone]].
  exact (Hnone Hle).
Qed.

(** X17.  The cap bounds the average since the adapter was constructed,
    not the rate of a burst: [last_byte_time] is never moved, so time
    spent idle is credit.  Chunks delivered at moments by which the cap
    already allows all of their bytes are never delayed, however fast they
    follow one another. *)
Theorem idle_time_lets_a_burst_through self chunks :
  0 < bandwidth_limit self ->
  Forall (fun c => 0 <= fst c) chunks ->
  Forall (fun c =>
            (inject_Z (bytes_transferred self + chunk_bytes chunks)
             / inject_Z (bandwidth_limit self * 1024)
             <= snd c - last_byte_time self)%Q) chunks ->
  Forall (fun delay => delay = None) (snd (deliver self chunks)).
Proof.
  intros H Hpos. revert self H.
  induction Hpos as [| [n t] chunks Hn Hpos IH]; intros self H Hall;
    cbn [deliver].
  - constructor.
  - inversion Hall as [| c l Hhead Htail]; subst. cbn [fst snd] in *.
    assert (Hc : (0 < inject_Z (bandwidth_limit self * 1024))%Q).
    { change 0%Q with (inject_Z 0). rewrite <- Zlt_Qlt. lia. }
    pose proof (chunk_bytes_nonneg chunks Hpos) as Hrest.
    assert (Hnow : snd (_throttle_bandwidth self n t) = None).
    { apply on_time_is_not_delayed; [exact H |].
      eapply Qle_trans; [| exact Hhead].
      unfold Qdiv. apply Qmult_le_compat_r.
      - rewrite <- Zle_Qle. change (chunk_bytes ((n, t) :: chunks))
          with (n + chunk_bytes chunks). lia.
      - apply Qlt_le_weak, Qinv_lt_0_compat. exact Hc. }
    destruct (throttle_limited self n t H) as [Hst _].
    destruct (_throttle_bandwidth self n t) as [self1 d].
    cbn [fst snd] in *. subst d self1.
    match goal with
    | |- context [deliver ?s chunks] => specialize (IH s H)
    end.
    cbn [bandwidth_limit last_byte_time bytes_transferred] in IH.
    destruct (deliver _ chunks) as [self2 ds]. cbn [snd] in *.
    constructor; [reflexivity |]. apply IH.
    eapply Forall_impl; [| exact Htail]. intros c Hle. cbv beta in *.
    change (chunk_bytes ((n, t) :: chunks)) with (n + chunk_bytes chunks)
      in Hle.
    rewrite <- Z.add_assoc. exact Hle.
Qed.

Lemma idle_time_lets_a_burst_through_witness :
  0 < bandwidth_limit (Base.init 1 0)
  /\ Forall (fun delay => delay = None)
       (snd (deliver (Base.init 1 0)
               [(1024, 10%Q); (1024, 10%Q); (1024, 10%Q)])).
Proof.
  split; [reflexivity |].
  refine (idle_time_lets_a_burst_through (Base.init 1 0)
            [(1024, 10%Q); (1024, 10%Q); (1024, 10%Q)] eq_refl _ _).
  - repeat constructor; discriminate.
  - repeat constructor; vm_compute; discriminate.
Defined.

End BaseSpec.

(** ** Progress accounting and retries *)

Module WorkerSpec.
Import Worker.

(** The state after [events] were appended to the trace. *)
Definition record (st : worker) (events : list event) : worker :=
  mkWorker (should_cancel st) (total_bytes st) (uploaded_bytes st)
    (clock st) (upload_calls st) (adapters st) (trace st ++ events).

Lemma record_nil st : record st [] = st.
Proof. destruct st; unfold record; cbn. rewrite app_nil_r. reflexivity. Qed.

Lemma record_record st l1 l2 : record (record st l1) l2 = record st (l1 ++ l2).
Proof. unfold record; cbn. rewrite app_assoc. reflexivity. Qed.

Lemma emit_record e st : emit e st = (record st [e], Ok tt).
Proof. reflexivity. Qed.

(** *** The guarded division *)

Lemma truediv_nonzero x y :
  ~ (y == 0)%Q -> Py.truediv x y = Some (x / y)%Q.
Proof.
  intros H. unfold Py.truediv.
  destruct (Qeq_bool y 0) eqn:Hy; [| reflexivity].
  apply Qeq_bool_eq in Hy. contradiction.
Qed.

Lemma overall_percent_positive overall total :
  0 < total ->
  overall_percent overall total = Ok (overall / inject_Z total * 100)%Q.
Proof.
  intros H. unfold overall_percent.
  destruct (Z.ltb_spec 0 total); [| lia].
  rewrite truediv_nonzero; [reflexivity |].
  intros Hq. unfold Qeq in Hq. cbn in Hq. lia.
Qed.

Lemma overall_percent_not_positive overall total :
  total <= 0 -> overall_percent overall total = Ok 0%Q.
Proof.
  intros H. unfold overall_percent.
  destruct (Z.ltb_spec 0 total); [lia | reflexivity].
Qed.

Lemma overall_percent_total overall total :
  exists p, overall_percent overall total = Ok p
            /\ (total = 0 -> p = 0%Q)
            /\ (0 < total -> p = (overall / inject_Z total * 100)%Q).
Proof.
  destruct (Z.ltb_spec 0 total) as [Hpos | Hle].
  - eexists. split; [apply overall_percent_positive; exact Hpos |].
    split; [lia | reflexivity].
  - exists 0%Q. split; [apply overall_percent_not_positive; exact Hle |].
    split; [reflexivity | lia].
Qed.

(** *** What one progress callback does *)

(** The events [report_progress] emits in state [st]. *)
Definition progress_report (st : worker) (file_size : N)
    (file_start_time percent : Q) (p : Q) : list event :=
  let bytes := (inject_Z (Z.of_N file_size) * percent / 100)%Q in
  overall_progress_signal (Py.int (inject_Z (uploaded_bytes st) + bytes))
    (total_bytes st) p
  :: (if Qlt_le_dec 0 (clock st - file_start_time)
      then [speed_signal (bytes / 1024 / (clock st - file_start_time))%Q]
      else []).

Lemma report_progress_spec st file_size file_start_time percent :
  exists p,
    overall_percent
      (inject_Z (uploaded_bytes st)
       + inject_Z (Z.of_N file_size) * percent / 100)%Q
      (total_bytes st) = Ok p
    /\ report_progress file_size file_start_time percent st
       = (record st (progress_report st file_size file_start_time percent p),
          Ok tt).
Proof.
  destruct (overall_percent_total
              (inject_Z (uploaded_bytes st)
               + inject_Z (Z.of_N file_size) * percent / 100)%Q
              (total_bytes st)) as [p [Hp _]].
  exists p. split; [exact Hp |].
  unfold report_progress, progress_report, time, bind, get, lift.
  rewrite Hp. cbv beta iota. rewrite emit_record. cbn [record clock].
  destruct (Qlt_le_dec 0 (clock st - file_start_time)).
  - rewrite emit_record, record_record. reflexivity.
  - reflexivity.
Qed.

Lemma progress_callback_cancelled E local_path file_start_time percent st :
  should_cancel st = true ->
  progress_callback E local_path file_start_time percent st = (st, Ok tt).
Proof.
  intros H. unfold progress_callback, bind, get. rewrite H. reflexivity.
Qed.

Lemma progress_callback_threaded_cancelled local_path file_size
    file_start_time percent st :
  should_cancel st = true ->
  progress_callback_threaded local_path file_size file_start_time percent st
  = (st, Ok tt).
Proof.
  intros H. unfold progress_callback_threaded, bind, get. rewrite H.
  reflexivity.
Qed.

Lemma progress_callback_spec E local_path file_size file_start_time percent
    st :
  should_cancel st = false ->
  os_path_getsize E local_path = Some file_size ->
  exists p,
    overall_percent
      (inject_Z (uploaded_bytes st)
       + inject_Z (Z.of_N file_size) * percent / 100)%Q
      (total_bytes st) = Ok p
    /\ progress_callback E local_path file_start_time percent st
       = (record st (progress_signal local_path percent
                     :: progress_report st file_size file_start_time
                          percent p),
          Ok tt).
Proof.
  intros Hc Hs.
  destruct (report_progress_spec (record st [progress_signal local_path percent])
              file_size file_start_time percent) as [p [Hp Hr]].
  exists p. split; [exact Hp |].
  unfold progress_callback, bind, get. rewrite Hc, emit_record, Hs, Hr.
  rewrite record_record. reflexivity.
Qed.

Lemma progress_callback_no_size E local_path file_start_time percent st :
  should_cancel st = false ->
  os_path_getsize E local_path = None ->
  progress_callback E local_path file_start_time percent st
  = (record st [progress_signal local_path percent;
                log_signal warning (CouldNotGetSize local_path)],
     Ok tt).
Proof.
  intros Hc Hs. unfold progress_callback, bind, get, log.
  rewrite Hc, emit_record, Hs, emit_record, record_record. reflexivity.
Qed.

Lemma progress_callback_threaded_spec local_path file_size file_start_time
    percent st :
  should_cancel st = false ->
  exists p,
    overall_percent
      (inject_Z (uploaded_bytes st)
       + inject_Z (Z.of_N file_size) * percent / 100)%Q
      (total_bytes st) = Ok p
    /\ progress_callback_threaded local_path file_size file_start_time
         percent st
       = (record st (progress_signal local_path percent
                     :: progress_report st file_size file_start_time
                          percent p),
          Ok tt).
Proof.
  intros Hc.
  destruct (report_progress_spec (record st [progress_signal local_path percent])
              file_size file_start_time percent) as [p [Hp Hr]].
  exists p. split; [exact Hp |].
  unfold progress_callback_threaded, bind, get. rewrite Hc, emit_record, Hr.
  rewrite record_record. reflexivity.
Qed.

Lemma count_uploaded_spec file_size st :
  exists p,
    overall_percent (inject_Z (uploaded_bytes st + Z.of_N file_size))
      (total_bytes st) = Ok p
    /\ count_uploaded file_size st
       = (mkWorker (should_cancel st) (total_bytes st)
            (uploaded_bytes st + Z.of_N file_size) (clock st)
            (upload_calls st) (adapters st)
            (trace st
             ++ [overall_progress_signal
                   (uploaded_bytes st + Z.of_N file_size) (total_bytes st) p]),
          Ok tt).
Proof.
  destruct (overall_percent_total
              (inject_Z (uploaded_bytes st + Z.of_N file_size))
              (total_bytes st)) as [p [Hp _]].
  exists p. split; [exact Hp |].
  unfold count_uploaded, bind, get, lift, add_uploaded_bytes. cbn.
  rewrite Hp. reflexivity.
Qed.



(** The state of a session under way: [uploaded] of [total] bytes counted,
    the clock at [now], nothing recorded yet. *)
Definition under_way (cancelled : bool) (uploaded total : Z) (now : Q)
    : worker :=
  mkWorker cancelled total uploaded now 0 1 [].





(** *** Invariants of the dispatch phase

    A relation [R] between the state before and after a computation, kept
    by every primitive step, is kept by the retry loop, the per-task
    uploads and the dispatch loops.  The events a step may emit in a state
    are those [ok] accepts.  The lemmas also record that no step raises
    [ZeroDivisionError]. *)

(** The computation ended in [ZeroDivisionError]. *)
Definition divides_by_zero {A} (r : result A) : Prop :=
  match r with
  | Raise ZeroDivisionError => True
  | _ => False
  end.

Section Frame.
Variable E : Env.
Variable C : config.
Variable R : worker -> worker -> Prop.
Variable ok : worker -> event -> Prop.
Hypothesis R_refl : forall st, R st st.
Hypothesis R_trans : forall a b c, R a b -> R b c -> R a c.
Hypothesis R_emit : forall st e, ok st e -> R st (record st [e]).
Hypothesis R_clock : forall st t, R st (fst (set_clock t st)).
Hypothesis R_cancel : forall st, R st (fst (set_cancel st)).
Hypothesis R_call : forall st, R st (fst (next_upload_call st)).
Hypothesis R_uploaded :
  forall st n, R st (fst (add_uploaded_bytes (Z.of_N n) st)).

Definition within {A} (c : M A) (st : worker) : Prop :=
  R st (fst (c st)) /\ ~ divides_by_zero (snd (c st)).

Lemma within_ret A (a : A) st : within (ret a) st.
Proof. split; [apply R_refl | exact (fun H => H)]. Qed.

Lemma within_bind A B (c : M A) (k : A -> M B) st :
  within c st ->
  (forall st1 a, c st = (st1, Ok a) -> within (k a) st1) ->
  within (bind c k) st.
Proof.
  unfold within, bind. intros [Hc Hn] Hk.
  destruct (c st) as [st1 [a | e]]; cbn [fst snd] in *.
  - destruct (Hk st1 a eq_refl) as [Hk1 Hk2].
    split; [eapply R_trans; eassumption | exact Hk2].
  - split; [assumption | exact Hn].
Qed.

Lemma within_emit e st : ok st e -> within (emit e) st.
Proof. intros H. split; [apply R_emit; exact H | exact (fun H => H)]. Qed.

Lemma within_get A (f : worker -> A) st : within (get f) st.
Proof. split; [apply R_refl | exact (fun H => H)]. Qed.

Lemma within_lift A (r : result A) st :
  ~ divides_by_zero r -> within (lift r) st.
Proof. intros H. split; [apply R_refl | exact H]. Qed.

Lemma within_set_clock t st : within (set_clock t) st.
Proof. split; [apply R_clock | exact (fun H => H)]. Qed.

Lemma within_set_cancel st : within set_cancel st.
Proof. split; [apply R_cancel | exact (fun H => H)]. Qed.

Lemma within_next_upload_call st : within next_upload_call st.
Proof. split; [apply R_call | exact (fun H => H)]. Qed.

Lemma within_add_uploaded n st : within (add_uploaded_bytes (Z.of_N n)) st.
Proof. split; [apply R_uploaded | exact (fun H => H)]. Qed.

Lemma within_finally A (body : M A) (cleanup : M unit) st :
  within body st ->
  (forall st1, within cleanup st1) ->
  within (finally body cleanup) st.
Proof.
  unfold within, finally. intros [Hb Hn] Hc.
  destruct (body st) as [st1 r]. cbn [fst snd] in *.
  destruct (Hc st1) as [Hc1 Hc2].
  destruct (cleanup st1) as [st2 [[] | e]]; cbn [fst snd] in *.
  - split; [eapply R_trans; eassumption | exact Hn].
  - split; [eapply R_trans; eassumption | exact Hc2].
Qed.

Ltac frame :=
  repeat
    (intros;
     match goal with
     | |- within (bind _ _) _ => apply within_bind; [| intros ? ? ?]
     | |- within (ret _) _ => apply within_ret
     | |- within (get _) _ => apply within_get
     | |- within time _ => apply within_get
     | |- within (set_clock _) _ => apply within_set_clock
     | |- within set_cancel _ => apply within_set_cancel
     | |- within next_upload_call _ => apply within_next_upload_call
     | |- within (add_uploaded_bytes _) _ => apply within_add_uploaded
     | |- within (emit _) _ => apply within_emit
     | |- within (log _ _) _ => apply within_emit
     | |- within (if ?b then _ else _) _ => destruct b eqn:?
     | |- within (match ?x with _ => _ end) _ => destruct x eqn:?
     end).

(** The events of the retry loop and of the callbacks. *)
Hypothesis ok_progress : forall st l p, ok st (progress_signal l p).
Hypothesis ok_overall :
  forall st x q p,
    overall_percent q (total_bytes st) = Ok p ->
    ok st (overall_progress_signal x (total_bytes st) p).
Hypothesis ok_speed : forall st v, ok st (speed_signal v).
Hypothesis ok_warning : forall st m, ok st (log_signal warning m).
Hypothesis ok_upload : forall st u l r, ok st (call_upload_file u l r).
Hypothesis ok_sleep : forall st s, ok st (call_sleep s).

Lemma overall_percent_never_raises q total :
  ~ divides_by_zero (overall_percent q total).
Proof.
  destruct (overall_percent_total q total) as [p [Hp _]]. rewrite Hp.
  exact (fun H => H).
Qed.

Lemma within_report_progress file_size file_start_time percent st :
  within (report_progress file_size file_start_time percent) st.
Proof.
  unfold report_progress. frame.
  - apply within_lift, overall_percent_never_raises.
  - unfold get, lift in *.
    repeat match goal with H : (_, _) = (_, _) |- _ => inversion H; clear H end.
    subst. eapply ok_overall. eassumption.
  - apply ok_speed.
Qed.

Lemma within_progress_callback local_path file_start_time percent st :
  within (progress_callback E local_path file_start_time percent) st.
Proof.
  unfold progress_callback. frame.
  - apply ok_progress.
  - apply within_report_progress.
  - apply ok_warning.
Qed.

Lemma within_progress_callback_threaded local_path file_size file_start_time
    percent st :
  within (progress_callback_threaded local_path file_size file_start_time
            percent) st.
Proof.
  unfold progress_callback_threaded. frame.
  - apply ok_progress.
  - apply within_report_progress.
Qed.

Lemma within_deliver_steps (callback : Q -> M unit) ss :
  (forall percent st, within (callback percent) st) ->
  forall st, within (deliver_steps callback ss) st.
Proof.
  intros Hcb. induction ss as [| [percent t |] ss IH]; intros st;
    cbn [deliver_steps]; frame; auto.
Qed.

Lemma within_raise_adapter A message st :
  within (raise (A := A) (AdapterException message)) st.
Proof. split; [apply R_refl | exact (fun H => H)]. Qed.

Lemma within_transfer (callback : Q -> M unit) ss :
  (forall percent st, within (callback percent) st) ->
  forall st, within (transfer callback ss) st.
Proof.
  intros Hcb st.
  destruct (within_deliver_steps callback ss Hcb st) as [Hd _].
  unfold within, transfer.
  destruct (deliver_steps callback ss st) as [st1 [[] | e]]; cbn [fst snd] in *;
    (split; [exact Hd | exact (fun H => H)]).
Qed.

Lemma within_upload_file (callback : Q -> M unit) uploader local_path
    remote_path :
  (forall percent st, within (callback percent) st) ->
  forall st, within (upload_file E uploader local_path remote_path callback) st.
Proof.
  intros Hcb st. unfold upload_file. frame.
  - apply ok_upload.
  - apply within_transfer. exact Hcb.
  - apply within_raise_adapter.
Qed.

Lemma within_sleep seconds st : within (sleep seconds) st.
Proof. unfold sleep. frame. apply ok_sleep. Qed.

Lemma within_attempts (callback : Q -> M unit) uploader local_path remote_path
    n :
  (forall percent st, within (callback percent) st) ->
  forall attempt success error_message st,
    within (attempts E C callback uploader local_path remote_path n attempt
              success error_message) st.
Proof.
  intros Hcb. induction n as [| n IH]; intros attempt success error_message st;
    cbn [attempts]; frame; auto using within_sleep, within_upload_file.
Qed.

Lemma within_count_uploaded file_size st :
  within (count_uploaded file_size) st.
Proof.
  unfold count_uploaded. frame.
  - apply within_lift, overall_percent_never_raises.
  - unfold get, lift in *.
    repeat match goal with H : (_, _) = (_, _) |- _ => inversion H; clear H end.
    subst. eapply ok_overall. eassumption.
Qed.

(** The events of a task and of the dispatch loops. *)
Hypothesis ok_log : forall st lvl m, ok st (log_signal lvl m).
Hypothesis ok_file_completed :
  forall st l b m v, ok st (file_completed_signal l b m v).
Hypothesis ok_created : forall st u, ok st (adapter_created u).
Hypothesis ok_connect : forall st u, ok st (call_connect u).
Hypothesis ok_disconnect : forall st u, ok st (call_disconnect u).
Hypothesis ok_all_completed :
  forall st b m s f, ok st (all_completed_signal b m s f).
Hypothesis R_adapter : forall st, R st (fst (next_adapter st)).

Lemma within_report_completion local_path success error_message speed st :
  within (report_completion local_path success error_message speed) st.
Proof. unfold report_completion. frame; auto. Qed.

Lemma within_upload_single_file uploader local_path remote_path st :
  within (upload_single_file E C uploader local_path remote_path) st.
Proof.
  unfold upload_single_file. frame;
    auto using within_attempts, within_progress_callback,
      within_count_uploaded, within_report_completion.
Qed.

Lemma within_upload_single_file_threaded uploader local_path remote_path st :
  within (upload_single_file_threaded E C uploader local_path remote_path) st.
Proof.
  unfold upload_single_file_threaded. frame;
    auto using within_attempts, within_progress_callback_threaded,
      within_count_uploaded, within_report_completion.
Qed.

Lemma within_poll n st : within (poll n) st.
Proof.
  revert st. induction n as [| n IH]; intros st; cbn [poll]; frame;
    auto using within_sleep.
Qed.

Lemma within_wait_while_paused k st : within (wait_while_paused E k) st.
Proof. unfold wait_while_paused. frame; auto using within_poll. Qed.

Lemma within_sequential_loop uploader tasks :
  forall k successful failed st,
    within (sequential_loop E C uploader k tasks successful failed) st.
Proof.
  induction tasks as [| [local_path remote_path] tasks IH];
    intros k successful failed st; cbn [sequential_loop]; frame;
    auto using within_wait_while_paused, within_upload_single_file.
Qed.

Lemma within_emit_completion_signal successful failed total st :
  within (emit_completion_signal successful failed total) st.
Proof. unfold emit_completion_signal. frame; auto. Qed.

Lemma within_upload_files_sequential uploader tasks st :
  within (upload_files_sequential E C uploader tasks) st.
Proof.
  unfold upload_files_sequential. frame;
    auto using within_sequential_loop, within_emit_completion_signal.
Qed.

Lemma within_next_adapter st : within next_adapter st.
Proof. split; [apply R_adapter | exact (fun H => H)]. Qed.

Lemma within_create_uploader st : within (create_uploader C) st.
Proof. unfold create_uploader. frame; auto using within_next_adapter. Qed.

Lemma within_connect uploader st : within (connect E uploader) st.
Proof. unfold connect. frame; auto. Qed.

Lemma within_disconnect uploader st : within (disconnect uploader) st.
Proof. unfold disconnect. frame; auto. Qed.

Lemma within_upload_worker local_path remote_path tally st :
  within (upload_worker E C local_path remote_path tally) st.
Proof.
  unfold upload_worker. frame;
    auto using within_create_uploader, within_connect.
  apply within_finally.
  - apply within_upload_single_file_threaded.
  - intros st'. apply within_disconnect.
Qed.

Lemma within_pool_loop tasks :
  forall tally st, within (pool_loop E C tasks tally) st.
Proof.
  induction tasks as [| [local_path remote_path] tasks IH]; intros tally st;
    cbn [pool_loop]; [apply within_ret |].
  destruct (within_upload_worker local_path remote_path tally st) as [Hw _].
  unfold within.
  destruct (upload_worker E C local_path remote_path tally st) as [st1 r].
  cbn [fst] in Hw.
  destruct (should_cancel st1).
  - cbn [fst snd]. split; [exact Hw | exact (fun H => H)].
  - destruct r as [tally1 | e].
    + destruct (IH tally1 st1) as [H1 H2].
      split; [eapply R_trans; eassumption | exact H2].
    + assert (Hl : within
                     (log error (UploadThreadError local_path) ;;
                      pool_loop E C tasks (fst tally, snd tally + 1)) st1)
        by (frame; auto).
      destruct Hl as [H1 H2].
      split; [eapply R_trans; eassumption | exact H2].
Qed.

Lemma within_upload_files_threaded uploader tasks st :
  within (upload_files_threaded E C uploader tasks) st.
Proof.
  unfold upload_files_threaded. frame;
    auto using within_pool_loop, within_emit_completion_signal.
Qed.

End Frame.

(** *** The session invariant: the total is fixed, the count only grows *)

(** An aggregate report carries the total [T], and percent 0 when [T] is 0. *)
Definition reports_total (T : Z) (e : event) : Prop :=
  match e with
  | overall_progress_signal _ total p => total = T /\ (T = 0 -> p = 0%Q)
  | _ => True
  end.

(** From a state whose [total_bytes] is [T]: the total stays [T],
    [uploaded_bytes] does not decrease, a cancellation that was observed
    stays observed, and the trace grows by events that report [T]. *)
Definition evolves (T : Z) (st st' : worker) : Prop :=
  total_bytes st = T ->
  total_bytes st' = T
  /\ uploaded_bytes st <= uploaded_bytes st'
  /\ (should_cancel st = true -> should_cancel st' = true)
  /\ exists events,
       trace st' = trace st ++ events /\ Forall (reports_total T) events.

Definition may_emit (T : Z) (st : worker) (e : event) : Prop :=
  total_bytes st = T -> reports_total T e.

Lemma evolves_refl T st : evolves T st st.
Proof.
  intros H. repeat split; [exact H | lia | auto |].
  exists []. rewrite app_nil_r. split; [reflexivity | constructor].
Qed.

Lemma evolves_trans T a b c : evolves T a b -> evolves T b c -> evolves T a c.
Proof.
  intros Hab Hbc Ha.
  destruct (Hab Ha) as [Hb [Hu1 [Hc1 [ev1 [Ht1 Hf1]]]]].
  destruct (Hbc Hb) as [Hc [Hu2 [Hc2 [ev2 [Ht2 Hf2]]]]].
  repeat split; [exact Hc | lia | auto |].
  exists (ev1 ++ ev2). rewrite Ht2, Ht1, app_assoc.
  split; [reflexivity | apply Forall_app; split; assumption].
Qed.

Lemma evolves_emit T st e : may_emit T st e -> evolves T st (record st [e]).
Proof.
  intros He H. cbn. repeat split; [exact H | lia | auto |].
  exists [e]. split; [reflexivity |]. constructor; [exact (He H) | constructor].
Qed.

Lemma evolves_silent T st st' :
  total_bytes st' = total_bytes st ->
  uploaded_bytes st <= uploaded_bytes st' ->
  (should_cancel st = true -> should_cancel st' = true) ->
  trace st' = trace st ->
  evolves T st st'.
Proof.
  intros Ht Hu Hc Htr H. repeat split; [congruence | exact Hu | exact Hc |].
  exists []. rewrite app_nil_r. split; [exact Htr | constructor].
Qed.

Lemma may_emit_overall T st x q p :
  overall_percent q (total_bytes st) = Ok p ->
  may_emit T st (overall_progress_signal x (total_bytes st) p).
Proof.
  intros Hp HT. cbn. split; [exact HT |]. intros H0.
  rewrite overall_percent_not_positive in Hp by lia. inversion Hp. reflexivity.
Qed.

Ltac evolves_side :=
  first
    [ apply evolves_refl
    | apply evolves_trans
    | apply evolves_emit
    | intros; apply evolves_silent; cbn; auto; lia
    | intros; eapply may_emit_overall; eassumption
    | intros; intro; exact I ].

(** Both dispatch functions keep the session invariant and never end in a
    division by zero. *)
Lemma dispatch_evolves E C T uploader tasks st :
  within (evolves T) (upload_files_sequential E C uploader tasks) st
  /\ within (evolves T) (upload_files_threaded E C uploader tasks) st.
Proof.
  split.
  - apply (within_upload_files_sequential E C (evolves T) (may_emit T));
      evolves_side.
  - apply (within_upload_files_threaded E C (evolves T) (may_emit T));
      evolves_side.
Qed.

(** *** The shape of a session *)

Lemma emit_all_record events st : emit_all events st = (record st events, Ok tt).
Proof.
  revert st. induction events as [| e events IH]; intros st; cbn [emit_all].
  - unfold ret. rewrite record_nil. reflexivity.
  - unfold bind. rewrite emit_record, IH, record_record. reflexivity.
Qed.

(** The adapter factory accepts the configuration. *)
Definition creates_uploader (C : config) : Prop :=
  supported_protocol (protocol (uploader_config C)) = true
  /\ required_keys_present (uploader_config C) = true.

(** The total the session fixes after the scan. *)
Definition scanned_total (E : Env) (C : config) : Z :=
  match sum_sizes E (fst (collect_files E C)) with
  | Some total => total
  | None => 0
  end.

(** What a session records up to the start of dispatch, once connected. *)
Definition prelude (E : Env) (C : config) : list event :=
  [log_signal info (StartingUpload (max_threads C));
   adapter_created 0; call_connect 0; log_signal info ConnectedPreparing]
  ++ snd (collect_files E C)
  ++ match sum_sizes E (fst (collect_files E C)) with
     | Some _ => []
     | None => [log_signal error CouldNotCalculateTotal]
     end
  ++ [log_signal info
        (FoundFiles (List.length (fst (collect_files E C)))
           (scanned_total E C))].

Definition dispatch (E : Env) (C : config) : M unit :=
  if 1 <? max_threads C
  then upload_files_threaded E C 0%nat (fst (collect_files E C))
  else upload_files_sequential E C 0%nat (fst (collect_files E C)).

(** The state in which dispatch starts. *)
Definition at_dispatch (E : Env) (C : config) (now : Q) : worker :=
  mkWorker false (scanned_total E C) 0 now 0 1 (prelude E C).

Lemma run_not_created E C now :
  ~ creates_uploader C ->
  exists why,
    run E C (init now)
    = (mkWorker false 0 0 now 0 0
         [log_signal info (StartingUpload (max_threads C));
          log_signal error why;
          all_completed_signal false "Failed to create uploader" 0 0],
       Ok tt).
Proof.
  intros H. unfold creates_uploader in H. unfold run, create_uploader.
  destruct (supported_protocol (protocol (uploader_config C))).
  - destruct (required_keys_present (uploader_config C)).
    + exfalso. apply H. split; reflexivity.
    + eexists. reflexivity.
  - eexists. reflexivity.
Qed.

Lemma run_connect_failed E C now :
  creates_uploader C ->
  fst (adapter_connect E 0%nat) = false ->
  run E C (init now)
  = (mkWorker false 0 0 now 0 1
       [log_signal info (StartingUpload (max_threads C));
        adapter_created 0; call_connect 0;
        log_signal error (ConnectFailed (snd (adapter_connect E 0%nat)));
        all_completed_signal false (snd (adapter_connect E 0%nat)) 0 0;
        call_disconnect 0],
     Ok tt).
Proof.
  intros [Hp Hk] Hc. unfold run, create_uploader. rewrite Hp, Hk.
  unfold bind, log, finally, connect. cbn. rewrite Hc. reflexivity.
Qed.

Lemma run_connected E C now :
  creates_uploader C ->
  fst (adapter_connect E 0%nat) = true ->
  run E C (init now)
  = (record (fst (dispatch E C (at_dispatch E C now))) [call_disconnect 0],
     snd (dispatch E C (at_dispatch E C now))).
Proof.
  intros [Hp Hk] Hc. unfold run, create_uploader. rewrite Hp, Hk.
  unfold bind at 1 2 3 4. unfold log at 1. rewrite emit_record.
  unfold next_adapter, init. cbn [record adapters trace should_cancel
    total_bytes uploaded_bytes clock upload_calls app].
  rewrite emit_record. unfold ret at 1. cbn [record adapters trace
    should_cancel total_bytes uploaded_bytes clock upload_calls app].
  unfold finally, connect.
  unfold bind at 1 2. rewrite emit_record. unfold ret at 1.
  rewrite Hc. cbn [negb].
  cbn [record adapters trace should_cancel total_bytes uploaded_bytes clock
    upload_calls app].
  unfold bind at 1. unfold log at 1. rewrite emit_record.
  unfold bind at 1. rewrite emit_all_record.
  unfold bind at 1.
  assert (Hsum :
    forall st,
      (match sum_sizes E (fst (collect_files E C)) with
       | Some total => set_total_bytes total
       | None => log error CouldNotCalculateTotal ;; set_total_bytes 0
       end) st
      = (mkWorker (should_cancel st) (scanned_total E C) (uploaded_bytes st)
           (clock st) (upload_calls st) (adapters st)
           (trace st
            ++ match sum_sizes E (fst (collect_files E C)) with
               | Some _ => []
               | None => [log_signal error CouldNotCalculateTotal]
               end),
         Ok tt)).
  { intros st. unfold scanned_total.
    destruct (sum_sizes E (fst (collect_files E C))).
    - unfold set_total_bytes. rewrite app_nil_r. reflexivity.
    - reflexivity. }
  rewrite Hsum.
  unfold bind at 1. unfold get at 1. unfold bind at 1. unfold log at 1.
  rewrite emit_record.
  unfold record at 1.
  cbn [adapters trace should_cancel total_bytes uploaded_bytes clock
    upload_calls app].
  unfold dispatch, at_dispatch, prelude, disconnect.
  repeat rewrite <- app_assoc. cbn [app].
  match goal with
  | |- (let '(_, _) := ?d ?s in _) = (record (fst (?d' ?s')) _, _) =>
      change d' with d; change s' with s; destruct (d s) as [st2 r]
  end.
  rewrite emit_record. reflexivity.
Qed.

(** The collector emits log lines only. *)
Definition is_log (e : event) : Prop :=
  match e with
  | log_signal _ _ => True
  | _ => False
  end.

Lemma compile_patterns_logs E patterns :
  Forall is_log (snd (compile_patterns E patterns)).
Proof.
  induction patterns as [| p rest IH]; cbn [compile_patterns].
  - constructor.
  - destruct (compile_patterns E rest) as [compiled logs]. cbn [snd] in *.
    destruct (strip p); [exact IH |].
    destruct (re_compile (regex E) _); cbn [snd]; [exact IH |].
    constructor; [exact I | exact IH].
Qed.

Lemma collect_root_logs E C patterns file_path :
  Forall is_log (snd (collect_root E C patterns file_path)).
Proof.
  unfold collect_root.
  destruct (os_stat E file_path) as [[| t] |]; cbn [snd].
  - destruct (_should_ignore E C _ patterns); constructor.
  - destruct (_should_ignore E C _ patterns); [constructor |].
    destruct (walk E C patterns file_path file_path t) as [found [|]];
      cbn [snd]; repeat constructor.
  - constructor.
Qed.

Lemma collect_roots_logs E C patterns roots :
  Forall is_log (snd (collect_roots E C patterns roots)).
Proof.
  induction roots as [| r roots IH]; cbn [collect_roots].
  - constructor.
  - pose proof (collect_root_logs E C patterns r) as Hr.
    destruct (collect_root E C patterns r) as [found logs].
    destruct (collect_roots E C patterns roots) as [more logs'].
    cbn [snd] in *. apply Forall_app. split; assumption.
Qed.

Lemma collect_files_logs E C : Forall is_log (snd (collect_files E C)).
Proof.
  unfold collect_files.
  pose proof (compile_patterns_logs E (ignore_patterns C)) as Hc.
  destruct (compile_patterns E (ignore_patterns C)) as [compiled warnings].
  pose proof (collect_roots_logs E C compiled (files C)) as Hr.
  destruct (collect_roots E C compiled (files C)) as [all_files logs].
  cbn [snd] in *. apply Forall_app. split; assumption.
Qed.

(** Dispatch has not begun: no upload was attempted, no progress and no
    completion was reported. *)
Definition before_dispatch (e : event) : Prop :=
  match e with
  | call_upload_file _ _ _ => False
  | overall_progress_signal _ _ _ => False
  | progress_signal _ _ => False
  | file_completed_signal _ _ _ _ => False
  | all_completed_signal _ _ _ _ => False
  | _ => True
  end.

Lemma is_log_before_dispatch e : is_log e -> before_dispatch e.
Proof. destruct e; cbn; auto. Qed.

Lemma prelude_before_dispatch E C : Forall before_dispatch (prelude E C).
Proof.
  unfold prelude. repeat (apply Forall_cons; [exact I |]).
  cbn [app]. apply Forall_app. split.
  - eapply Forall_impl; [apply is_log_before_dispatch | apply collect_files_logs].
  - apply Forall_app. split.
    + destruct (sum_sizes E _); repeat constructor.
    + repeat constructor.
Qed.

Lemma before_dispatch_reports_total T e : before_dispatch e -> reports_total T e.
Proof. destruct e; cbn; tauto. Qed.

(** A connected session: the state and trace at its end. *)
Lemma run_connected_evolves E C now :
  creates_uploader C ->
  fst (adapter_connect E 0%nat) = true ->
  let st' := fst (run E C (init now)) in
  total_bytes st' = scanned_total E C
  /\ 0 <= uploaded_bytes st'
  /\ (exists dispatched,
        trace st' = prelude E C ++ dispatched
        /\ Forall (reports_total (scanned_total E C)) dispatched)
  /\ ~ divides_by_zero (snd (run E C (init now))).
Proof.
  intros Hcr Hc. cbv zeta. rewrite run_connected by assumption.
  cbn [fst snd].
  assert (Hd : within (evolves (scanned_total E C)) (dispatch E C)
                 (at_dispatch E C now)).
  { unfold dispatch. destruct (1 <? max_threads C);
      apply dispatch_evolves. }
  destruct Hd as [Hev Hz].
  destruct (Hev eq_refl) as [Ht [Hu [_ [events [Htr Hf]]]]].
  cbn [record total_bytes uploaded_bytes trace].
  repeat split; [exact Ht | exact Hu | | exact Hz].
  exists (events ++ [call_disconnect 0]).
  rewrite Htr. cbn [at_dispatch trace]. rewrite app_assoc.
  split; [reflexivity |].
  apply Forall_app. split; [exact Hf | repeat constructor].
Qed.

(** *** The total of a session (C3) *)











(** *** Division by the total (C10) *)

(** An aggregate report states 0 percent. *)
Definition percent_zero (e : event) : Prop :=
  match e with
  | overall_progress_signal _ _ p => p = 0%Q
  | _ => True
  end.

Lemma reports_zero_total e : reports_total 0 e -> percent_zero e.
Proof. destruct e; cbn; tauto. Qed.

Lemma evolves_zero st st' :
  evolves 0 st st' ->
  total_bytes st = 0 ->
  exists events, trace st' = trace st ++ events /\ Forall percent_zero events.
Proof.
  intros H H0. destruct (H H0) as [_ [_ [_ [events [Htr Hf]]]]].
  exists events. split; [exact Htr |].
  eapply Forall_impl; [apply reports_zero_total | exact Hf].
Qed.

(** C10.  The four places that divide by [total_bytes] - the two progress
    callbacks and the update at a task's success, shared by the two
    variants - never end in [ZeroDivisionError], whatever the state they
    run in, and with [total_bytes = 0] every aggregate report they emit
    states 0 percent.  So does every session: it never ends in a division
    by zero, and when its total is zero every aggregate report of its
    trace states 0 percent. *)
Theorem zero_total_reports_zero_percent E C :
  (forall q total, ~ divides_by_zero (overall_percent q total))
  /\ (forall st local_path file_size file_start_time percent (c : M unit),
        In c [progress_callback E local_path file_start_time percent;
              progress_callback_threaded local_path file_size file_start_time
                percent;
              count_uploaded file_size] ->
        ~ divides_by_zero (snd (c st))
        /\ (total_bytes st = 0 ->
            exists events,
              trace (fst (c st)) = trace st ++ events
              /\ Forall percent_zero events))
  /\ (forall now,
        ~ divides_by_zero (snd (run E C (init now)))
        /\ (total_bytes (fst (run E C (init now))) = 0 ->
            Forall percent_zero (trace (fst (run E C (init now)))))).
Proof.
  split; [apply overall_percent_never_raises |]. split.
  - intros st local_path file_size file_start_time percent c Hc.
    assert (Hw : within (evolves 0) c st).
    { destruct Hc as [<- | [<- | [<- | []]]].
      - apply (within_progress_callback E (evolves 0) (may_emit 0));
          evolves_side.
      - apply (within_progress_callback_threaded (evolves 0) (may_emit 0));
          evolves_side.
      - apply (within_count_uploaded (evolves 0) (may_emit 0));
          evolves_side. }
    destruct Hw as [Hev Hz]. split; [exact Hz |].
    apply evolves_zero. exact Hev.
  - intros now.
    destruct (supported_protocol (protocol (uploader_config C))) eqn:Hp;
      [destruct (required_keys_present (uploader_config C)) eqn:Hk |].
    + destruct (fst (adapter_connect E 0%nat)) eqn:Hc.
      * destruct (run_connected_evolves E C now (conj Hp Hk) Hc)
          as [Ht [_ [[d [Htr Hf]] Hz]]].
        split; [exact Hz |]. intros H0. rewrite Htr.
        rewrite Ht in H0. rewrite H0 in Hf.
        apply Forall_app. split.
        -- eapply Forall_impl; [| apply prelude_before_dispatch].
           intros e He. apply reports_zero_total.
           apply before_dispatch_reports_total. exact He.
        -- eapply Forall_impl; [apply reports_zero_total | exact Hf].
      * rewrite (run_connect_failed E C now (conj Hp Hk) Hc). cbn [fst snd trace].
        split; [exact (fun H => H) | intros _; repeat constructor].
    + destruct (run_not_created E C now) as [why Hr].
      { intros [_ H]. congruence. }
      rewrite Hr. cbn [fst snd trace].
      split; [exact (fun H => H) | intros _; repeat constructor].
    + destruct (run_not_created E C now) as [why Hr].
      { intros [H _]. congruence. }
      rewrite Hr. cbn [fst snd trace].
      split; [exact (fun H => H) | intros _; repeat constructor].
Qed.

(** A session over one empty file: its total is zero, the upload reports
    progress, and every aggregate report states 0 percent. *)
Lemma zero_total_reports_zero_percent_witness :
  total_bytes
    (fst (run Scenario.healthy (Scenario.session ["empty"]%string 1 0 false)
            (init 0))) = 0
  /\ In (overall_progress_signal 0 0 0)
        (trace (fst (run Scenario.healthy
                       (Scenario.session ["empty"]%string 1 0 false) (init 0))))
  /\ Forall percent_zero
       (trace (fst (run Scenario.healthy
                      (Scenario.session ["empty"]%string 1 0 false) (init 0)))).
Proof.
  split; [reflexivity |]. split; [vm_compute; tauto |].
  exact (proj2 (proj2 (proj2 (zero_total_reports_zero_percent Scenario.healthy
                                (Scenario.session ["empty"]%string 1 0 false))) 0%Q)
           eq_refl).
Defined.

(** *** The retry loop (C1) *)

(** Upload attempts and sleeps: the events that make the schedule of a task. *)
Definition is_scheduled (e : event) : bool :=
  match e with
  | call_upload_file _ _ _ => true
  | call_sleep _ => true
  | _ => false
  end.

Definition schedule (events : list event) : list event :=
  filter is_scheduled events.

Definition is_attempt (e : event) : bool :=
  match e with
  | call_upload_file _ _ _ => true
  | _ => false
  end.

Definition count_attempts (events : list event) : nat :=
  List.length (filter is_attempt events).

(** [st'] is [st] after [calls] further calls of [upload_file], with the
    same cancel flag, and a trace longer by events whose schedule is
    [sched]. *)
Definition advances (st st' : worker) (calls : nat) (sched : list event)
    : Prop :=
  should_cancel st' = should_cancel st
  /\ adapters st' = adapters st
  /\ upload_calls st' = (upload_calls st + calls)%nat
  /\ exists events, trace st' = trace st ++ events /\ schedule events = sched.

Lemma advances_refl st : advances st st 0 [].
Proof.
  unfold advances. repeat split; try reflexivity; try lia.
  exists []. rewrite app_nil_r. split; reflexivity.
Qed.

Lemma advances_trans a b c n1 n2 s1 s2 :
  advances a b n1 s1 -> advances b c n2 s2 ->
  advances a c (n1 + n2) (s1 ++ s2).
Proof.
  intros [Hc1 [Ha1 [Hk1 [e1 [Htr1 Hs1]]]]] [Hc2 [Ha2 [Hk2 [e2 [Htr2 Hs2]]]]].
  unfold advances. repeat split; try congruence; try lia.
  exists (e1 ++ e2). rewrite Htr2, Htr1, app_assoc. split; [reflexivity |].
  unfold schedule in *. rewrite filter_app. congruence.
Qed.

Lemma advances_record st events :
  advances st (record st events) 0 (schedule events).
Proof.
  unfold advances. cbn. repeat split; try lia.
  exists events. split; reflexivity.
Qed.

Lemma advances_clock st t : advances st (fst (set_clock t st)) 0 [].
Proof.
  unfold advances. cbn. repeat split; try lia.
  exists []. rewrite app_nil_r. split; reflexivity.
Qed.

(** A callback that returns normally, touches nothing but the trace, and
    neither uploads nor sleeps. *)
Definition quiet (callback : Q -> M unit) : Prop :=
  forall percent st,
    exists st', callback percent st = (st', Ok tt) /\ advances st st' 0 [].

Lemma progress_report_unscheduled st file_size file_start_time percent p :
  schedule (progress_report st file_size file_start_time percent p) = [].
Proof.
  unfold progress_report, schedule. cbn [filter is_scheduled].
  destruct (Qlt_le_dec 0 (clock st - file_start_time)); reflexivity.
Qed.

Lemma progress_callback_quiet E local_path file_start_time :
  quiet (progress_callback E local_path file_start_time).
Proof.
  intros percent st. destruct (should_cancel st) eqn:Hc.
  - exists st. rewrite progress_callback_cancelled by exact Hc.
    split; [reflexivity | apply advances_refl].
  - destruct (os_path_getsize E local_path) as [file_size |] eqn:Hs.
    + destruct (progress_callback_spec E local_path file_size file_start_time
                  percent st Hc Hs) as [p [_ Hr]].
      eexists. split; [exact Hr |].
      pose proof (advances_record st
                    (progress_signal local_path percent
                     :: progress_report st file_size file_start_time percent p))
        as H.
      unfold schedule in H. cbn [filter is_scheduled] in H.
      fold (schedule (progress_report st file_size file_start_time percent p))
        in H.
      rewrite progress_report_unscheduled in H. exact H.
    + eexists. split.
      * apply progress_callback_no_size; assumption.
      * apply (advances_record st
                 [progress_signal local_path percent;
                  log_signal warning (CouldNotGetSize local_path)]).
Qed.

Lemma progress_callback_threaded_quiet local_path file_size file_start_time :
  quiet (progress_callback_threaded local_path file_size file_start_time).
Proof.
  intros percent st. destruct (should_cancel st) eqn:Hc.
  - exists st. rewrite progress_callback_threaded_cancelled by exact Hc.
    split; [reflexivity | apply advances_refl].
  - destruct (progress_callback_threaded_spec local_path file_size
                file_start_time percent st Hc) as [p [_ Hr]].
    eexists. split; [exact Hr |].
    pose proof (advances_record st
                  (progress_signal local_path percent
                   :: progress_report st file_size file_start_time percent p))
      as H.
    unfold schedule in H. cbn [filter is_scheduled] in H.
    fold (schedule (progress_report st file_size file_start_time percent p))
      in H.
    rewrite progress_report_unscheduled in H. exact H.
Qed.

Lemma deliver_steps_quiet callback ss :
  quiet callback ->
  ~ In CancelRequest ss ->
  forall st,
    exists st',
      deliver_steps callback ss st = (st', Ok tt) /\ advances st st' 0 [].
Proof.
  intros Hq. induction ss as [| [percent t |] ss IH]; intros Hno st.
  - exists st. split; [reflexivity | apply advances_refl].
  - cbn [deliver_steps]. unfold bind at 1. cbn [set_clock].
    unfold bind at 1.
    match goal with
    | |- context [callback percent ?s] =>
        destruct (Hq percent s) as [st1 [Hcb Ha1]];
        pose proof (advances_clock st t) as Ha0; cbn [set_clock fst] in Ha0
    end.
    rewrite Hcb.
    destruct (IH (fun H => Hno (or_intror H)) st1) as [st2 [Hd Ha2]].
    exists st2. split; [exact Hd |].
    exact (advances_trans _ _ _ _ _ _ _
             (advances_trans _ _ _ _ _ _ _ Ha0 Ha1) Ha2).
  - exfalso. apply Hno. left. reflexivity.
Qed.

(** One call of [upload_file] that no cancellation interrupts and that
    returns instead of raising. *)
Lemma upload_file_attempt E callback uploader local_path remote_path st :
  quiet callback ->
  let r := adapter_upload_file E (upload_calls st) local_path remote_path in
  raises r = None ->
  ~ In CancelRequest (steps r) ->
  exists st',
    upload_file E uploader local_path remote_path callback st
    = (st', Ok (returns r))
    /\ advances st st' 1 [call_upload_file uploader local_path remote_path].
Proof.
  intros Hq r Hr Hno. unfold upload_file.
  unfold bind at 1. cbn [next_upload_call].
  unfold bind at 1. rewrite emit_record. fold r.
  set (st0 := record _ _).
  assert (Ha0 : advances st st0 1
                  [call_upload_file uploader local_path remote_path]).
  { unfold advances, st0. cbn. repeat split; try lia.
    eexists. split; reflexivity. }
  destruct (deliver_steps_quiet callback (steps r) Hq Hno st0)
    as [st1 [Hd Ha1]].
  unfold bind at 1. unfold transfer. rewrite Hd.
  unfold bind at 1. cbn [set_clock]. rewrite Hr. unfold ret.
  eexists. split; [reflexivity |].
  pose proof (advances_clock st1 (end_time r)) as Ha2. cbn [set_clock fst] in Ha2.
  exact (advances_trans _ _ _ _ _ _ _
           (advances_trans _ _ _ _ _ _ _ Ha0 Ha1) Ha2).
Qed.

Fixpoint retries (uploader : nat) (local_path remote_path : string) (n : nat)
    : list event :=
  match n with
  | O => []
  | S k =>
      call_sleep 2 :: call_upload_file uploader local_path remote_path
      :: retries uploader local_path remote_path k
  end.

(** A first attempt followed by [n] retries, each after a sleep of two
    seconds. *)
Definition retry_schedule (uploader : nat) (local_path remote_path : string)
    (n : nat) : list event :=
  call_upload_file uploader local_path remote_path
  :: retries uploader local_path remote_path n.

Lemma count_attempts_retry_schedule uploader local_path remote_path n :
  count_attempts (retry_schedule uploader local_path remote_path n) = S n.
Proof.
  unfold retry_schedule, count_attempts. cbn [filter is_attempt List.length].
  f_equal. induction n as [| n IH]; cbn [retries filter is_attempt List.length];
    [reflexivity | rewrite IH; reflexivity].
Qed.

(** The adapter, from its [k]-th call on: the next [n] calls for this task
    return without raising, no cancellation arrives while they run, and
    every one of them but possibly the last reports a failure. *)
Definition fails_until_last (E : Env) (local_path remote_path : string)
    (k n : nat) : Prop :=
  forall i, (i <= n)%nat ->
    let r := adapter_upload_file E (k + i) local_path remote_path in
    raises r = None
    /\ ~ In CancelRequest (steps r)
    /\ ((i < n)%nat -> fst (returns r) = false).

Lemma sleep_advances seconds st :
  exists st', sleep seconds st = (st', Ok tt)
              /\ advances st st' 0 [call_sleep seconds].
Proof.
  eexists. split; [reflexivity |].
  unfold advances. cbn. repeat split; try lia.
  exists [call_sleep seconds]. split; reflexivity.
Qed.

Lemma attempts_schedule E C callback uploader local_path remote_path :
  quiet callback ->
  forall m attempt success error_message st,
    should_cancel st = false ->
    attempt + Z.of_nat m = max_retries C ->
    fails_until_last E local_path remote_path (upload_calls st) m ->
    exists st',
      attempts E C callback uploader local_path remote_path (S m) attempt
        success error_message st
      = (st',
         Ok (returns (adapter_upload_file E (upload_calls st + m) local_path
                        remote_path)))
      /\ advances st st' (S m)
           (retry_schedule uploader local_path remote_path m).
Proof.
  intros Hq. induction m as [| m IH];
    intros attempt success error_message st Hc Hat Hf.
  - (* the last allowed attempt *)
    destruct (Hf 0%nat (Nat.le_refl _)) as [Hr [Hno _]].
    rewrite Nat.add_0_r in *.
    cbn [attempts]. unfold bind at 1, get at 1. rewrite Hc.
    set (st0 := fst ((if 0 <? attempt
                      then log warning (Retry attempt (max_retries C) local_path)
                      else ret tt) st)).
    assert (H0 : (if 0 <? attempt
                  then log warning (Retry attempt (max_retries C) local_path)
                  else ret tt) st = (st0, Ok tt)
                 /\ advances st st0 0 []).
    { unfold st0. destruct (0 <? attempt).
      - split; [reflexivity |].
        apply (advances_record st [log_signal warning _]).
      - split; [reflexivity | apply advances_refl]. }
    destruct H0 as [He0 Ha0]. unfold bind at 1. rewrite He0.
    assert (Hk0 : upload_calls st0 = upload_calls st).
    { destruct Ha0 as [_ [_ [Hk _]]]. lia. }
    destruct (upload_file_attempt E callback uploader local_path remote_path
                st0 Hq) as [st1 [Hu Ha1]];
      [rewrite Hk0; exact Hr | rewrite Hk0; exact Hno |].
    rewrite Hk0 in Hu. unfold bind at 1. rewrite Hu.
    set (r := returns (adapter_upload_file E (upload_calls st) local_path
                         remote_path)) in *.
    pose proof (advances_trans _ _ _ _ _ _ _ Ha0 Ha1) as Ha.
    destruct (fst r) eqn:Hok.
    + exists st1. split; [reflexivity | exact Ha].
    + destruct (Z.ltb_spec attempt (max_retries C)); [lia |].
      exists st1. split; [| exact Ha].
      unfold bind, ret. destruct r as [b s]. cbn in Hok. subst b. reflexivity.
  - (* an attempt that fails, with retries left *)
    destruct (Hf 0%nat (Nat.le_0_l _)) as [Hr [Hno Hfail]].
    specialize (Hfail (Nat.lt_0_succ _)).
    rewrite Nat.add_0_r in *.
    cbn [attempts]. unfold bind at 1, get at 1. rewrite Hc.
    set (st0 := fst ((if 0 <? attempt
                      then log warning (Retry attempt (max_retries C) local_path)
                      else ret tt) st)).
    assert (H0 : (if 0 <? attempt
                  then log warning (Retry attempt (max_retries C) local_path)
                  else ret tt) st = (st0, Ok tt)
                 /\ advances st st0 0 []).
    { unfold st0. destruct (0 <? attempt).
      - split; [reflexivity |].
        apply (advances_record st [log_signal warning _]).
      - split; [reflexivity | apply advances_refl]. }
    destruct H0 as [He0 Ha0]. unfold bind at 1. rewrite He0.
    assert (Hk0 : upload_calls st0 = upload_calls st).
    { destruct Ha0 as [_ [_ [Hk _]]]. lia. }
    destruct (upload_file_attempt E callback uploader local_path remote_path
                st0 Hq) as [st1 [Hu Ha1]];
      [rewrite Hk0; exact Hr | rewrite Hk0; exact Hno |].
    rewrite Hk0 in Hu. unfold bind at 1. rewrite Hu. rewrite Hfail.
    destruct (Z.ltb_spec attempt (max_retries C)); [| lia].
    destruct (sleep_advances 2 st1) as [st2 [Hs Ha2]].
    unfold bind at 1. rewrite Hs.
    pose proof (advances_trans _ _ _ _ _ _ _
                  (advances_trans _ _ _ _ _ _ _ Ha0 Ha1) Ha2) as Ha.
    cbn [Nat.add app] in Ha.
    assert (Hk2 : upload_calls st2 = S (upload_calls st)).
    { destruct Ha as [_ [_ [Hk _]]]. lia. }
    assert (Hc2 : should_cancel st2 = false).
    { destruct Ha as [Hcc _]. congruence. }
    destruct (IH (attempt + 1) false
                (snd (returns (adapter_upload_file E (upload_calls st)
                                 local_path remote_path)))
                st2 Hc2) as [st3 [Hr3 Ha3]].
    + lia.
    + intros i Hi. rewrite Hk2.
      replace (S (upload_calls st) + i)%nat with (upload_calls st + S i)%nat
        by lia.
      destruct (Hf (S i)) as [H1 [H2 H3]]; [lia |].
      repeat split; [exact H1 | exact H2 | intros; apply H3; lia].
    + rewrite Hk2 in Hr3.
      replace (S (upload_calls st) + m)%nat with (upload_calls st + S m)%nat
        in Hr3 by lia.
      exists st3. split; [exact Hr3 |].
      pose proof (advances_trans _ _ _ _ _ _ _ Ha Ha3) as Hall.
      cbn [Nat.add app retry_schedule] in Hall.
      exact Hall.
Qed.

Lemma report_completion_spec local_path success error_message speed st :
  report_completion local_path success error_message speed st
  = (record st
       [file_completed_signal local_path success (or_success error_message)
          speed;
        if success then log_signal info (SuccessfullyUploaded local_path speed)
        else log_signal error (FailedToUpload local_path error_message)],
     Ok success).
Proof.
  unfold report_completion, bind, log, ret. rewrite emit_record.
  destruct success; rewrite emit_record, record_record; reflexivity.
Qed.

(** The events that stand for a task counted as succeeded or as failed:
    the completion signal of the task, the error line of a threaded task
    given up because its size cannot be read, and the error line for a
    pool task that ended in an exception. *)
Definition is_success (e : event) : bool :=
  match e with
  | file_completed_signal _ true _ _ => true
  | _ => false
  end.

Definition is_failure (e : event) : bool :=
  match e with
  | file_completed_signal _ false _ _ => true
  | log_signal error (CouldNotGetSize _) => true
  | log_signal error (UploadThreadError _) => true
  | _ => false
  end.

Definition is_completion (e : event) : bool :=
  match e with
  | all_completed_signal _ _ _ _ => true
  | _ => false
  end.

Definition count (f : event -> bool) (events : list event) : Z :=
  Z.of_nat (List.length (filter f events)).

Lemma count_app f l1 l2 : count f (l1 ++ l2) = count f l1 + count f l2.
Proof. unfold count. rewrite filter_app, length_app. lia. Qed.

(** What follows the retry loop in both variants: no upload, no sleep, and
    the completion signal of the task, the one event that counts. *)
Definition concludes (local_path : string) (r : bool * string)
    (c : M bool) : Prop :=
  forall st,
    exists st' events speed,
      c st = (st', Ok (fst r))
      /\ trace st' = trace st ++ events
      /\ schedule events = []
      /\ In (file_completed_signal local_path (fst r) (or_success (snd r))
               speed) events
      /\ count is_success events = (if fst r then 1 else 0)
      /\ count is_failure events = (if fst r then 0 else 1)
      /\ count is_completion events = 0.

Lemma count_uploaded_trace file_size st :
  exists st' x t p,
    count_uploaded file_size st = (st', Ok tt)
    /\ trace st' = trace st ++ [overall_progress_signal x t p].
Proof.
  destruct (count_uploaded_spec file_size st) as [p [_ Hr]].
  eexists _, _, _, _. split; [exact Hr |]. reflexivity.
Qed.

Lemma concludes_threaded local_path file_size file_start_time r :
  concludes local_path r
    (now <- time ;;
     let speed := speed_of file_size (now - file_start_time)%Q in
     (if fst r then count_uploaded file_size else ret tt) ;;
     report_completion local_path (fst r) (snd r) speed).
Proof.
  intros st. unfold bind at 1, time, get. cbv zeta.
  destruct (fst r) eqn:Hok.
  - destruct (count_uploaded_trace file_size st) as [st1 [x [t [p [Hc Htr]]]]].
    unfold bind at 1. rewrite Hc, report_completion_spec.
    eexists _, _, _. split; [reflexivity |]. cbn [record trace].
    rewrite Htr, <- app_assoc. split; [reflexivity |].
    split; [reflexivity |]. split; [right; left; reflexivity |].
    repeat split.
  - unfold bind at 1, ret at 1. rewrite report_completion_spec.
    eexists _, _, _. split; [reflexivity |]. cbn [record trace].
    split; [reflexivity |]. split; [reflexivity |].
    split; [left; reflexivity |]. repeat split.
Qed.

Lemma concludes_sequential E local_path file_start_time r :
  concludes local_path r
    (now <- time ;;
     speed <- match os_path_getsize E local_path with
              | Some file_size =>
                  ret (speed_of file_size (now - file_start_time)%Q)
              | None =>
                  log warning (CouldNotGetSizeForSpeed local_path) ;;
                  ret 0%Q
              end ;;
     (if fst r then
        match os_path_getsize E local_path with
        | Some file_size => count_uploaded file_size
        | None => log warning (CouldNotGetSizeForProgress local_path)
        end
      else ret tt) ;;
     report_completion local_path (fst r) (snd r) speed).
Proof.
  intros st. unfold bind at 1, time, get.
  destruct (os_path_getsize E local_path) as [file_size |].
  - unfold bind at 1, ret at 1.
    destruct (concludes_threaded local_path file_size file_start_time r st)
      as [st' [events [speed [Hc H]]]].
    unfold bind at 1, time, get in Hc. cbv zeta in Hc.
    eexists _, _, _. split; [exact Hc | exact H].
  - unfold bind at 1 2, log, ret at 1. rewrite emit_record.
    destruct (fst r) eqn:Hok.
    + unfold bind at 1. rewrite emit_record, report_completion_spec.
      eexists _, _, _. split; [reflexivity |]. cbn [record trace].
      rewrite <- !app_assoc. split; [reflexivity |].
      split; [reflexivity |]. split; [cbn; tauto |]. repeat split.
    + unfold bind at 1, ret at 1. rewrite report_completion_spec.
      eexists _, _, _. split; [reflexivity |]. cbn [record trace].
      rewrite <- !app_assoc. split; [reflexivity |].
      split; [reflexivity |]. split; [cbn; tauto |]. repeat split.
Qed.

(** A task run through the retry loop and concluded. *)
Lemma retried_task E C callback uploader local_path remote_path
    (finish : bool * string -> M bool) st :
  quiet callback ->
  (forall r, concludes local_path r (finish r)) ->
  0 <= max_retries C ->
  should_cancel st = false ->
  fails_until_last E local_path remote_path (upload_calls st)
    (Z.to_nat (max_retries C)) ->
  let last :=
    returns (adapter_upload_file E
               (upload_calls st + Z.to_nat (max_retries C)) local_path
               remote_path) in
  exists st' events speed,
    (r <- attempts E C callback uploader local_path remote_path
            (Z.to_nat (max_retries C + 1)) 0 false EmptyString ;;
     finish r) st
    = (st', Ok (fst last))
    /\ trace st' = trace st ++ events
    /\ schedule events
       = retry_schedule uploader local_path remote_path
           (Z.to_nat (max_retries C))
    /\ In (file_completed_signal local_path (fst last) (or_success (snd last))
             speed) events.
Proof.
  intros Hq Hfin Hmax Hc Hf last.
  replace (Z.to_nat (max_retries C + 1)) with (S (Z.to_nat (max_retries C)))
    by lia.
  destruct (attempts_schedule E C callback uploader local_path remote_path Hq
              (Z.to_nat (max_retries C)) 0 false EmptyString st Hc)
    as [st1 [Hr [_ [_ [_ [ev1 [Htr1 Hs1]]]]]]]; [lia | exact Hf |].
  fold last in Hr. unfold bind at 1. rewrite Hr.
  destruct (Hfin last st1) as [st2 [ev2 [speed [Hr2 [Htr2 [Hs2 [Hin _]]]]]]].
  exists st2, (ev1 ++ ev2), speed. split; [exact Hr2 |].
  split; [rewrite Htr2, Htr1, app_assoc; reflexivity |].
  split.
  - unfold schedule in *. rewrite filter_app, Hs1, Hs2, app_nil_r. reflexivity.
  - apply in_or_app. right. exact Hin.
Qed.

Lemma count_attempts_schedule events :
  count_attempts (schedule events) = count_attempts events.
Proof.
  unfold count_attempts, schedule. f_equal.
  induction events as [| e events IH]; [reflexivity |].
  destruct e; cbn [filter is_scheduled is_attempt]; rewrite ?IH; reflexivity.
Qed.

(** C1, as stated, fails for the threaded variant: it reads the size of
    the file before the loop and gives the task up, without any attempt,
    when the size cannot be read.  Here [max_retries] is 2 and the adapter
    would fail every attempt; the task is failed after no attempt at all. *)
Lemma threaded_task_without_size_is_not_attempted :
  let C := Scenario.session [] 2 2 false in
  let st := under_way false 0 0 0 in
  fails_until_last Scenario.failing "gone" "gone" (upload_calls st)
    (Z.to_nat (max_retries C))
  /\ snd (upload_single_file_threaded Scenario.failing C 1 "gone" "gone" st)
     = Ok false
  /\ count_attempts
       (trace (fst (upload_single_file_threaded Scenario.failing C 1 "gone"
                      "gone" st))) = 0%nat
  /\ Z.of_nat
       (count_attempts
          (trace (fst (upload_single_file_threaded Scenario.failing C 1 "gone"
                         "gone" st))))
     <> max_retries C + 1.
Proof.
  cbv zeta. split; [| split; [reflexivity | split; [reflexivity | discriminate]]].
  intros i _. cbn. repeat split.
  intros [H | []]. discriminate H.
Qed.

(** C1, amended.  For a task that enters the retry loop - every task in
    sequential dispatch, and in threaded dispatch every task whose file
    size can be read when the task starts - with [max_retries >= 0], no
    cancellation observed and an adapter that fails every attempt but
    possibly the last allowed one: the task makes exactly
    [max_retries + 1] calls of [upload_file], consecutive calls are
    separated by one sleep of two seconds and nothing follows the last
    call, and the task ends with the result of the last allowed attempt -
    failed when that attempt fails too, succeeded when it succeeds. *)
Theorem task_is_attempted_max_retries_plus_one_times E C uploader local_path
    remote_path st upload :
  upload = upload_single_file E C uploader local_path remote_path
  \/ (upload = upload_single_file_threaded E C uploader local_path remote_path
      /\ os_path_getsize E local_path <> None) ->
  0 <= max_retries C ->
  should_cancel st = false ->
  fails_until_last E local_path remote_path (upload_calls st)
    (Z.to_nat (max_retries C)) ->
  let last :=
    returns (adapter_upload_file E
               (upload_calls st + Z.to_nat (max_retries C)) local_path
               remote_path) in
  exists st' events speed,
    upload st = (st', Ok (fst last))
    /\ trace st' = trace st ++ events
    /\ schedule events
       = retry_schedule uploader local_path remote_path
           (Z.to_nat (max_retries C))
    /\ Z.of_nat (count_attempts events) = max_retries C + 1
    /\ In (file_completed_signal local_path (fst last) (or_success (snd last))
             speed) events.
Proof.
  intros Hup Hmax Hc Hf last.
  set (st0 := record st [log_signal info (Uploading local_path remote_path)]).
  assert (Hf0 : fails_until_last E local_path remote_path (upload_calls st0)
                  (Z.to_nat (max_retries C))) by exact Hf.
  assert (Hc0 : should_cancel st0 = false) by exact Hc.
  assert (Hcore :
    exists st' events speed,
      upload st = (st', Ok (fst last))
      /\ trace st' = trace st0 ++ events
      /\ schedule events
         = retry_schedule uploader local_path remote_path
             (Z.to_nat (max_retries C))
      /\ In (file_completed_signal local_path (fst last)
               (or_success (snd last)) speed) events).
  { destruct Hup as [-> | [-> Hsize]].
    - unfold upload_single_file.
      unfold bind at 1, log at 1. rewrite emit_record. fold st0.
      unfold bind at 1, time at 1, get.
      apply (retried_task E C _ uploader local_path remote_path
               (fun r =>
                  now <- time ;;
                  speed <- match os_path_getsize E local_path with
                           | Some file_size =>
                               ret (speed_of file_size (now - clock st0)%Q)
                           | None =>
                               log warning (CouldNotGetSizeForSpeed local_path) ;;
                               ret 0%Q
                           end ;;
                  (if fst r then
                     match os_path_getsize E local_path with
                     | Some file_size => count_uploaded file_size
                     | None =>
                         log warning (CouldNotGetSizeForProgress local_path)
                     end
                   else ret tt) ;;
                  report_completion local_path (fst r) (snd r) speed) st0);
        try assumption.
      + apply progress_callback_quiet.
      + intros r. apply concludes_sequential.
    - destruct (os_path_getsize E local_path) as [file_size |] eqn:Hs;
        [| contradiction].
      unfold upload_single_file_threaded.
      unfold bind at 1, log at 1. rewrite emit_record. fold st0.
      unfold bind at 1, time at 1, get. rewrite Hs.
      apply (retried_task E C _ uploader local_path remote_path
               (fun r =>
                  now <- time ;;
                  let speed := speed_of file_size (now - clock st0)%Q in
                  (if fst r then count_uploaded file_size else ret tt) ;;
                  report_completion local_path (fst r) (snd r) speed) st0);
        try assumption.
      + apply progress_callback_threaded_quiet.
      + intros r. apply concludes_threaded. }
  destruct Hcore as [st' [events [speed [Hr [Htr [Hs Hin]]]]]].
  exists st', (log_signal info (Uploading local_path remote_path) :: events),
    speed.
  split; [exact Hr |]. split.
  - rewrite Htr. unfold st0. cbn [record trace]. rewrite <- app_assoc.
    reflexivity.
  - split; [exact Hs |]. split; [| right; exact Hin].
    rewrite <- count_attempts_schedule.
    change (schedule (log_signal info (Uploading local_path remote_path)
                      :: events)) with (schedule events).
    rewrite Hs, count_attempts_retry_schedule. lia.
Qed.

Lemma scenario_failing_every_attempt local_path k n :
  fails_until_last Scenario.failing local_path local_path k n.
Proof.
  intros i _. cbn. repeat split. intros [H | []]. discriminate H.
Qed.

Lemma task_is_attempted_max_retries_plus_one_times_witness :
  (0 <= max_retries (Scenario.session [] 1 2 false))
  /\ should_cancel (under_way false 0 600 0) = false
  /\ exists st' events speed,
       upload_single_file Scenario.failing (Scenario.session [] 1 2 false)
         0 "f2" "f2" (under_way false 0 600 0)
       = (st', Ok false)
       /\ trace st' = events
       /\ schedule events
          = [call_upload_file 0 "f2" "f2"; call_sleep 2;
             call_upload_file 0 "f2" "f2"; call_sleep 2;
             call_upload_file 0 "f2" "f2"]
       /\ Z.of_nat (count_attempts events) = 3
       /\ In (file_completed_signal "f2" false "Upload failed: timed out"
                speed) events.
Proof.
  split; [discriminate |]. split; [reflexivity |].
  exact (task_is_attempted_max_retries_plus_one_times Scenario.failing
           (Scenario.session [] 1 2 false) 0%nat "f2" "f2"
           (under_way false 0 600 0) _ (or_introl eq_refl)
           ltac:(discriminate) eq_refl
           (scenario_failing_every_attempt "f2" _ _)).
Defined.

(** *** Tallies and the session outcome (C2) *)

(** An event that stands for no task result and no session result. *)
Definition uncounted (e : event) : Prop :=
  is_success e = false /\ is_failure e = false /\ is_completion e = false.

(** The trace grew by [events]; [ds] of them count a task as succeeded,
    [df] count one as failed, and none is a session completion. *)
Definition tallied (st st' : worker) (ds df : Z) : Prop :=
  exists events,
    trace st' = trace st ++ events
    /\ count is_success events = ds
    /\ count is_failure events = df
    /\ count is_completion events = 0.

Definition untallied (st st' : worker) : Prop := tallied st st' 0 0.

Lemma tallied_refl st : untallied st st.
Proof. exists []. rewrite app_nil_r. repeat split. Qed.

Lemma tallied_trans a b c s1 f1 s2 f2 :
  tallied a b s1 f1 -> tallied b c s2 f2 -> tallied a c (s1 + s2) (f1 + f2).
Proof.
  intros [e1 [H1 [Hs1 [Hf1 Hc1]]]] [e2 [H2 [Hs2 [Hf2 Hc2]]]].
  exists (e1 ++ e2). rewrite H2, H1, app_assoc, !count_app.
  repeat split; lia.
Qed.

Lemma untallied_trans a b c : untallied a b -> untallied b c -> untallied a c.
Proof. intros H1 H2. exact (tallied_trans _ _ _ _ _ _ _ H1 H2). Qed.

Lemma untallied_then a b c s f :
  untallied a b -> tallied b c s f -> tallied a c s f.
Proof. intros H1 H2. exact (tallied_trans _ _ _ _ _ _ _ H1 H2). Qed.

Lemma tallied_then a b c s f :
  tallied a b s f -> untallied b c -> tallied a c s f.
Proof.
  intros H1 H2. pose proof (tallied_trans _ _ _ _ _ _ _ H1 H2) as H.
  rewrite !Z.add_0_r in H. exact H.
Qed.

Lemma untallied_emit st e : uncounted e -> untallied st (record st [e]).
Proof.
  intros [Hs [Hf Hc]]. exists [e]. unfold count. cbn [record trace filter].
  rewrite Hs, Hf, Hc. repeat split.
Qed.

Lemma untallied_silent st st' : trace st' = trace st -> untallied st st'.
Proof. intros H. exists []. rewrite app_nil_r. repeat split. exact H. Qed.

Ltac untallied_side :=
  first
    [ exact tallied_refl
    | exact untallied_trans
    | exact untallied_emit
    | solve [intros; apply untallied_silent; reflexivity]
    | solve [intros; repeat split] ].

Lemma attempts_untallied E C callback uploader local_path remote_path n
    attempt success error_message st :
  (callback = progress_callback E local_path (clock st)
   \/ exists file_size,
        callback = progress_callback_threaded local_path file_size (clock st)) ->
  untallied st
    (fst (attempts E C callback uploader local_path remote_path n attempt
            success error_message st)).
Proof.
  intros Hcb.
  apply (within_attempts E C untallied (fun _ => uncounted)); try untallied_side.
  intros percent st1. destruct Hcb as [-> | [file_size ->]].
  - apply (within_progress_callback E untallied (fun _ => uncounted));
      untallied_side.
  - apply (within_progress_callback_threaded untallied (fun _ => uncounted));
      untallied_side.
Qed.

(** The result of a task and what its events count. *)
Definition task_tallied (st : worker) (out : worker * result bool) : Prop :=
  match snd out with
  | Ok true => tallied st (fst out) 1 0
  | Ok false => tallied st (fst out) 0 1
  | Raise _ => untallied st (fst out)
  end.

Lemma concluded_task E C callback uploader local_path remote_path
    (finish : bool * string -> M bool) st st0 :
  untallied st st0 ->
  (callback = progress_callback E local_path (clock st0)
   \/ exists file_size,
        callback = progress_callback_threaded local_path file_size (clock st0)) ->
  (forall r, concludes local_path r (finish r)) ->
  task_tallied st
    ((r <- attempts E C callback uploader local_path remote_path
             (Z.to_nat (max_retries C + 1)) 0 false EmptyString ;;
      finish r) st0).
Proof.
  intros H0 Hcb Hfin.
  pose proof (attempts_untallied E C callback uploader local_path remote_path
                (Z.to_nat (max_retries C + 1)) 0 false EmptyString st0 Hcb)
    as Ha.
  unfold bind, task_tallied.
  destruct (attempts E C callback uploader local_path remote_path _ 0 false
              EmptyString st0) as [st1 [r | e]]; cbn [fst snd] in *.
  - destruct (Hfin r st1)
      as [st2 [events [speed [Hr [Htr [_ [_ [Hs [Hf Hc]]]]]]]]].
    rewrite Hr. cbn [fst snd].
    assert (Ht : tallied st1 st2 (if fst r then 1 else 0)
                   (if fst r then 0 else 1)).
    { exists events. repeat split; assumption. }
    destruct (fst r);
      exact (untallied_then _ _ _ _ _ (untallied_trans _ _ _ H0 Ha) Ht).
  - exact (untallied_trans _ _ _ H0 Ha).
Qed.

Lemma upload_single_file_tallied E C uploader local_path remote_path st :
  task_tallied st (upload_single_file E C uploader local_path remote_path st).
Proof.
  unfold upload_single_file.
  unfold bind at 1, log at 1. rewrite emit_record.
  set (st0 := record st _).
  unfold bind at 1, time at 1, get.
  apply (concluded_task E C _ uploader local_path remote_path
           (fun r =>
              now <- time ;;
              speed <- match os_path_getsize E local_path with
                       | Some file_size =>
                           ret (speed_of file_size (now - clock st0)%Q)
                       | None =>
                           log warning (CouldNotGetSizeForSpeed local_path) ;;
                           ret 0%Q
                       end ;;
              (if fst r then
                 match os_path_getsize E local_path with
                 | Some file_size => count_uploaded file_size
                 | None =>
                     log warning (CouldNotGetSizeForProgress local_path)
                 end
               else ret tt) ;;
              report_completion local_path (fst r) (snd r) speed) st st0).
  - apply untallied_emit. repeat split.
  - left. reflexivity.
  - intros r. apply concludes_sequential.
Qed.

Lemma upload_single_file_threaded_tallied E C uploader local_path remote_path
    st :
  task_tallied st
    (upload_single_file_threaded E C uploader local_path remote_path st).
Proof.
  unfold upload_single_file_threaded.
  unfold bind at 1, log at 1. rewrite emit_record.
  set (st0 := record st _).
  unfold bind at 1, time at 1, get.
  destruct (os_path_getsize E local_path) as [file_size |].
  - apply (concluded_task E C _ uploader local_path remote_path
             (fun r =>
                now <- time ;;
                let speed := speed_of file_size (now - clock st0)%Q in
                (if fst r then count_uploaded file_size else ret tt) ;;
                report_completion local_path (fst r) (snd r) speed) st st0).
    + apply untallied_emit. repeat split.
    + right. exists file_size. reflexivity.
    + intros r. apply concludes_threaded.
  - unfold bind, log, ret, task_tallied. rewrite emit_record. cbn [fst snd].
    unfold st0. rewrite record_record.
    exists [log_signal info (Uploading local_path remote_path);
            log_signal error (CouldNotGetSize local_path)].
    repeat split.
Qed.

(** The tallies a dispatch loop returns are its starting tallies plus what
    its events count. *)
Definition loop_tallied (st : worker) (tally : Z * Z)
    (out : worker * result (Z * Z)) : Prop :=
  match snd out with
  | Ok tally' =>
      exists ds df,
        tallied st (fst out) ds df
        /\ fst tally' = fst tally + ds /\ snd tally' = snd tally + df
  | Raise _ => True
  end.

Lemma wait_while_paused_untallied E k st :
  untallied st (fst (wait_while_paused E k st)).
Proof.
  apply (within_wait_while_paused E untallied (fun _ => uncounted));
    untallied_side.
Qed.

Lemma sequential_loop_tallied E C uploader tasks :
  forall k successful failed st,
    loop_tallied st (successful, failed)
      (sequential_loop E C uploader k tasks successful failed st).
Proof.
  induction tasks as [| [local_path remote_path] tasks IH];
    intros k successful failed st; cbn [sequential_loop].
  - unfold ret, loop_tallied. cbn [fst snd].
    exists 0, 0. split; [apply tallied_refl | lia].
  - unfold bind at 1, get at 1. destruct (should_cancel st).
    + unfold ret, loop_tallied. cbn [fst snd].
      exists 0, 0. split; [apply tallied_refl | lia].
    + pose proof (wait_while_paused_untallied E k st) as Hw.
      unfold bind at 1.
      destruct (wait_while_paused E k st) as [st1 [[] | e]]; cbn [fst] in Hw;
        [| exact I].
      pose proof (upload_single_file_tallied E C uploader local_path
                    remote_path st1) as Ht.
      unfold bind at 1. unfold task_tallied in Ht.
      destruct (upload_single_file E C uploader local_path remote_path st1)
        as [st2 [[|] | e]]; cbn [fst snd] in Ht; [| | exact I].
      * specialize (IH (S k) (successful + 1) failed st2).
        unfold loop_tallied in *.
        destruct (sequential_loop E C uploader (S k) tasks (successful + 1)
                    failed st2) as [st3 [[s' f'] | e]]; cbn [fst snd] in *;
          [| exact I].
        destruct IH as [ds [df [Hl [Hs Hf]]]].
        exists (1 + ds), (0 + df).
        split; [| lia].
        exact (tallied_trans _ _ _ _ _ _ _ (untallied_then _ _ _ _ _ Hw Ht) Hl).
      * specialize (IH (S k) successful (failed + 1) st2).
        unfold loop_tallied in *.
        destruct (sequential_loop E C uploader (S k) tasks successful
                    (failed + 1) st2) as [st3 [[s' f'] | e]];
          cbn [fst snd] in *; [| exact I].
        destruct IH as [ds [df [Hl [Hs Hf]]]].
        exists (0 + ds), (1 + df).
        split; [| lia].
        exact (tallied_trans _ _ _ _ _ _ _ (untallied_then _ _ _ _ _ Hw Ht) Hl).
Qed.

Lemma create_uploader_untallied C st :
  untallied st (fst (create_uploader C st))
  /\ exists created, snd (create_uploader C st) = Ok created.
Proof.
  unfold create_uploader.
  destruct (supported_protocol _); [destruct (required_keys_present _) |].
  - split; [| eexists; reflexivity].
    cbn. exists [adapter_created (adapters st)]. repeat split.
  - split; [| eexists; reflexivity].
    apply (untallied_emit st (log_signal error FailedToCreateUploader)).
    repeat split.
  - split; [| eexists; reflexivity].
    apply (untallied_emit st (log_signal error (UnsupportedProtocol _))).
    repeat split.
Qed.

(** A pool task: what it adds to the counters is what its events count;
    a task that ends in an exception adds nothing and counts nothing. *)
Lemma upload_worker_tallied E C local_path remote_path tally st :
  let out := upload_worker E C local_path remote_path tally st in
  match snd out with
  | Ok tally' =>
      exists ds df,
        tallied st (fst out) ds df
        /\ fst tally' = fst tally + ds /\ snd tally' = snd tally + df
  | Raise _ => untallied st (fst out)
  end.
Proof.
  cbv zeta.
  destruct (upload_worker E C local_path remote_path tally st) as [st' out]
    eqn:Heq.
  cbn [fst snd]. unfold upload_worker in Heq.
  destruct (create_uploader_untallied C st) as [Hc [created Hr]].
  unfold bind at 1 in Heq.
  destruct (create_uploader C st) as [st1 r1]. cbn [fst snd] in *. subst r1.
  destruct created as [u |].
  - unfold bind at 1, connect in Heq. unfold bind at 1 in Heq.
    rewrite emit_record in Heq. unfold ret at 1 in Heq.
    set (st2 := record st1 [call_connect u]) in *.
    assert (H2 : untallied st st2).
    { apply (untallied_trans _ _ _ Hc). apply untallied_emit. repeat split. }
    destruct (fst (adapter_connect E u)); cbn [negb] in Heq.
    + pose proof (upload_single_file_threaded_tallied E C u local_path
                    remote_path st2) as Ht.
      unfold bind at 1, finally, disconnect in Heq. unfold task_tallied in Ht.
      destruct (upload_single_file_threaded E C u local_path remote_path st2)
        as [st3 r]. rewrite emit_record in Heq. cbn [fst snd] in *.
      assert (Hd : untallied st3 (record st3 [call_disconnect u])).
      { apply untallied_emit. repeat split. }
      destruct r as [[|] | e]; unfold ret in Heq; inversion Heq; subst;
        cbn [fst snd].
      * exists 1, 0. split; [| lia].
        exact (tallied_then _ _ _ _ _ (untallied_then _ _ _ _ _ H2 Ht) Hd).
      * exists 0, 1. split; [| lia].
        exact (tallied_then _ _ _ _ _ (untallied_then _ _ _ _ _ H2 Ht) Hd).
      * exact (untallied_trans _ _ _ (untallied_trans _ _ _ H2 Ht) Hd).
    + unfold bind, log, ret in Heq. rewrite emit_record in Heq.
      inversion Heq; subst.
      exists 0, 0. split; [| lia].
      apply (untallied_trans _ _ _ H2). apply untallied_emit. repeat split.
  - unfold ret in Heq. inversion Heq; subst.
    exists 0, 0. split; [exact Hc | lia].
Qed.

Lemma pool_loop_tallied E C tasks :
  forall tally st,
    exists tally',
      snd (pool_loop E C tasks tally st) = Ok tally'
      /\ exists ds df,
           tallied st (fst (pool_loop E C tasks tally st)) ds df
           /\ fst tally' = fst tally + ds /\ snd tally' = snd tally + df.
Proof.
  induction tasks as [| [local_path remote_path] tasks IH]; intros tally st;
    cbn [pool_loop].
  - exists tally. split; [reflexivity |].
    exists 0, 0. split; [apply tallied_refl | lia].
  - pose proof (upload_worker_tallied E C local_path remote_path tally st)
      as Hw. cbv zeta in Hw.
    destruct (upload_worker E C local_path remote_path tally st) as [st1 r].
    cbn [fst snd] in Hw.
    destruct (should_cancel st1).
    + destruct r as [tally1 | e]; cbn [fst snd].
      * exists tally1. split; [reflexivity | exact Hw].
      * exists tally. split; [reflexivity |].
        exists 0, 0. split; [exact Hw | lia].
    + destruct r as [tally1 | e].
      * destruct (IH tally1 st1) as [tally' [Hr [ds [df [Hl [Hs Hf]]]]]].
        destruct Hw as [ds1 [df1 [Hw [Hs1 Hf1]]]].
        exists tally'. split; [exact Hr |].
        exists (ds1 + ds), (df1 + df).
        split; [exact (tallied_trans _ _ _ _ _ _ _ Hw Hl) | lia].
      * unfold bind, log. rewrite emit_record.
        set (st2 := record st1 _).
        destruct (IH (fst tally, snd tally + 1) st2)
          as [tally' [Hr [ds [df [Hl [Hs Hf]]]]]].
        cbn [fst snd] in Hs, Hf.
        exists tally'. split; [exact Hr |].
        exists (0 + ds), (1 + df). split; [| lia].
        refine (tallied_trans _ _ _ _ _ _ _ _ Hl).
        refine (untallied_then _ _ _ _ _ Hw _).
        exists [log_signal error (UploadThreadError local_path)].
        repeat split.
Qed.

(** The signal [emit_completion_signal] sends. *)
Definition completion_event (cancelled : bool) (successful failed total : Z)
    : event :=
  if cancelled then
    all_completed_signal false "Upload canceled" successful failed
  else if failed =? 0 then
    all_completed_signal true
      ("All " ++ Py.str total ++ " files uploaded successfully")%string
      successful failed
  else
    all_completed_signal false
      ("Upload completed with " ++ Py.str failed ++ " errors")%string
      successful failed.

Lemma emit_completion_signal_spec successful failed total st :
  emit_completion_signal successful failed total st
  = (record st [completion_event (should_cancel st) successful failed total],
     Ok tt).
Proof.
  unfold emit_completion_signal, completion_event, bind, get.
  destruct (should_cancel st); [reflexivity |].
  destruct (failed =? 0); reflexivity.
Qed.

(** The terminal outcomes of a session, and the rule that decides between
    them: from the result of the initial connect, whether the cancel flag
    was observed, and the tallied failures. *)
Inductive outcome :=
| Failed (message : string)
| Canceled
| Completed
| PartialFailure.


(** The completion signal that reports an outcome, with the tallies and
    the summary message. *)
Definition reported (o : outcome) (succeeded failed total : Z) : event :=
  match o with
  | Failed message => all_completed_signal false message 0 0
  | Canceled =>
      all_completed_signal false "Upload canceled" succeeded failed
  | Completed =>
      all_completed_signal true
        ("All " ++ Py.str total ++ " files uploaded successfully")%string
        succeeded failed
  | PartialFailure =>
      all_completed_signal false
        ("Upload completed with " ++ Py.str failed ++ " errors")%string
        succeeded failed
  end.





(** The session of the witness ends in [PartialFailure] with two tasks
    succeeded and one failed. *)
Example scenario_partial_failure :
  In (all_completed_signal false "Upload completed with 1 errors" 2 1)
     (trace (fst (run Scenario.second_file_fails
                    (Scenario.session ["f1"; "f2"; "f3"]%string 1 2 false)
                    (init 0)))).
Proof. vm_compute. tauto. Qed.

(** *** A worker that cannot connect (C6, C7)

    The session of this section has one file, [f1] of 100 bytes, and a pool
    of two threads.  The connection of the session is accepted; the
    connection the worker opens for the task is refused. *)

Definition refused_worker_session : worker :=
  fst (run Scenario.one_connection_only
         (Scenario.session ["f1"]%string 2 0 false) (init 0)).

Definition is_disconnect_of (conn : nat) (e : event) : bool :=
  match e with
  | call_disconnect u => Nat.eqb u conn
  | _ => false
  end.

(** C7 fails on this session: the adapter of the worker is created and its
    [connect] is called, and [disconnect] is never called on it, while the
    connection of the session is disconnected once. *)
Theorem refused_worker_is_never_disconnected :
  trace refused_worker_session
  = [log_signal info (StartingUpload 2);
     adapter_created 0; call_connect 0;
     log_signal info ConnectedPreparing;
     log_signal info (FoundFiles 1 100);
     adapter_created 1; call_connect 1;
     log_signal error
       (ThreadConnectionFailed "Connection failed: too many connections");
     all_completed_signal true "All 1 files uploaded successfully" 0 0;
     call_disconnect 0]
  /\ count (is_disconnect_of 1) (trace refused_worker_session) = 0
  /\ count (is_disconnect_of 0) (trace refused_worker_session) = 1.
Proof. repeat split. Qed.

(** C6 fails on the same session: no task was uploaded and none was counted
    as failed, so the session reports [Completed] with a count of zero
    successes while [uploaded_bytes] is 0 and [total_bytes] is 100. *)
Theorem completed_session_with_nothing_uploaded :
  In (reported Completed 0 0 1) (trace refused_worker_session)
  /\ uploaded_bytes refused_worker_session = 0
  /\ total_bytes refused_worker_session = 100
  /\ uploaded_bytes refused_worker_session
     <> total_bytes refused_worker_session.
Proof.
  split; [vm_compute; tauto |]. split; [reflexivity |].
  split; [reflexivity |].
  intros H. vm_compute in H. discriminate H.
Qed.

(** ** The file collector *)

(** *** Path mapping (C8) *)

(** The example of the specification: under the root [root], with an empty
    remote base, [root/sub/file.txt] is mapped to [sub/file.txt] in
    contents-only mode and to [root/sub/file.txt] in preserve mode. *)
Example root_sub_file_mapping :
  In ("root/sub/file.txt", "sub/file.txt")%string
     (fst (collect_files Scenario.healthy
             (Scenario.session ["root"]%string 1 0 true)))
  /\ In ("root/sub/file.txt", "root/sub/file.txt")%string
        (fst (collect_files Scenario.healthy
                (Scenario.session ["root"]%string 1 0 false))).
Proof. split; vm_compute; tauto. Qed.

(** C8 fails for a root written with a trailing separator: [os.path.dirname]
    of ["root/"] is ["root"], the root itself, so preserve mode maps the
    files as contents-only mode does and drops the name of the root. *)
Theorem trailing_separator_drops_root_name :
  PosixPath.dirname "root/" = "root"%string
  /\ fst (collect_files Scenario.healthy
            (Scenario.session ["root/"]%string 1 0 false))
     = [("root/a.txt", "a.txt"); ("root/sub/file.txt", "sub/file.txt")]%string
  /\ fst (collect_files Scenario.healthy
            (Scenario.session ["root/"]%string 1 0 false))
     = fst (collect_files Scenario.healthy
              (Scenario.session ["root/"]%string 1 0 true))
  /\ ~ In ("root/sub/file.txt", "root/sub/file.txt")%string
          (fst (collect_files Scenario.healthy
                  (Scenario.session ["root/"]%string 1 0 false))).
Proof.
  split; [reflexivity |]. split; [reflexivity |]. split; [reflexivity |].
  vm_compute. intros [H | [H | []]]; discriminate H.
Qed.

(** *** Filtering and inaccessible roots (C9) *)

(** C9 fails where it says that an inaccessible root is logged: a root that
    is neither an existing file nor an existing directory falls through
    both tests of the loop and nothing is emitted for it.  The remaining
    roots are collected. *)
Theorem vanished_root_is_skipped_without_a_log :
  os_stat Scenario.healthy "gone" = None
  /\ collect_files Scenario.healthy
       (Scenario.session ["gone"; "f1"]%string 1 0 false)
     = ([("f1", "f1")]%string, []).
Proof. split; reflexivity. Qed.

(** A root [os.stat] cannot reach adds no task and no log line, and leaves
    the collection of the other roots as it is. *)
Lemma inaccessible_root_is_skipped E C patterns before file_path after :
  os_stat E file_path = None ->
  collect_roots E C patterns (before ++ file_path :: after)
  = collect_roots E C patterns (before ++ after).
Proof.
  intros H. induction before as [| r before IH]; cbn [app collect_roots].
  - unfold collect_root. rewrite H.
    destruct (collect_roots E C patterns after). reflexivity.
  - rewrite IH. reflexivity.
Qed.

(** The sub-directories of a directory, with one more among them. *)
Fixpoint with_dir (before : list (string * dirtree)) (d : string)
    (t : dirtree) (after : subdirs) : subdirs :=
  match before with
  | [] => SubDir d t after
  | (d', t') :: rest => SubDir d' t' (with_dir rest d t after)
  end.

Fixpoint without_dir (before : list (string * dirtree)) (after : subdirs)
    : subdirs :=
  match before with
  | [] => after
  | (d', t') :: rest => SubDir d' t' (without_dir rest after)
  end.

Lemma walk_unfold E C patterns file_path root names dirs :
  walk E C patterns file_path root (DirTree names dirs)
  = match collect_dir_files E C patterns file_path root names with
    | (found, true) => (found, true)
    | (found, false) =>
        let '(below, raised) := walk_dirs E C patterns file_path root dirs in
        (found ++ below, raised)
    end.
Proof. reflexivity. Qed.

Lemma walk_dirs_unfold E C patterns file_path root d t rest :
  walk_dirs E C patterns file_path root (SubDir d t rest)
  = if _should_ignore E C d patterns
    then walk_dirs E C patterns file_path root rest
    else
      match walk E C patterns file_path (PosixPath.join root d) t with
      | (found, true) => (found, true)
      | (found, false) =>
          let '(more, raised) := walk_dirs E C patterns file_path root rest in
          (found ++ more, raised)
      end.
Proof. reflexivity. Qed.

(** An ignored sub-directory is pruned: the walk yields what it yields
    when the directory is not there at all, whatever it contains. *)
Lemma ignored_directory_is_pruned E C patterns file_path root names before d
    t after :
  _should_ignore E C d patterns = true ->
  walk E C patterns file_path root (DirTree names (with_dir before d t after))
  = walk E C patterns file_path root (DirTree names (without_dir before after)).
Proof.
  intros H. rewrite !walk_unfold.
  assert (Hd : walk_dirs E C patterns file_path root (with_dir before d t after)
               = walk_dirs E C patterns file_path root
                   (without_dir before after)).
  { induction before as [| [d' t'] before IH]; cbn [with_dir without_dir].
    - rewrite walk_dirs_unfold, H. reflexivity.
    - rewrite !walk_dirs_unfold, IH. reflexivity. }
  rewrite Hd. reflexivity.
Qed.

(** ** Further properties of the worker *)

(** *** Cancellation *)

Lemma count_attempts_app l1 l2 :
  count_attempts (l1 ++ l2) = (count_attempts l1 + count_attempts l2)%nat.
Proof. unfold count_attempts. rewrite filter_app, length_app. reflexivity. Qed.

Lemma attempts_cancelled E C callback uploader local_path remote_path n attempt
    success error_message st :
  should_cancel st = true ->
  attempts E C callback uploader local_path remote_path n attempt success
    error_message st
  = (st, Ok (success, error_message)).
Proof.
  intros H. destruct n as [| n]; cbn [attempts]; [reflexivity |].
  unfold bind, get. rewrite H. reflexivity.
Qed.

(** A task started after cancellation was observed: no attempt, the task
    is reported failed. *)
Lemma upload_single_file_cancelled E C uploader local_path remote_path st :
  should_cancel st = true ->
  exists events,
    upload_single_file E C uploader local_path remote_path st
    = (record st events, Ok false)
    /\ count_attempts events = 0%nat.
Proof.
  intros H. unfold upload_single_file.
  unfold bind at 1, log at 1. rewrite emit_record.
  unfold bind at 1, time at 1, get.
  unfold bind at 1. rewrite attempts_cancelled by exact H.
  unfold bind at 1, time at 1, get. cbn [fst snd].
  destruct (os_path_getsize E local_path) as [file_size |].
  - unfold bind at 1, ret at 1. unfold bind at 1, ret at 1.
    rewrite report_completion_spec, record_record.
    eexists. split; reflexivity.
  - unfold bind at 1 2, log, ret at 1. rewrite emit_record.
    unfold bind at 1, ret at 1.
    rewrite report_completion_spec, !record_record.
    eexists. split; reflexivity.
Qed.





(** *** A bound on the attempts of a task *)

(** The trace grew by [n] calls of [upload_file] at most. *)
Definition attempted_at_most (n : nat) (st st' : worker) : Prop :=
  exists events,
    trace st' = trace st ++ events /\ (count_attempts events <= n)%nat.

Lemma attempted_at_most_refl st : attempted_at_most 0 st st.
Proof. exists []. rewrite app_nil_r. split; [reflexivity | cbn; lia]. Qed.

Lemma attempted_at_most_trans a b c n m :
  attempted_at_most n a b -> attempted_at_most m b c ->
  attempted_at_most (n + m) a c.
Proof.
  intros [e1 [H1 Hn1]] [e2 [H2 Hn2]]. exists (e1 ++ e2).
  rewrite H2, H1, app_assoc, count_attempts_app. split; [reflexivity | lia].
Qed.

Lemma attempted_at_most_weaken n m st st' :
  (n <= m)%nat -> attempted_at_most n st st' -> attempted_at_most m st st'.
Proof. intros Hle [e [H Hn]]. exists e. split; [exact H | lia]. Qed.

Lemma attempted_at_most_emit st e :
  is_attempt e = false -> attempted_at_most 0 st (record st [e]).
Proof.
  intros H. exists [e]. split; [reflexivity |].
  unfold count_attempts. cbn [filter]. rewrite H. cbn. lia.
Qed.

Lemma attempted_at_most_silent st st' :
  trace st' = trace st -> attempted_at_most 0 st st'.
Proof.
  intros H. exists []. rewrite app_nil_r. split; [exact H | cbn; lia].
Qed.

Definition attempts_nothing (st st' : worker) : Prop :=
  attempted_at_most 0 st st'.

Lemma attempts_nothing_trans a b c :
  attempts_nothing a b -> attempts_nothing b c -> attempts_nothing a c.
Proof. intros H1 H2. exact (attempted_at_most_trans _ _ _ _ _ H1 H2). Qed.

Ltac attempts_nothing_side :=
  first
    [ exact attempted_at_most_refl
    | exact attempts_nothing_trans
    | exact attempted_at_most_emit
    | solve [intros; apply attempted_at_most_silent; reflexivity]
    | solve [intros; reflexivity] ].

Definition makes_no_attempt (callback : Q -> M unit) : Prop :=
  forall percent st, within attempts_nothing (callback percent) st.

Lemma progress_callback_makes_no_attempt E local_path file_start_time :
  makes_no_attempt (progress_callback E local_path file_start_time).
Proof.
  intros percent st.
  apply (within_progress_callback E attempts_nothing
           (fun _ e => is_attempt e = false));
    attempts_nothing_side.
Qed.

Lemma progress_callback_threaded_makes_no_attempt local_path file_size
    file_start_time :
  makes_no_attempt
    (progress_callback_threaded local_path file_size file_start_time).
Proof.
  intros percent st.
  apply (within_progress_callback_threaded attempts_nothing
           (fun _ e => is_attempt e = false));
    attempts_nothing_side.
Qed.

(** One call of [upload_file] is one attempt, whatever happens in it. *)
Lemma upload_file_one_attempt E callback uploader local_path remote_path st :
  makes_no_attempt callback ->
  attempted_at_most 1 st
    (fst (upload_file E uploader local_path remote_path callback st)).
Proof.
  intros Hcb. unfold upload_file.
  unfold bind at 1. cbn [next_upload_call].
  unfold bind at 1. rewrite emit_record.
  set (st0 := record _ _).
  assert (H0 : attempted_at_most 1 st st0).
  { exists [call_upload_file uploader local_path remote_path].
    split; [reflexivity | cbn; lia]. }
  set (r := adapter_upload_file E (upload_calls st) local_path remote_path).
  assert (Ht : within attempts_nothing (transfer callback (steps r)) st0).
  { apply (within_transfer attempts_nothing); try attempts_nothing_side.
    exact Hcb. }
  destruct Ht as [Ht _]. unfold bind at 1.
  destruct (transfer callback (steps r) st0) as [st1 [completed | e]];
    cbn [fst] in *.
  - assert (Hend : attempts_nothing st1
                     (fst ((if completed
                            then set_clock (end_time r) ;;
                                 match raises r with
                                 | Some message =>
                                     raise (AdapterException message)
                                 | None => ret (returns r)
                                 end
                            else ret (false, "Upload failed"%string)) st1))).
    { destruct completed; [| apply attempted_at_most_refl].
      unfold bind. cbn [set_clock].
      destruct (raises r); cbn [fst]; apply attempted_at_most_silent;
        reflexivity. }
    exact (attempted_at_most_trans _ _ _ _ _
             (attempted_at_most_trans _ _ _ _ _ H0 Ht) Hend).
  - exact (attempted_at_most_trans _ _ _ _ _ H0 Ht).
Qed.

Lemma attempts_bounded E C callback uploader local_path remote_path n :
  makes_no_attempt callback ->
  forall attempt success error_message st,
    attempted_at_most n st
      (fst (attempts E C callback uploader local_path remote_path n attempt
              success error_message st)).
Proof.
  intros Hcb. induction n as [| n IH]; intros attempt success error_message st;
    cbn [attempts].
  - apply attempted_at_most_refl.
  - unfold bind at 1, get at 1.
    destruct (should_cancel st).
    { apply attempted_at_most_weaken with (n := 0%nat); [lia |].
      apply attempted_at_most_refl. }
    set (st0 := fst ((if 0 <? attempt
                      then log warning (Retry attempt (max_retries C) local_path)
                      else ret tt) st)).
    assert (H0 : (if 0 <? attempt
                  then log warning (Retry attempt (max_retries C) local_path)
                  else ret tt) st = (st0, Ok tt)
                 /\ attempted_at_most 0 st st0).
    { unfold st0. destruct (0 <? attempt).
      - split; [reflexivity |]. apply attempted_at_most_emit. reflexivity.
      - split; [reflexivity | apply attempted_at_most_refl]. }
    destruct H0 as [He0 Ha0]. unfold bind at 1. rewrite He0.
    pose proof (upload_file_one_attempt E callback uploader local_path
                  remote_path st0 Hcb) as Hu.
    unfold bind at 1.
    destruct (upload_file E uploader local_path remote_path callback st0)
      as [st1 [r | e]]; cbn [fst] in *.
    + destruct (fst r).
      * unfold ret. cbn [fst].
        apply attempted_at_most_weaken with (n := (0 + 1)%nat); [lia |].
        exact (attempted_at_most_trans _ _ _ _ _ Ha0 Hu).
      * set (st2 := fst ((if attempt <? max_retries C then sleep 2 else ret tt)
                           st1)).
        assert (H2 : (if attempt <? max_retries C then sleep 2 else ret tt) st1
                     = (st2, Ok tt)
                     /\ attempted_at_most 0 st1 st2).
        { unfold st2. destruct (attempt <? max_retries C).
          - split; [reflexivity |].
            exists [call_sleep 2]. split; [reflexivity | cbn; lia].
          - split; [reflexivity | apply attempted_at_most_refl]. }
        destruct H2 as [He2 Ha2]. unfold bind at 1. rewrite He2.
        specialize (IH (attempt + 1) false (snd r) st2).
        apply attempted_at_most_weaken with (n := (0 + 1 + 0 + n)%nat);
          [lia |].
        exact (attempted_at_most_trans _ _ _ _ _
                 (attempted_at_most_trans _ _ _ _ _
                    (attempted_at_most_trans _ _ _ _ _ Ha0 Hu) Ha2) IH).
    + apply attempted_at_most_weaken with (n := (0 + 1)%nat); [lia |].
      exact (attempted_at_most_trans _ _ _ _ _ Ha0 Hu).
Qed.

Lemma bounded_task E C callback uploader local_path remote_path
    (finish : bool * string -> M bool) st st0 :
  attempted_at_most 0 st st0 ->
  makes_no_attempt callback ->
  (forall r, concludes local_path r (finish r)) ->
  attempted_at_most (Z.to_nat (max_retries C + 1)) st
    (fst ((r <- attempts E C callback uploader local_path remote_path
                  (Z.to_nat (max_retries C + 1)) 0 false EmptyString ;;
           finish r) st0)).
Proof.
  intros H0 Hcb Hfin.
  pose proof (attempts_bounded E C callback uploader local_path remote_path
                (Z.to_nat (max_retries C + 1)) Hcb 0 false EmptyString st0)
    as Ha.
  unfold bind.
  destruct (attempts E C callback uploader local_path remote_path _ 0 false
              EmptyString st0) as [st1 [r | e]]; cbn [fst] in *.
  - destruct (Hfin r st1) as [st2 [events [speed [Hr [Htr [Hs _]]]]]].
    rewrite Hr. cbn [fst].
    assert (H2 : attempted_at_most 0 st1 st2).
    { exists events. split; [exact Htr |].
      rewrite <- count_attempts_schedule, Hs. cbn. lia. }
    pose proof (attempted_at_most_trans _ _ _ _ _
                  (attempted_at_most_trans _ _ _ _ _ H0 Ha) H2) as H.
    eapply attempted_at_most_weaken; [| exact H]. lia.
  - exact (attempted_at_most_trans _ _ _ _ _ H0 Ha).
Qed.

(** X2.  Whatever the adapter does - succeed, fail or raise - and whenever
    cancellation arrives, a task makes at most [max_retries + 1] calls of
    [upload_file], in both variants; with a negative [max_retries] it
    makes none. *)
Theorem task_never_exceeds_max_retries_plus_one E C uploader local_path
    remote_path st :
  attempted_at_most (Z.to_nat (max_retries C + 1)) st
    (fst (upload_single_file E C uploader local_path remote_path st))
  /\ attempted_at_most (Z.to_nat (max_retries C + 1)) st
       (fst (upload_single_file_threaded E C uploader local_path remote_path
               st)).
Proof.
  split.
  - unfold upload_single_file.
    unfold bind at 1, log at 1. rewrite emit_record.
    set (st0 := record st _).
    unfold bind at 1, time at 1, get.
    apply (bounded_task E C _ uploader local_path remote_path
             (fun r =>
                now <- time ;;
                speed <- match os_path_getsize E local_path with
                         | Some file_size =>
                             ret (speed_of file_size (now - clock st0)%Q)
                         | None =>
                             log warning (CouldNotGetSizeForSpeed local_path) ;;
                             ret 0%Q
                         end ;;
                (if fst r then
                   match os_path_getsize E local_path with
                   | Some file_size => count_uploaded file_size
                   | None =>
                       log warning (CouldNotGetSizeForProgress local_path)
                   end
                 else ret tt) ;;
                report_completion local_path (fst r) (snd r) speed) st st0).
    + apply attempted_at_most_emit. reflexivity.
    + apply progress_callback_makes_no_attempt.
    + intros r. apply concludes_sequential.
  - unfold upload_single_file_threaded.
    unfold bind at 1, log at 1. rewrite emit_record.
    set (st0 := record st _).
    unfold bind at 1, time at 1, get.
    destruct (os_path_getsize E local_path) as [file_size |].
    + apply (bounded_task E C _ uploader local_path remote_path
               (fun r =>
                  now <- time ;;
                  let speed := speed_of file_size (now - clock st0)%Q in
                  (if fst r then count_uploaded file_size else ret tt) ;;
                  report_completion local_path (fst r) (snd r) speed) st st0).
      * apply attempted_at_most_emit. reflexivity.
      * apply progress_callback_threaded_makes_no_attempt.
      * intros r. apply concludes_threaded.
    + unfold bind, log, ret. rewrite emit_record. cbn [fst].
      unfold st0. rewrite record_record.
      eexists. split; [reflexivity |]. cbn. lia.
Qed.

(** *** The byte counters *)

(** What a computation may do to the counters of the worker: the count of
    uploaded bytes does not decrease, the total is kept, and a cancellation
    that was observed stays observed. *)
Definition counters_grow (st st' : worker) : Prop :=
  uploaded_bytes st <= uploaded_bytes st'
  /\ total_bytes st' = total_bytes st
  /\ (should_cancel st = true -> should_cancel st' = true).

Lemma evolves_counters_grow A (c : M A) st :
  within (evolves (total_bytes st)) c st -> counters_grow st (fst (c st)).
Proof.
  intros [Hev _]. destruct (Hev eq_refl) as [Ht [Hu [Hc _]]].
  repeat split; assumption.
Qed.

(** X3.  No task and no dispatch loop ever lowers [uploaded_bytes], changes
    [total_bytes] or clears an observed cancellation, whatever the adapter
    answers and also when it raises. *)
Theorem counters_only_grow E C uploader local_path remote_path tasks st :
  counters_grow st
    (fst (upload_single_file E C uploader local_path remote_path st))
  /\ counters_grow st
       (fst (upload_single_file_threaded E C uploader local_path remote_path
               st))
  /\ counters_grow st (fst (upload_files_sequential E C uploader tasks st))
  /\ counters_grow st (fst (upload_files_threaded E C uploader tasks st)).
Proof.
  split; [| split; [| split]]; apply evolves_counters_grow.
  - apply (within_upload_single_file E C (evolves (total_bytes st))
             (may_emit (total_bytes st))); evolves_side.
  - apply (within_upload_single_file_threaded E C (evolves (total_bytes st))
             (may_emit (total_bytes st))); evolves_side.
  - apply dispatch_evolves.
  - apply dispatch_evolves.
Qed.

(** *** What a task adds to the count *)

(** The retry loop, the callbacks and the adapter leave [uploaded_bytes]
    alone: the count moves at the end of a task only. *)
Definition keeps_count (st st' : worker) : Prop :=
  uploaded_bytes st' = uploaded_bytes st.

Ltac keeps_count_side :=
  first
    [ solve [intros; reflexivity]
    | solve [unfold keeps_count; intros; congruence]
    | solve [intros; exact I] ].

Lemma attempts_keep_count E C callback uploader local_path remote_path n
    attempt success error_message st :
  (callback = progress_callback E local_path (clock st)
   \/ exists file_size,
        callback = progress_callback_threaded local_path file_size (clock st)) ->
  keeps_count st
    (fst (attempts E C callback uploader local_path remote_path n attempt
            success error_message st)).
Proof.
  intros Hcb.
  apply (within_attempts E C keeps_count (fun _ _ => True));
    try keeps_count_side.
  intros percent st1. destruct Hcb as [-> | [file_size ->]].
  - apply (within_progress_callback E keeps_count (fun _ _ => True));
      keeps_count_side.
  - apply (within_progress_callback_threaded keeps_count (fun _ _ => True));
      keeps_count_side.
Qed.

(** The bytes a task with result [r] adds to [uploaded_bytes], for the size
    [size] that [os.path.getsize] gives at its end. *)
Definition counted (size : option N) (r : result bool) : Z :=
  match r, size with
  | Ok true, Some file_size => Z.of_N file_size
  | _, _ => 0
  end.

(** What follows the retry loop adds the size of the file, when the loop
    succeeded and the size can be read. *)
Definition adds_size (size : option N) (r : bool * string) (c : M bool)
    : Prop :=
  forall st,
    exists st',
      c st = (st', Ok (fst r))
      /\ uploaded_bytes st' = uploaded_bytes st + counted size (Ok (fst r)).

Lemma adds_size_threaded local_path file_size file_start_time r :
  adds_size (Some file_size) r
    (now <- time ;;
     let speed := speed_of file_size (now - file_start_time)%Q in
     (if fst r then count_uploaded file_size else ret tt) ;;
     report_completion local_path (fst r) (snd r) speed).
Proof.
  intros st. unfold bind at 1, time, get. cbv zeta.
  destruct (fst r) eqn:Hok.
  - destruct (count_uploaded_spec file_size st) as [p [_ Hc]].
    unfold bind at 1. rewrite Hc, report_completion_spec.
    eexists. split; [reflexivity |]. reflexivity.
  - unfold bind at 1, ret at 1. rewrite report_completion_spec.
    eexists. split; [reflexivity |]. cbn. lia.
Qed.

Lemma adds_size_sequential E local_path file_start_time r :
  adds_size (os_path_getsize E local_path) r
    (now <- time ;;
     speed <- match os_path_getsize E local_path with
              | Some file_size =>
                  ret (speed_of file_size (now - file_start_time)%Q)
              | None =>
                  log warning (CouldNotGetSizeForSpeed local_path) ;;
                  ret 0%Q
              end ;;
     (if fst r then
        match os_path_getsize E local_path with
        | Some file_size => count_uploaded file_size
        | None => log warning (CouldNotGetSizeForProgress local_path)
        end
      else ret tt) ;;
     report_completion local_path (fst r) (snd r) speed).
Proof.
  intros st. unfold bind at 1, time, get.
  destruct (os_path_getsize E local_path) as [file_size |].
  - unfold bind at 1, ret at 1.
    destruct (adds_size_threaded local_path file_size file_start_time r st)
      as [st' [Hc H]].
    unfold bind at 1, time, get in Hc. cbv zeta in Hc.
    eexists. split; [exact Hc | exact H].
  - unfold bind at 1 2, log, ret at 1. rewrite emit_record.
    destruct (fst r) eqn:Hok.
    + unfold bind at 1. rewrite emit_record, report_completion_spec.
      eexists. split; [reflexivity |]. cbn. lia.
    + unfold bind at 1, ret at 1. rewrite report_completion_spec.
      eexists. split; [reflexivity |]. cbn. lia.
Qed.

Lemma counted_task E C callback uploader local_path remote_path size
    (finish : bool * string -> M bool) st st0 :
  keeps_count st st0 ->
  (callback = progress_callback E local_path (clock st0)
   \/ exists file_size,
        callback = progress_callback_threaded local_path file_size (clock st0)) ->
  (forall r, adds_size size r (finish r)) ->
  let out :=
    (r <- attempts E C callback uploader local_path remote_path
            (Z.to_nat (max_retries C + 1)) 0 false EmptyString ;;
     finish r) st0 in
  uploaded_bytes (fst out) = uploaded_bytes st + counted size (snd out).
Proof.
  intros H0 Hcb Hfin.
  pose proof (attempts_keep_count E C callback uploader local_path remote_path
                (Z.to_nat (max_retries C + 1)) 0 false EmptyString st0 Hcb)
    as Ha.
  unfold bind. unfold keeps_count in *.
  destruct (attempts E C callback uploader local_path remote_path _ 0 false
              EmptyString st0) as [st1 [r | e]]; cbn [fst snd] in *.
  - destruct (Hfin r st1) as [st2 [Hr Hu]].
    rewrite Hr. cbn [fst snd]. rewrite Hu. lia.
  - cbn. lia.
Qed.

Lemma upload_single_file_counted E C uploader local_path remote_path st :
  uploaded_bytes
    (fst (upload_single_file E C uploader local_path remote_path st))
  = uploaded_bytes st
    + counted (os_path_getsize E local_path)
        (snd (upload_single_file E C uploader local_path remote_path st)).
Proof.
  unfold upload_single_file.
  unfold bind at 1, log at 1. rewrite emit_record.
  set (st0 := record st _).
  unfold bind at 1, time at 1, get.
  apply (counted_task E C _ uploader local_path remote_path
           (os_path_getsize E local_path)
           (fun r =>
              now <- time ;;
              speed <- match os_path_getsize E local_path with
                       | Some file_size =>
                           ret (speed_of file_size (now - clock st0)%Q)
                       | None =>
                           log warning (CouldNotGetSizeForSpeed local_path) ;;
                           ret 0%Q
                       end ;;
              (if fst r then
                 match os_path_getsize E local_path with
                 | Some file_size => count_uploaded file_size
                 | None =>
                     log warning (CouldNotGetSizeForProgress local_path)
                 end
               else ret tt) ;;
              report_completion local_path (fst r) (snd r) speed) st st0).
  - reflexivity.
  - left. reflexivity.
  - intros r. apply adds_size_sequential.
Qed.

Lemma upload_single_file_threaded_counted E C uploader local_path remote_path
    st :
  uploaded_bytes
    (fst (upload_single_file_threaded E C uploader local_path remote_path
            st))
  = uploaded_bytes st
    + counted (os_path_getsize E local_path)
        (snd (upload_single_file_threaded E C uploader local_path
                remote_path st)).
Proof.
  unfold upload_single_file_threaded.
  unfold bind at 1, log at 1. rewrite emit_record.
  set (st0 := record st _).
  unfold bind at 1, time at 1, get.
  destruct (os_path_getsize E local_path) as [file_size |].
  - apply (counted_task E C _ uploader local_path remote_path
             (Some file_size)
             (fun r =>
                now <- time ;;
                let speed := speed_of file_size (now - clock st0)%Q in
                (if fst r then count_uploaded file_size else ret tt) ;;
                report_completion local_path (fst r) (snd r) speed) st st0).
    + reflexivity.
    + right. exists file_size. reflexivity.
    + intros r. apply adds_size_threaded.
  - unfold bind, log, ret. rewrite emit_record. cbn. lia.
Qed.

(** X4.  A task adds to [uploaded_bytes] the whole size of its file when it
    returns [True] and that size can be read at its end, and nothing in
    every other case: a failed task, a task that raised, and a sequential
    task that succeeded on a file whose size cannot be read.  Progress
    reported during the attempts is never added to the count. *)
Theorem task_counts_whole_file_on_success E C uploader local_path remote_path
    st :
  uploaded_bytes
    (fst (upload_single_file E C uploader local_path remote_path st))
  = uploaded_bytes st
    + counted (os_path_getsize E local_path)
        (snd (upload_single_file E C uploader local_path remote_path st))
  /\ uploaded_bytes
       (fst (upload_single_file_threaded E C uploader local_path remote_path
               st))
     = uploaded_bytes st
       + counted (os_path_getsize E local_path)
           (snd (upload_single_file_threaded E C uploader local_path
                   remote_path st)).
Proof.
  split;
    [apply upload_single_file_counted
    | apply upload_single_file_threaded_counted].
Qed.

(** *** A sequential session that reports success *)

(** The trace grew by events that all satisfy [P]. *)
Definition emits_only (P : event -> Prop) (st st' : worker) : Prop :=
  exists events, trace st' = trace st ++ events /\ Forall P events.

Lemma emits_only_refl P st : emits_only P st st.
Proof. exists []. rewrite app_nil_r. split; [reflexivity | constructor]. Qed.

Lemma emits_only_trans P a b c :
  emits_only P a b -> emits_only P b c -> emits_only P a c.
Proof.
  intros [ev1 [H1 F1]] [ev2 [H2 F2]]. exists (ev1 ++ ev2).
  rewrite H2, H1, app_assoc. split; [reflexivity |].
  apply Forall_app. split; assumption.
Qed.

Lemma emits_only_emit (P : event -> Prop) st e :
  P e -> emits_only P st (record st [e]).
Proof.
  intros H. exists [e]. split; [reflexivity |]. constructor; [exact H |].
  constructor.
Qed.

Lemma emits_only_silent P st st' :
  trace st' = trace st -> emits_only P st st'.
Proof.
  intros H. exists []. rewrite app_nil_r. split; [exact H | constructor].
Qed.

Ltac emits_only_side :=
  first
    [ exact (emits_only_refl _)
    | exact (emits_only_trans _)
    | exact (fun st e H => emits_only_emit _ st e H)
    | solve [intros; apply emits_only_silent; reflexivity]
    | solve [intros; reflexivity]
    | solve [intros; cbn; auto] ].

(** None of the new events is a session completion. *)
Definition no_completion : worker -> worker -> Prop :=
  emits_only (fun e => is_completion e = false).

Lemma sequential_loop_no_completion E C uploader tasks k successful failed st :
  no_completion st
    (fst (sequential_loop E C uploader k tasks successful failed st)).
Proof.
  apply (within_sequential_loop E C no_completion
           (fun _ e => is_completion e = false)); emits_only_side.
Qed.

Lemma wait_while_paused_keeps_count E k st :
  keeps_count st (fst (wait_while_paused E k st)).
Proof.
  apply (within_wait_while_paused E keeps_count (fun _ _ => True));
    keeps_count_side.
Qed.

(** The size of the local file of a task, 0 when it cannot be read. *)
Definition size_or_zero (E : Env) (t : task) : Z :=
  match os_path_getsize E (fst t) with
  | Some size => Z.of_N size
  | None => 0
  end.

Definition sizes_total (E : Env) (tasks : list task) : Z :=
  fold_right Z.add 0 (map (size_or_zero E) tasks).

(** A loop that ends with the failures it started with and without a
    cancellation ran every task, and every task added its size. *)
Lemma sequential_loop_without_failure E C uploader tasks :
  forall k successful failed st st' successful' failed',
    sequential_loop E C uploader k tasks successful failed st
    = (st', Ok (successful', failed')) ->
    should_cancel st' = false ->
    failed' = failed ->
    uploaded_bytes st' = uploaded_bytes st + sizes_total E tasks
    /\ successful' = successful + Z.of_nat (List.length tasks).
Proof.
  induction tasks as [| [local_path remote_path] tasks IH];
    intros k s f st st' s' f' H Hcancel Hf; cbn [sequential_loop] in H.
  - unfold ret in H. inversion H; subst. cbn. split; lia.
  - unfold bind at 1, get at 1 in H.
    destruct (should_cancel st) eqn:Hc.
    + unfold ret in H. inversion H; subst. congruence.
    + pose proof (wait_while_paused_keeps_count E k st) as Hw.
      unfold bind at 1 in H.
      destruct (wait_while_paused E k st) as [st1 [[] | e]];
        [| discriminate H].
      cbn [fst] in Hw. unfold keeps_count in Hw.
      pose proof (upload_single_file_counted E C uploader local_path
                    remote_path st1) as Hu.
      unfold bind at 1 in H.
      destruct (upload_single_file E C uploader local_path remote_path st1)
        as [st2 [[|] | e]]; cbn [fst snd] in Hu; [| | discriminate H].
      * destruct (IH _ _ _ _ _ _ _ H Hcancel Hf) as [Hub Hs].
        unfold sizes_total. cbn [map fold_right List.length].
        fold (sizes_total E tasks). unfold size_or_zero at 1. cbn [fst].
        unfold counted in Hu.
        destruct (os_path_getsize E local_path); split; lia.
      * exfalso.
        pose proof (sequential_loop_tallied E C uploader tasks (S k) s (f + 1)
                      st2) as Hl.
        unfold loop_tallied in Hl. rewrite H in Hl. cbn [fst snd] in Hl.
        destruct Hl as [ds [df [[events [_ [_ [Hdf _]]]] [_ Hf']]]].
        unfold count in Hdf. lia.
Qed.

(** The scan and the tasks see one state of the file system: a selected
    file exists exactly when its size can be read. *)
Definition one_snapshot (E : Env) (tasks : list task) : Prop :=
  forall t, In t tasks ->
    os_path_exists E (fst t) = true <-> os_path_getsize E (fst t) <> None.

Lemma sum_sizes_snapshot E tasks :
  one_snapshot E tasks -> sum_sizes E tasks = Some (sizes_total E tasks).
Proof.
  induction tasks as [| [local_path remote_path] tasks IH]; intros H.
  - reflexivity.
  - cbn [sum_sizes]. unfold sizes_total. cbn [map fold_right].
    fold (sizes_total E tasks). unfold size_or_zero at 1. cbn [fst].
    assert (Hrest : one_snapshot E tasks).
    { intros t Ht. apply H. right. exact Ht. }
    rewrite (IH Hrest).
    pose proof (H (local_path, remote_path) (or_introl eq_refl)) as Hs.
    cbn [fst] in Hs.
    destruct (os_path_exists E local_path);
      destruct (os_path_getsize E local_path) as [size |].
    + reflexivity.
    + exfalso. apply (proj1 Hs); reflexivity.
    + exfalso. assert (false = true) by (apply Hs; discriminate).
      discriminate.
    + reflexivity.
Qed.

(** X5.  A sequential session that reports success ([all_completed_signal]
    with [True]) over one state of the file system has uploaded every
    collected file: [uploaded_bytes] has reached [total_bytes], the
    successes reported are the number of collected files and the failures
    reported are 0. *)
Theorem completed_sequential_session_uploaded_all E C now message successful
    failed :
  creates_uploader C ->
  fst (adapter_connect E 0%nat) = true ->
  max_threads C <= 1 ->
  one_snapshot E (fst (collect_files E C)) ->
  In (all_completed_signal true message successful failed)
     (trace (fst (run E C (init now)))) ->
  uploaded_bytes (fst (run E C (init now)))
  = total_bytes (fst (run E C (init now)))
  /\ successful = Z.of_nat (List.length (fst (collect_files E C)))
  /\ failed = 0.
Proof.
  intros Hcr Hc Hmax Hsnap Hin.
  rewrite run_connected in * by assumption. cbn [fst] in *.
  unfold dispatch in *.
  assert (Hseq : (1 <? max_threads C) = false) by (apply Z.ltb_ge; lia).
  rewrite Hseq in *.
  unfold upload_files_sequential, bind in *.
  pose proof (sequential_loop_no_completion E C 0%nat
                (fst (collect_files E C)) 0%nat 0 0 (at_dispatch E C now))
    as [events [Htr Hnc]].
  assert (Hev : within (evolves (scanned_total E C))
                  (sequential_loop E C 0%nat 0%nat (fst (collect_files E C))
                     0 0) (at_dispatch E C now)).
  { apply (within_sequential_loop E C (evolves (scanned_total E C))
             (may_emit (scanned_total E C))); evolves_side. }
  destruct Hev as [Hev _]. destruct (Hev eq_refl) as [Htotal _].
  assert (Hpre : forall b m s f,
            ~ In (all_completed_signal b m s f) (prelude E C ++ events)).
  { intros b m s f Hi. apply in_app_or in Hi. destruct Hi as [Hi | Hi].
    - pose proof (prelude_before_dispatch E C) as Hp.
      rewrite Forall_forall in Hp. exact (Hp _ Hi).
    - rewrite Forall_forall in Hnc. specialize (Hnc _ Hi). discriminate Hnc. }
  destruct (sequential_loop E C 0%nat 0%nat (fst (collect_files E C)) 0 0
              (at_dispatch E C now)) as [st1 [[s' f'] | e]] eqn:Hloop;
    cbn [fst snd] in *.
  - rewrite emit_completion_signal_spec in *.
    cbn [fst record trace uploaded_bytes total_bytes] in *.
    rewrite Htr in Hin. cbn [at_dispatch trace] in Hin.
    apply in_app_or in Hin. destruct Hin as [Hin | [Hin | []]];
      [| discriminate Hin].
    apply in_app_or in Hin. destruct Hin as [Hin | [Hin | []]];
      [exfalso; exact (Hpre _ _ _ _ Hin) |].
    unfold completion_event in Hin.
    destruct (should_cancel st1) eqn:Hcancel; [discriminate Hin |].
    destruct (f' =? 0) eqn:Hf; [| discriminate Hin].
    apply Z.eqb_eq in Hf. inversion Hin; subst.
    destruct (sequential_loop_without_failure E C 0%nat _ _ _ _ _ _ _ _
                Hloop Hcancel eq_refl) as [Hu Hs].
    cbn [at_dispatch uploaded_bytes] in Hu.
    rewrite Htotal, Hu. unfold scanned_total.
    rewrite (sum_sizes_snapshot E _ Hsnap).
    repeat split; lia.
  - exfalso. cbn [record trace] in Hin. rewrite Htr in Hin.
    cbn [at_dispatch trace] in Hin.
    apply in_app_or in Hin. destruct Hin as [Hin | [Hin | []]];
      [exact (Hpre _ _ _ _ Hin) | discriminate Hin].
Qed.

Lemma scenario_one_snapshot tasks : one_snapshot Scenario.healthy tasks.
Proof.
  intros t _. cbn. destruct (Scenario.sizes (fst t)); split; intros H;
    [discriminate | reflexivity | discriminate | congruence].
Qed.

Lemma completed_sequential_session_uploaded_all_witness :
  creates_uploader (Scenario.session ["f1"; "f2"; "f3"]%string 1 0 false)
  /\ fst (adapter_connect Scenario.healthy 0%nat) = true
  /\ uploaded_bytes
       (fst (run Scenario.healthy
               (Scenario.session ["f1"; "f2"; "f3"]%string 1 0 false)
               (init 0)))
     = total_bytes
         (fst (run Scenario.healthy
                 (Scenario.session ["f1"; "f2"; "f3"]%string 1 0 false)
                 (init 0))).
Proof.
  split; [split; reflexivity |]. split; [reflexivity |].
  refine (proj1 (completed_sequential_session_uploaded_all Scenario.healthy
                   (Scenario.session ["f1"; "f2"; "f3"]%string 1 0 false) 0
                   "All 3 files uploaded successfully" 3 0
                   (conj eq_refl eq_refl) eq_refl _
                   (scenario_one_snapshot _) _)).
  - cbn. lia.
  - vm_compute. tauto.
Defined.

(** *** Connections *)


(** The connections on which [connect()] and [disconnect()] were called,
    in the order of the calls. *)
Definition connected (events : list event) : list nat :=
  flat_map (fun e => match e with call_connect u => [u] | _ => [] end) events.

Definition closed (events : list event) : list nat :=
  flat_map (fun e => match e with call_disconnect u => [u] | _ => [] end)
    events.





















(** *** Sessions that end early *)

(** X8.  When the adapter factory refuses the configuration (an unsupported
    protocol, or a key its constructor reads is missing), [run] returns
    normally after one completion signal, [False] with the message
    "Failed to create uploader" and zero counts, as its last event: no
    adapter exists, nothing was connected, closed or attempted. *)
Theorem uncreatable_adapter_ends_the_session E C now :
  ~ creates_uploader C ->
  snd (run E C (init now)) = Ok tt
  /\ adapters (fst (run E C (init now))) = 0%nat
  /\ connected (trace (fst (run E C (init now)))) = []
  /\ closed (trace (fst (run E C (init now)))) = []
  /\ count_attempts (trace (fst (run E C (init now)))) = 0%nat
  /\ exists others,
       trace (fst (run E C (init now)))
       = others
         ++ [all_completed_signal false "Failed to create uploader" 0 0]
       /\ count is_completion others = 0.
Proof.
  intros H. destruct (run_not_created E C now H) as [why Hr].
  rewrite Hr. cbn [fst snd adapters trace].
  repeat split.
  exists [log_signal info (StartingUpload (max_threads C));
          log_signal error why].
  split; reflexivity.
Qed.

Lemma uncreatable_adapter_ends_the_session_witness :
  ~ creates_uploader
      {| uploader_config :=
           {| protocol := "FTP"; required_keys_present := false |};
         files := ["f1"%string];
         remote_dir := EmptyString;
         max_retries := 3;
         ignore_patterns := [];
         max_threads := 4;
         include_hidden_files := false;
         upload_directory_contents_only := false |}
  /\ snd (run Scenario.healthy
            {| uploader_config :=
                 {| protocol := "FTP"; required_keys_present := false |};
               files := ["f1"%string];
               remote_dir := EmptyString;
               max_retries := 3;
               ignore_patterns := [];
               max_threads := 4;
               include_hidden_files := false;
               upload_directory_contents_only := false |}
            (init 0))
     = Ok tt.
Proof.
  assert (H : ~ creates_uploader
                {| uploader_config :=
                     {| protocol := "FTP"; required_keys_present := false |};
                   files := ["f1"%string];
                   remote_dir := EmptyString;
                   max_retries := 3;
                   ignore_patterns := [];
                   max_threads := 4;
                   include_hidden_files := false;
                   upload_directory_contents_only := false |}).
  { intros [_ Hk]. discriminate Hk. }
  split; [exact H |].
  exact (proj1 (uncreatable_adapter_ends_the_session Scenario.healthy _ 0 H)).
Defined.

Lemma upload_files_threaded_returns E C uploader tasks st :
  snd (upload_files_threaded E C uploader tasks st) = Ok tt.
Proof.
  unfold upload_files_threaded, bind.
  destruct (pool_loop_tallied E C tasks (0, 0) st) as [tally' [Hr _]].
  destruct (pool_loop E C tasks (0, 0) st) as [st1 r].
  cbn [snd] in Hr. subst r. rewrite emit_completion_signal_spec. reflexivity.
Qed.


(** An upload that breaks off with an exception after half of the file. *)
Definition breaks : upload_run :=
  {| steps := [Progress 50 1];
     end_time := 2;
     returns := (false, EmptyString);
     raises := Some "connection reset"%string |}.

(** Every connection is accepted and every upload raises. *)
Definition raising : Env :=
  Scenario.env (fun _ => (true, "Connected successfully"%string))
    (fun _ _ _ => breaks).

(** X10.  [run] raises only in a sequential session, and only an exception
    of the adapter; the session then ends without any completion signal,
    although the connection of the session is still closed. *)
Theorem raising_session_reports_no_completion E C now e :
  snd (run E C (init now)) = Raise e ->
  max_threads C <= 1
  /\ (exists message, e = AdapterException message)
  /\ count is_completion (trace (fst (run E C (init now)))) = 0
  /\ exists events,
       trace (fst (run E C (init now))) = events ++ [call_disconnect 0].
Proof.
  intros Hraise.
  assert (Hcr : creates_uploader C).
  { destruct (supported_protocol (protocol (uploader_config C))) eqn:Hp;
      [destruct (required_keys_present (uploader_config C)) eqn:Hk |].
    - split; assumption.
    - exfalso.
      destruct (run_not_created E C now) as [why Hr];
        [unfold creates_uploader; intros [_ H]; congruence |].
      rewrite Hr in Hraise. discriminate Hraise.
    - exfalso.
      destruct (run_not_created E C now) as [why Hr];
        [unfold creates_uploader; intros [H _]; congruence |].
      rewrite Hr in Hraise. discriminate Hraise. }
  destruct (fst (adapter_connect E 0%nat)) eqn:Hc;
    [| rewrite run_connect_failed in Hraise by assumption;
       discriminate Hraise].
  rewrite run_connected in * by assumption. cbn [fst snd] in *.
  unfold dispatch in *. destruct (1 <? max_threads C) eqn:Hthreads.
  - exfalso.
    rewrite upload_files_threaded_returns in Hraise.
    discriminate Hraise.
  - apply Z.ltb_ge in Hthreads. split; [exact Hthreads |].
    pose proof (proj1 (dispatch_evolves E C (scanned_total E C) 0%nat
                         (fst (collect_files E C)) (at_dispatch E C now)))
      as [_ Hz].
    unfold upload_files_sequential, bind in *.
    pose proof (sequential_loop_no_completion E C 0%nat
                  (fst (collect_files E C)) 0%nat 0 0 (at_dispatch E C now))
      as [events [Htr Hnc]].
    destruct (sequential_loop E C 0%nat 0%nat (fst (collect_files E C)) 0 0
                (at_dispatch E C now)) as [st1 [tally | e1]];
      cbn [fst snd] in *.
    + rewrite emit_completion_signal_spec in Hraise. discriminate Hraise.
    + inversion Hraise; subst e1. split.
      * destruct e as [| message]; [exfalso; exact (Hz I) |].
        exists message. reflexivity.
      * split; [| eexists; reflexivity].
        cbn [record trace]. rewrite Htr. cbn [at_dispatch trace].
        rewrite !count_app.
        assert (Hp : count is_completion (prelude E C) = 0).
        { pose proof (prelude_before_dispatch E C) as Hp.
          induction Hp as [| x l Hx _ IH]; [reflexivity |].
          unfold count in *. cbn [filter].
          destruct x; try contradiction; exact IH. }
        assert (He : count is_completion events = 0).
        { clear Htr. induction Hnc as [| x l Hx _ IH]; [reflexivity |].
          unfold count in *. cbn [filter]. rewrite Hx. exact IH. }
        rewrite Hp, He. reflexivity.
Qed.

Lemma raising_session_reports_no_completion_witness :
  snd (run raising (Scenario.session ["f1"; "f2"]%string 1 2 false) (init 0))
  = Raise (AdapterException "connection reset")
  /\ count is_completion
       (trace (fst (run raising
                      (Scenario.session ["f1"; "f2"]%string 1 2 false)
                      (init 0))))
     = 0.
Proof.
  assert (H : snd (run raising
                     (Scenario.session ["f1"; "f2"]%string 1 2 false) (init 0))
              = Raise (AdapterException "connection reset"))
    by (vm_compute; reflexivity).
  split; [exact H |].
  exact (proj1 (proj2 (proj2 (raising_session_reports_no_completion raising
                                (Scenario.session ["f1"; "f2"]%string 1 2 false)
                                0 _ H)))).
Defined.

(** ** Further properties of the file collector *)

(** *** The filter *)









(** *** The selection *)

(** The session [C] with another selection, or another remote layout. *)
Definition with_files (C : config) (roots : list string) : config :=
  {| uploader_config := uploader_config C;
     files := roots;
     remote_dir := remote_dir C;
     max_retries := max_retries C;
     ignore_patterns := ignore_patterns C;
     max_threads := max_threads C;
     include_hidden_files := include_hidden_files C;
     upload_directory_contents_only := upload_directory_contents_only C |}.

Definition with_layout (C : config) (remote : string) (contents_only : bool)
    : config :=
  {| uploader_config := uploader_config C;
     files := files C;
     remote_dir := remote;
     max_retries := max_retries C;
     ignore_patterns := ignore_patterns C;
     max_threads := max_threads C;
     include_hidden_files := include_hidden_files C;
     upload_directory_contents_only := contents_only |}.

Lemma collect_roots_app E C patterns roots1 roots2 :
  collect_roots E C patterns (roots1 ++ roots2)
  = (fst (collect_roots E C patterns roots1)
     ++ fst (collect_roots E C patterns roots2),
     snd (collect_roots E C patterns roots1)
     ++ snd (collect_roots E C patterns roots2)).
Proof.
  induction roots1 as [| r roots1 IH]; cbn [app collect_roots].
  - destruct (collect_roots E C patterns roots2). reflexivity.
  - rewrite IH. destruct (collect_root E C patterns r) as [found logs].
    destruct (collect_roots E C patterns roots1) as [more logs'].
    cbn [fst snd]. rewrite !app_assoc. reflexivity.
Qed.

(** The roots are collected one by one, in the order of the selection, each
    of them as if it were alone. *)
Lemma collect_roots_one_by_one E C patterns roots :
  fst (collect_roots E C patterns roots)
  = flat_map (fun root => fst (collect_root E C patterns root)) roots
  /\ snd (collect_roots E C patterns roots)
     = flat_map (fun root => snd (collect_root E C patterns root)) roots.
Proof.
  induction roots as [| r roots [IH1 IH2]]; cbn [collect_roots flat_map].
  - split; reflexivity.
  - destruct (collect_root E C patterns r) as [found logs].
    destruct (collect_roots E C patterns roots) as [more logs'].
    cbn [fst snd] in *. rewrite IH1, IH2. split; reflexivity.
Qed.

(** X12.  The collector works root by root: the tasks of a selection are
    the tasks of its roots taken alone, concatenated in the order of the
    selection.  What one root yields, or the error it ends in, never
    changes what another root yields, and nothing is deduplicated: a root
    selected twice is collected twice. *)
Theorem collection_follows_the_selection E C roots1 roots2 :
  fst (collect_files E (with_files C (roots1 ++ roots2)))
  = fst (collect_files E (with_files C roots1))
    ++ fst (collect_files E (with_files C roots2)).
Proof.
  unfold collect_files. cbn [with_files ignore_patterns files].
  destruct (compile_patterns E (ignore_patterns C)) as [patterns warnings].
  change (collect_roots E (with_files C (roots1 ++ roots2)) patterns
            (roots1 ++ roots2))
    with (collect_roots E C patterns (roots1 ++ roots2)).
  change (collect_roots E (with_files C roots1) patterns roots1)
    with (collect_roots E C patterns roots1).
  change (collect_roots E (with_files C roots2) patterns roots2)
    with (collect_roots E C patterns roots2).
  rewrite collect_roots_app.
  destruct (collect_roots E C patterns roots1),
    (collect_roots E C patterns roots2).
  reflexivity.
Qed.

(** *** The remote layout *)

(** X13.  When no root of the selection is a directory, the remote
    directory and the layout mode have no effect: every task is a root of
    the selection, sent under its base name alone. *)
Theorem file_roots_are_sent_under_their_base_name E C remote contents_only :
  (forall root t, In root (files C) -> os_stat E root <> Some (Directory t)) ->
  Forall (fun t => In (fst t) (files C)
                   /\ snd t = PosixPath.basename (fst t))
    (fst (collect_files E C))
  /\ collect_files E (with_layout C remote contents_only) = collect_files E C.
Proof.
  intros Hfiles. unfold collect_files.
  cbn [with_layout ignore_patterns files].
  destruct (compile_patterns E (ignore_patterns C)) as [patterns warnings].
  assert (H : forall roots,
            (forall root, In root roots -> In root (files C)) ->
            Forall (fun t => In (fst t) (files C)
                             /\ snd t = PosixPath.basename (fst t))
              (fst (collect_roots E C patterns roots))
            /\ collect_roots E (with_layout C remote contents_only) patterns
                 roots
               = collect_roots E C patterns roots).
  { induction roots as [| r roots IH]; intros Hsub; cbn [collect_roots].
    - split; [constructor | reflexivity].
    - destruct IH as [IH1 IH2]; [intros x Hx; apply Hsub; right; exact Hx |].
      rewrite IH2.
      assert (Hr : Forall (fun t => In (fst t) (files C)
                                    /\ snd t = PosixPath.basename (fst t))
                     (fst (collect_root E C patterns r))
                   /\ collect_root E (with_layout C remote contents_only)
                        patterns r
                      = collect_root E C patterns r).
      { unfold collect_root.
        change (_should_ignore E (with_layout C remote contents_only))
          with (_should_ignore E C).
        pose proof (Hfiles r) as Hnd.
        destruct (os_stat E r) as [[| t] |].
        - split; [| reflexivity].
          destruct (_should_ignore E C (PosixPath.basename r) patterns);
            [constructor |].
          constructor; [| constructor]. cbn [fst snd].
          split; [apply Hsub; left; reflexivity | reflexivity].
        - exfalso. apply (Hnd t); [apply Hsub; left; reflexivity |].
          reflexivity.
        - split; [constructor | reflexivity]. }
      destruct Hr as [Hr1 Hr2]. rewrite Hr2.
      destruct (collect_root E C patterns r) as [found logs].
      destruct (collect_roots E C patterns roots) as [more logs'].
      cbn [fst] in *. split; [| reflexivity].
      apply Forall_app. split; assumption. }
  destruct (H (files C) (fun _ Hx => Hx)) as [H1 H2].
  rewrite H2.
  destruct (collect_roots E C patterns (files C)) as [all_files logs].
  cbn [fst] in *. split; [exact H1 | reflexivity].
Qed.

Lemma scenario_file_roots root t :
  In root ["f1"; "f2"]%string ->
  os_stat Scenario.healthy root <> Some (Directory t).
Proof.
  intros [<- | [<- | []]]; discriminate.
Qed.

Lemma file_roots_are_sent_under_their_base_name_witness :
  collect_files Scenario.healthy
    (with_layout (Scenario.session ["f1"; "f2"]%string 1 0 false) "/srv/in"
       true)
  = collect_files Scenario.healthy
      (Scenario.session ["f1"; "f2"]%string 1 0 false).
Proof.
  exact (proj2 (file_roots_are_sent_under_their_base_name Scenario.healthy
                  (Scenario.session ["f1"; "f2"]%string 1 0 false) "/srv/in"
                  true scenario_file_roots)).
Defined.

Lemma relpath_with_cwd d path start :
  PosixPath.relpath (Some d) path start <> None.
Proof.
  unfold PosixPath.relpath, PosixPath.abspath.
  destruct (PosixPath.isabs start), (PosixPath.isabs path);
    match goal with
    | |- context [match ?l with [] => _ | _ :: _ => _ end] => destruct l
    end; discriminate.
Qed.

Lemma remote_path_of_with_cwd E C d file_path local_file_path :
  os_getcwd E = Some d ->
  remote_path_of E C file_path local_file_path <> None.
Proof.
  intros Hd. unfold remote_path_of. rewrite Hd.
  match goal with
  | |- context [PosixPath.relpath (Some d) ?p ?s] =>
      pose proof (relpath_with_cwd d p s) as H;
      destruct (PosixPath.relpath (Some d) p s); [discriminate | contradiction]
  end.
Qed.

(** With a working directory, the files of a directory are collected
    without an error, and they are the files the filter lets through. *)
Lemma collect_dir_files_locals E C d patterns file_path root names :
  os_getcwd E = Some d ->
  map fst (fst (collect_dir_files E C patterns file_path root names))
  = map (PosixPath.join root)
      (filter (fun file => negb (_should_ignore E C file patterns)) names)
  /\ snd (collect_dir_files E C patterns file_path root names) = false.
Proof.
  intros Hd. induction names as [| file rest [IH1 IH2]];
    cbn [collect_dir_files filter].
  - split; reflexivity.
  - destruct (_should_ignore E C file patterns); cbn [negb];
      [split; assumption |].
    pose proof (remote_path_of_with_cwd E C d file_path
                  (PosixPath.join root file) Hd) as Hr.
    destruct (remote_path_of E C file_path (PosixPath.join root file));
      [| contradiction].
    destruct (collect_dir_files E C patterns file_path root rest)
      as [more raised].
    cbn [fst snd map] in *. rewrite IH1. split; [reflexivity | exact IH2].
Qed.

Lemma walk_locals E C remote contents_only d patterns file_path
    (t : dirtree) :
  os_getcwd E = Some d ->
  forall root,
    map fst (fst (walk E (with_layout C remote contents_only) patterns
                    file_path root t))
    = map fst (fst (walk E C patterns file_path root t))
    /\ snd (walk E (with_layout C remote contents_only) patterns file_path
              root t) = false
    /\ snd (walk E C patterns file_path root t) = false
with walk_dirs_locals E C remote contents_only d patterns file_path
    (dirs : subdirs) :
  os_getcwd E = Some d ->
  forall root,
    map fst (fst (walk_dirs E (with_layout C remote contents_only) patterns
                    file_path root dirs))
    = map fst (fst (walk_dirs E C patterns file_path root dirs))
    /\ snd (walk_dirs E (with_layout C remote contents_only) patterns
              file_path root dirs) = false
    /\ snd (walk_dirs E C patterns file_path root dirs) = false.
Proof.
  - intros Hd root. destruct t as [names dirs]. rewrite !walk_unfold.
    destruct (collect_dir_files_locals E (with_layout C remote contents_only)
                d patterns file_path root names Hd) as [Ha1 Ha2].
    destruct (collect_dir_files_locals E C d patterns file_path root names Hd)
      as [Hb1 Hb2].
    change (_should_ignore E (with_layout C remote contents_only))
      with (_should_ignore E C) in Ha1.
    destruct (collect_dir_files E (with_layout C remote contents_only)
                patterns file_path root names) as [found1 raised1].
    destruct (collect_dir_files E C patterns file_path root names)
      as [found2 raised2].
    cbn [fst snd] in *. subst raised1 raised2.
    destruct (walk_dirs_locals E C remote contents_only d patterns file_path
                dirs Hd root) as [Hd1 [Hd2 Hd3]].
    destruct (walk_dirs E (with_layout C remote contents_only) patterns
                file_path root dirs) as [below1 r1].
    destruct (walk_dirs E C patterns file_path root dirs) as [below2 r2].
    cbn [fst snd] in *. rewrite !map_app.
    split; [| split; assumption].
    f_equal; [exact (eq_trans Ha1 (eq_sym Hb1)) | exact Hd1].
  - intros Hd root. destruct dirs as [| name t rest].
    + repeat split.
    + rewrite !walk_dirs_unfold.
      change (_should_ignore E (with_layout C remote contents_only))
        with (_should_ignore E C).
      destruct (_should_ignore E C name patterns).
      * exact (walk_dirs_locals E C remote contents_only d patterns file_path
                 rest Hd root).
      * destruct (walk_locals E C remote contents_only d patterns file_path t
                    Hd (PosixPath.join root name)) as [Hw1 [Hw2 Hw3]].
        destruct (walk E (with_layout C remote contents_only) patterns
                    file_path (PosixPath.join root name) t) as [found1 r1].
        destruct (walk E C patterns file_path (PosixPath.join root name) t)
          as [found2 r2].
        cbn [fst snd] in *. subst r1 r2.
        destruct (walk_dirs_locals E C remote contents_only d patterns
                    file_path rest Hd root) as [Hd1 [Hd2 Hd3]].
        destruct (walk_dirs E (with_layout C remote contents_only) patterns
                    file_path root rest) as [more1 q1].
        destruct (walk_dirs E C patterns file_path root rest) as [more2 q2].
        cbn [fst snd] in *. rewrite !map_app.
        split; [| split; assumption].
        f_equal; [exact Hw1 | exact Hd1].
Qed.

(** X14.  As long as the working directory can be read, the remote
    directory and the layout mode decide under which remote paths the files
    are sent, never which local files are sent: both modes collect the
    same local files in the same order, and log the same lines. *)
Theorem layout_keeps_the_local_files E C remote contents_only d :
  os_getcwd E = Some d ->
  map fst (fst (collect_files E (with_layout C remote contents_only)))
  = map fst (fst (collect_files E C))
  /\ snd (collect_files E (with_layout C remote contents_only))
     = snd (collect_files E C).
Proof.
  intros Hd. unfold collect_files. cbn [with_layout ignore_patterns files].
  destruct (compile_patterns E (ignore_patterns C)) as [patterns warnings].
  assert (H : forall roots,
            map fst (fst (collect_roots E (with_layout C remote contents_only)
                            patterns roots))
            = map fst (fst (collect_roots E C patterns roots))
            /\ snd (collect_roots E (with_layout C remote contents_only)
                      patterns roots)
               = snd (collect_roots E C patterns roots)).
  { induction roots as [| r roots [IH1 IH2]]; cbn [collect_roots].
    - split; reflexivity.
    - assert (Hr : map fst (fst (collect_root E
                                   (with_layout C remote contents_only)
                                   patterns r))
                   = map fst (fst (collect_root E C patterns r))
                   /\ snd (collect_root E (with_layout C remote contents_only)
                             patterns r)
                      = snd (collect_root E C patterns r)).
      { unfold collect_root.
        change (_should_ignore E (with_layout C remote contents_only))
          with (_should_ignore E C).
        destruct (os_stat E r) as [[| t] |]; [split; reflexivity | |
          split; reflexivity].
        destruct (_should_ignore E C (PosixPath.basename r) patterns);
          [split; reflexivity |].
        destruct (walk_locals E C remote contents_only d patterns r t Hd r)
          as [Hw1 [Hw2 Hw3]].
        destruct (walk E (with_layout C remote contents_only) patterns r r t)
          as [found1 r1].
        destruct (walk E C patterns r r t) as [found2 r2].
        cbn [fst snd] in *. subst r1 r2. split; [exact Hw1 | reflexivity]. }
      destruct Hr as [Hr1 Hr2].
      destruct (collect_root E (with_layout C remote contents_only) patterns r)
        as [found1 logs1].
      destruct (collect_root E C patterns r) as [found2 logs2].
      destruct (collect_roots E (with_layout C remote contents_only) patterns
                  roots) as [more1 l1].
      destruct (collect_roots E C patterns roots) as [more2 l2].
      cbn [fst snd] in *. rewrite !map_app.
      split; [f_equal; assumption | f_equal; assumption]. }
  destruct (H (files C)) as [H1 H2].
  destruct (collect_roots E (with_layout C remote contents_only) patterns
              (files C)) as [all1 logs1].
  destruct (collect_roots E C patterns (files C)) as [all2 logs2].
  cbn [fst snd] in *. split; [exact H1 | f_equal; exact H2].
Qed.

Lemma layout_keeps_the_local_files_witness :
  os_getcwd Scenario.healthy = Some "/home/u"%string
  /\ map fst
       (fst (collect_files Scenario.healthy
               (with_layout (Scenario.session ["root"; "f1"]%string 1 0 false)
                  "/srv/in" true)))
     = map fst
         (fst (collect_files Scenario.healthy
                 (Scenario.session ["root"; "f1"]%string 1 0 false))).
Proof.
  split; [reflexivity |].
  exact (proj1 (layout_keeps_the_local_files Scenario.healthy
                  (Scenario.session ["root"; "f1"]%string 1 0 false) "/srv/in"
                  true "/home/u" eq_refl)).
Defined.

(** *** Patterns that cannot be used *)







(** *** Pausing *)

(** The environment [E] with another course of pauses. *)
Definition with_pause (E : Env) (polls : nat -> nat * bool) : Env :=
  {| regex := regex E;
     os_stat := os_stat E;
     os_getcwd := os_getcwd E;
     os_path_exists := os_path_exists E;
     os_path_getsize := os_path_getsize E;
     adapter_connect := adapter_connect E;
     adapter_upload_file := adapter_upload_file E;
     pause_polls := polls |}.

(** X30.  A session with more than one thread never looks at the pause
    flag: whatever the interface does with [pause()] and [resume()], and
    however long it keeps the session paused, the session runs as if it
    had never been paused.  Only the sequential loop waits. *)
Theorem threaded_session_ignores_pause E C polls st :
  1 < max_threads C ->
  run (with_pause E polls) C st = run E C st.
Proof.
  intros H. apply Z.ltb_lt in H. unfold run. rewrite H. reflexivity.
Qed.

Lemma threaded_session_ignores_pause_witness :
  run (with_pause Scenario.healthy (fun _ => (50%nat, true)))
    (Scenario.session ["f1"; "f2"]%string 2 0 false) (init 0)
  = run Scenario.healthy (Scenario.session ["f1"; "f2"]%string 2 0 false)
      (init 0).
Proof.
  exact (threaded_session_ignores_pause Scenario.healthy
           (Scenario.session ["f1"; "f2"]%string 2 0 false)
           (fun _ => (50%nat, true)) (init 0) eq_refl).
Defined.

End WorkerSpec.

(** ** The progress callbacks of the adapters *)

Module AdapterSpec.
Import Base BaseSpec Adapter.

(** The chunks the throttle sees when every call is passed on to it. *)
Definition chunks_of (calls : list call) : list (Z * Q) :=
  map (fun c => (amount c, at_time c)) calls.

(** The values of [uploaded] after each call, from [uploaded] on. *)
Fixpoint running (uploaded : Z) (calls : list call) : list Z :=
  match calls with
  | [] => []
  | c :: rest => (uploaded + amount c) :: running (uploaded + amount c) rest
  end.

Definition total_amount (calls : list call) : Z :=
  fold_right (fun c acc => amount c + acc) 0 calls.

Lemma percent_of_nonzero uploaded file_size :
  file_size <> 0 ->
  percent_of uploaded file_size
  = Some (inject_Z uploaded / inject_Z file_size * 100)%Q.
Proof.
  intros H. unfold percent_of, Py.truediv.
  destruct (Qeq_bool (inject_Z file_size) 0) eqn:Hq; [| reflexivity].
  apply Qeq_bool_eq in Hq. exfalso. apply H.
  unfold Qeq in Hq. cbn in Hq. lia.
Qed.

Lemma percent_of_zero uploaded : percent_of uploaded 0 = None.
Proof. reflexivity. Qed.

Lemma ftp_callback_live file_size self uploaded c :
  file_size <> 0 ->
  cancel_set c = false ->
  ftp_callback file_size self uploaded c
  = (fst (_throttle_bandwidth self (amount c) (at_time c)),
     uploaded + amount c,
     Reported (snd (_throttle_bandwidth self (amount c) (at_time c)))
       (inject_Z (uploaded + amount c) / inject_Z file_size * 100)%Q).
Proof.
  intros Hsize Hc. unfold ftp_callback. rewrite Hc.
  destruct (_throttle_bandwidth self (amount c) (at_time c)) as [self1 delay].
  rewrite (percent_of_nonzero _ _ Hsize). reflexivity.
Qed.

(** X18.  The FTP callback passes every block on to the throttle and reports
    the running total: over a transfer in which the cancel flag is never
    set, for a declared size other than 0, the sleeps are those of
    [deliver] on the blocks, the adapter ends in the state [deliver] ends
    in, [uploaded] ends at the sum of the blocks, and the percentages are
    the running totals over the declared size. *)
Theorem ftp_callback_feeds_the_throttle file_size self uploaded calls :
  file_size <> 0 ->
  Forall (fun c => cancel_set c = false) calls ->
  finished (transfer (ftp_callback file_size) self uploaded calls) = true
  /\ final_self (transfer (ftp_callback file_size) self uploaded calls)
     = fst (deliver self (chunks_of calls))
  /\ delays (steps_made (transfer (ftp_callback file_size) self uploaded calls))
     = snd (deliver self (chunks_of calls))
  /\ final_uploaded (transfer (ftp_callback file_size) self uploaded calls)
     = uploaded + total_amount calls
  /\ percents
       (steps_made (transfer (ftp_callback file_size) self uploaded calls))
     = map (fun u => (inject_Z u / inject_Z file_size * 100)%Q)
         (running uploaded calls).
Proof.
  intros Hsize Hall. revert self uploaded.
  induction Hall as [| c calls Hc _ IH]; intros self uploaded.
  - cbn. repeat split. lia.
  - cbn [transfer chunks_of map deliver running total_amount fold_right].
    rewrite (ftp_callback_live _ _ _ _ Hsize Hc).
    destruct (_throttle_bandwidth self (amount c) (at_time c))
      as [self1 delay].
    cbn [fst snd].
    destruct (IH self1 (uploaded + amount c)) as [H1 [H2 [H3 [H4 H5]]]].
    fold (chunks_of calls). fold (total_amount calls).
    destruct (deliver self1 (chunks_of calls)) as [self2 ds].
    cbn [finished final_self steps_made final_uploaded delays percents fst
         snd map] in *.
    rewrite H1, H2, H3, H4, H5. repeat split. lia.
Qed.

Lemma ftp_callback_feeds_the_throttle_witness :
  (8192 + 1808 : Z) <> 0
  /\ percents
       (steps_made
          (transfer (ftp_callback (8192 + 1808)) (Base.init 0 0) 0
             [mkCall false 8192 1; mkCall false 1808 2]))
     = map (fun u => (inject_Z u / inject_Z (8192 + 1808) * 100)%Q)
         (running 0 [mkCall false 8192 1; mkCall false 1808 2]).
Proof.
  assert (H : (8192 + 1808 : Z) <> 0) by discriminate.
  split; [exact H |].
  refine (proj2 (proj2 (proj2 (proj2
            (ftp_callback_feeds_the_throttle (8192 + 1808) (Base.init 0 0) 0
               [mkCall false 8192 1; mkCall false 1808 2] H _))))).
  repeat constructor.
Defined.

(** *** Adapters that leave the throttle idle *)

Lemma throttle_of_nothing self t :
  fst (_throttle_bandwidth self 0 t) = self
  /\ (bytes_transferred self = 0 ->
      (last_byte_time self <= t)%Q ->
      snd (_throttle_bandwidth self 0 t) = None).
Proof.
  destruct (Z_le_gt_dec (bandwidth_limit self) 0) as [Hle | Hgt].
  - rewrite throttle_unlimited by exact Hle. split; reflexivity.
  - assert (H : 0 < bandwidth_limit self) by lia.
    destruct (throttle_limited self 0 t H) as [Hst _]. split.
    + rewrite Hst, Z.add_0_r. destruct self; reflexivity.
    + intros Hb Ht. apply on_time_is_not_delayed; [exact H |].
      rewrite Hb. cbn [Z.add].
      apply Qle_trans with 0%Q.
      * unfold Qdiv. rewrite Qmult_0_l. apply Qle_refl.
      * rewrite <- (Qplus_opp_r (last_byte_time self)).
        unfold Qminus. apply Qplus_le_compat; [exact Ht | apply Qle_refl].
Qed.

Lemma sftp_progress_step total self uploaded c :
  fst (fst (sftp_progress total self uploaded c)) = self
  /\ (bytes_transferred self = 0 ->
      (last_byte_time self <= at_time c)%Q ->
      delays [snd (sftp_progress total self uploaded c)]
      = match snd (sftp_progress total self uploaded c) with
        | Skipped => []
        | _ => [None]
        end).
Proof.
  unfold sftp_progress. destruct (cancel_set c); [split; reflexivity |].
  rewrite Z.sub_diag.
  destruct (throttle_of_nothing self (at_time c)) as [Hst Hd].
  destruct (_throttle_bandwidth self 0 (at_time c)) as [self1 delay].
  cbn [fst snd] in *. subst self1.
  destruct (percent_of (amount c) total); cbn [fst snd delays].
  - split; [reflexivity |]. intros Hb Ht. rewrite (Hd Hb Ht). reflexivity.
  - split; [reflexivity |]. intros Hb Ht. rewrite (Hd Hb Ht). reflexivity.
Qed.

(** X19.  The SFTP tracker never feeds the throttle: it assigns
    [self.uploaded = transferred] before it passes
    [transferred - self.uploaded] on, so the throttle is called with 0
    bytes.  Whatever the cap, the adapter is left as it was, and, as long
    as the clock does not run behind the construction of the adapter, no
    call is ever delayed.  The S3 callback does not call the throttle at
    all. *)
Theorem sftp_and_s3_are_never_throttled total self uploaded calls :
  bytes_transferred self = 0 ->
  Forall (fun c => (last_byte_time self <= at_time c)%Q) calls ->
  final_self (transfer (sftp_progress total) self uploaded calls) = self
  /\ Forall (fun delay => delay = None)
       (delays (steps_made (transfer (sftp_progress total) self uploaded
                              calls)))
  /\ final_self (transfer (s3_callback total) self uploaded calls) = self
  /\ Forall (fun delay => delay = None)
       (delays (steps_made (transfer (s3_callback total) self uploaded
                              calls))).
Proof.
  intros Hb Hclock. split; [| split; [| split]].
  - clear Hb Hclock. revert uploaded.
    induction calls as [| c calls IH]; intros uploaded; [reflexivity |].
    cbn [transfer].
    destruct (sftp_progress_step total self uploaded c) as [Hst _].
    destruct (sftp_progress total self uploaded c) as [[self1 u1] s].
    cbn [fst] in Hst. subst self1.
    destruct s; cbn [final_self]; try apply IH. reflexivity.
  - revert uploaded.
    induction Hclock as [| c calls Hc _ IH]; intros uploaded;
      [constructor |].
    cbn [transfer].
    destruct (sftp_progress_step total self uploaded c) as [Hst Hd].
    specialize (Hd Hb Hc).
    destruct (sftp_progress total self uploaded c) as [[self1 u1] s].
    cbn [fst snd] in *. subst self1.
    destruct s as [| d p | d]; cbn [steps_made delays] in *.
    + apply IH.
    + inversion Hd; subst d. constructor; [reflexivity | apply IH].
    + inversion Hd; subst d. constructor; [reflexivity | constructor].
  - clear Hb Hclock. revert uploaded.
    induction calls as [| c calls IH]; intros uploaded; [reflexivity |].
    cbn [transfer]. unfold s3_callback at 1.
    destruct (percent_of (uploaded + amount c) total);
      cbn [final_self]; [apply IH | reflexivity].
  - clear Hb Hclock. revert uploaded.
    induction calls as [| c calls IH]; intros uploaded; [constructor |].
    cbn [transfer]. unfold s3_callback at 1.
    destruct (percent_of (uploaded + amount c) total);
      cbn [steps_made delays].
    + constructor; [reflexivity | apply IH].
    + constructor; [reflexivity | constructor].
Qed.

Lemma sftp_and_s3_are_never_throttled_witness :
  bytes_transferred (Base.init 1 0) = 0
  /\ Forall (fun delay => delay = None)
       (delays
          (steps_made
             (transfer (sftp_progress 65536) (Base.init 1 0) 0
                [mkCall false 32768 (1 # 100); mkCall false 65536 (2 # 100)]))).
Proof.
  split; [reflexivity |].
  refine (proj1 (proj2
            (sftp_and_s3_are_never_throttled 65536 (Base.init 1 0) 0
               [mkCall false 32768 (1 # 100); mkCall false 65536 (2 # 100)]
               eq_refl _))).
  repeat constructor; discriminate.
Defined.

(** *** A declared size of zero *)

(** X20.  With a declared size of 0, the first call the library makes with
    the cancel flag down ends the transfer in [ZeroDivisionError], in all
    three adapters, before any percentage is reported; [upload_file]
    then answers [False].  A transfer in which the library makes no call
    runs to its end and reports nothing. *)
Theorem zero_size_fails_at_the_first_call self uploaded c rest
    (callback : Z -> BaseUploader -> Z -> call -> BaseUploader * Z * step) :
  In callback [ftp_callback; sftp_progress; s3_callback] ->
  cancel_set c = false ->
  finished (transfer (callback 0) self uploaded (c :: rest)) = false
  /\ percents (steps_made (transfer (callback 0) self uploaded (c :: rest)))
     = []
  /\ finished (transfer (callback 0) self uploaded []) = true
  /\ steps_made (transfer (callback 0) self uploaded []) = [].
Proof.
  intros Hcb Hc. split; [| split; [| split; reflexivity]].
  - cbn [transfer].
    destruct Hcb as [<- | [<- | [<- | []]]];
      unfold ftp_callback, sftp_progress, s3_callback;
      rewrite ?Hc, percent_of_zero;
      try destruct (_throttle_bandwidth _ _ _); reflexivity.
  - cbn [transfer].
    destruct Hcb as [<- | [<- | [<- | []]]];
      unfold ftp_callback, sftp_progress, s3_callback;
      rewrite ?Hc, percent_of_zero;
      try destruct (_throttle_bandwidth _ _ _); reflexivity.
Qed.

Lemma zero_size_fails_at_the_first_call_witness :
  finished (transfer (s3_callback 0) (Base.init 0 0) 0 [mkCall false 0 1])
  = false.
Proof.
  exact (proj1 (zero_size_fails_at_the_first_call (Base.init 0 0) 0
                  (mkCall false 0 1) [] s3_callback
                  (or_intror (or_intror (or_introl eq_refl))) eq_refl)).
Defined.

(** *** The cancel flag of the adapter *)

(** X21.  The cancel flag of an FTP or SFTP adapter silences the callback
    and nothing else: a call made while it is set changes neither the
    adapter nor [uploaded], is not throttled and reports nothing, and the
    transfer goes on to its end.  What was sent while the flag was set is
    never counted afterwards, so the FTP percentages stay below what was
    sent. *)
Theorem adapter_cancel_flag_only_silences file_size self uploaded calls
    (callback : Z -> BaseUploader -> Z -> call -> BaseUploader * Z * step) :
  In callback [ftp_callback; sftp_progress] ->
  Forall (fun c => cancel_set c = true) calls ->
  transfer (callback file_size) self uploaded calls
  = mkTransferred self uploaded (repeat Skipped (List.length calls)) true.
Proof.
  intros Hcb Hall.
  induction Hall as [| c calls Hc _ IH]; [reflexivity |].
  cbn [transfer List.length repeat].
  assert (Hstep : callback file_size self uploaded c
                  = (self, uploaded, Skipped)).
  { destruct Hcb as [<- | [<- | []]];
      unfold ftp_callback, sftp_progress; rewrite Hc; reflexivity. }
  rewrite Hstep, IH. reflexivity.
Qed.

Lemma adapter_cancel_flag_only_silences_witness :
  transfer (ftp_callback 16384) (Base.init 1 0) 0
    [mkCall true 8192 1; mkCall true 8192 2]
  = mkTransferred (Base.init 1 0) 0 [Skipped; Skipped] true.
Proof.
  refine (adapter_cancel_flag_only_silences 16384 (Base.init 1 0) 0
            [mkCall true 8192 1; mkCall true 8192 2] ftp_callback
            (or_introl eq_refl) _).
  repeat constructor.
Defined.

End AdapterSpec.

(** ** Remote directories *)

Module RemoteSpec.
Import Remote.

(** The directories a call walks through: one per non-empty component, each
    under the one before, from the root of the server. *)
Fixpoint targets (current_path : string) (path_parts : list string)
    : list string :=
  match path_parts with
  | [] => []
  | part :: rest =>
      if String.eqb part EmptyString then targets current_path rest
      else
        (current_path ++ "/" ++ part)%string
        :: targets (current_path ++ "/" ++ part)%string rest
  end.




(** Nothing that existed is gone, and the answers of the server are as
    they were. *)
Definition grown (s s' : server) : Prop :=
  (forall path, has_dir s path = true -> has_dir s' path = true)
  /\ may_create s' = may_create s
  /\ refusal s' = refusal s.

Lemma grown_refl s : grown s s.
Proof. repeat split. auto. Qed.

Lemma grown_trans a b c : grown a b -> grown b c -> grown a c.
Proof.
  intros [H1 [M1 R1]] [H2 [M2 R2]]. repeat split; [auto | congruence ..].
Qed.

Lemma grown_enter s path : grown s (enter s path).
Proof. repeat split. auto. Qed.

Lemma grown_add_dir s path : grown s (add_dir s path).
Proof.
  repeat split. intros p H. unfold has_dir, add_dir in *. cbn.
  rewrite H. apply orb_true_r.
Qed.

Lemma has_dir_add_dir s path : has_dir (add_dir s path) path = true.
Proof. unfold has_dir, add_dir. cbn. rewrite String.eqb_refl. reflexivity. Qed.

Lemma last_of_cons (x : string) l d d' : last (x :: l) d = last (x :: l) d'.
Proof.
  revert x. induction l as [| y l IH]; intros x; [reflexivity |].
  change (last (y :: l) d = last (y :: l) d'). apply IH.
Qed.

(** The FTP loop: what it leaves on the server. *)
Lemma ftp_make_parts_spec path_parts :
  forall s current_path,
    let out := ftp_make_parts s current_path path_parts in
    grown s (fst (fst out))
    /\ match snd out with
       | None =>
           Forall (fun path => has_dir (fst (fst out)) path = true)
             (targets current_path path_parts)
           /\ cwd (fst (fst out))
              = last (targets current_path path_parts) (cwd s)
       | Some e =>
           exists path,
             In path (targets current_path path_parts)
             /\ may_create s path = false
             /\ e = refusal s path
       end.
Proof.
  induction path_parts as [| part rest IH]; intros s current_path;
    cbn [ftp_make_parts targets].
  - cbn. split; [apply grown_refl |]. split; [constructor | reflexivity].
  - destruct (String.eqb part EmptyString); [apply IH |].
    set (p := (current_path ++ "/" ++ part)%string).
    destruct (has_dir s p) eqn:Hd.
    + specialize (IH (enter s p) p). cbv zeta in IH.
      destruct (ftp_make_parts (enter s p) p rest) as [[s' requests] raised].
      cbn [fst snd] in *. destruct IH as [Hg Hr].
      split; [exact (grown_trans _ _ _ (grown_enter s p) Hg) |].
      destruct raised as [e |].
      * destruct Hr as [path [Hin [Hm He]]].
        exists path. split; [right; exact Hin |]. split; assumption.
      * destruct Hr as [Hall Hcwd]. split.
        -- constructor; [| exact Hall]. apply Hg. exact Hd.
        -- rewrite Hcwd. cbn [enter cwd].
           destruct (targets p rest) as [| t l]; [reflexivity |].
           change (last (p :: t :: l) (cwd s)) with (last (t :: l) (cwd s)).
           apply last_of_cons.
    + destruct (may_create s p) eqn:Hm.
      * specialize (IH (enter (add_dir s p) p) p). cbv zeta in IH.
        destruct (ftp_make_parts (enter (add_dir s p) p) p rest)
          as [[s' requests] raised].
        cbn [fst snd] in *. destruct IH as [Hg Hr].
        assert (Hg0 : grown s (enter (add_dir s p) p)).
        { exact (grown_trans _ _ _ (grown_add_dir s p) (grown_enter _ p)). }
        split; [exact (grown_trans _ _ _ Hg0 Hg) |].
        destruct raised as [e |].
        -- destruct Hr as [path [Hin [Hm' He]]].
           exists path. split; [right; exact Hin |]. split; assumption.
        -- destruct Hr as [Hall Hcwd]. split.
           ++ constructor; [| exact Hall]. apply Hg.
              exact (has_dir_add_dir s p).
           ++ rewrite Hcwd. cbn [enter cwd].
              destruct (targets p rest) as [| t l]; [reflexivity |].
              change (last (p :: t :: l) (cwd s))
                with (last (t :: l) (cwd s)).
              apply last_of_cons.
      * cbn [fst snd]. split; [apply grown_refl |].
        exists p. split; [left; reflexivity |]. split; [exact Hm | reflexivity].
Qed.




(** On a server that holds every directory of the path, the FTP loop only
    changes directory. *)
Lemma ftp_make_parts_existing path_parts :
  forall s current_path,
    Forall (fun path => has_dir s path = true)
      (targets current_path path_parts) ->
    dirs (fst (fst (ftp_make_parts s current_path path_parts))) = dirs s
    /\ snd (fst (ftp_make_parts s current_path path_parts))
       = map CWD (targets current_path path_parts)
    /\ snd (ftp_make_parts s current_path path_parts) = None.
Proof.
  induction path_parts as [| part rest IH]; intros s current_path Hall;
    cbn [ftp_make_parts targets] in *.
  - repeat split.
  - destruct (String.eqb part EmptyString); [apply IH; exact Hall |].
    apply Forall_cons_iff in Hall. destruct Hall as [Hp Hrest]. rewrite Hp.
    specialize (IH (enter s (current_path ++ "/" ++ part)%string)
                  (current_path ++ "/" ++ part)%string Hrest).
    destruct (ftp_make_parts _ _ rest) as [[s' requests] raised].
    cbn [fst snd map] in *. destruct IH as [H1 [H2 H3]].
    rewrite H1, H2, H3. repeat split.
Qed.

(** X24.  [create_remote_directory] can be repeated: after a call that
    answered [True], a second call for the same path answers [True] again,
    creates nothing, and asks the server only to change directory, once
    per component. *)
Theorem create_remote_directory_can_be_repeated s remote_path :
  fst (snd (ftp_create_remote_directory true s remote_path)) = true ->
  dirs (fst (fst (ftp_create_remote_directory true
                    (fst (fst (ftp_create_remote_directory true s
                                 remote_path)))
                    remote_path)))
  = dirs (fst (fst (ftp_create_remote_directory true s remote_path)))
  /\ snd (fst (ftp_create_remote_directory true
                 (fst (fst (ftp_create_remote_directory true s remote_path)))
                 remote_path))
     = map CWD (targets EmptyString (PosixPath.split remote_path))
  /\ snd (ftp_create_remote_directory true
            (fst (fst (ftp_create_remote_directory true s remote_path)))
            remote_path)
     = (true, "Directory created successfully"%string).
Proof.
  unfold ftp_create_remote_directory. cbn [negb].
  pose proof (ftp_make_parts_spec (PosixPath.split remote_path) s EmptyString)
    as H.
  cbv zeta in H.
  destruct (ftp_make_parts s EmptyString (PosixPath.split remote_path))
    as [[s1 requests1] raised1].
  cbn [fst snd] in *. destruct H as [_ Hr].
  destruct raised1 as [e |]; cbn [answer fst]; [discriminate |].
  intros _. destruct Hr as [Hall _].
  destruct (ftp_make_parts_existing (PosixPath.split remote_path) s1
              EmptyString Hall) as [H1 [H2 H3]].
  destruct (ftp_make_parts s1 EmptyString (PosixPath.split remote_path))
    as [[s2 requests2] raised2].
  cbn [fst snd] in *. subst raised2. repeat split; assumption.
Qed.

(** An empty server that allows everything. *)
Definition empty_server : server :=
  mkServer [] (fun _ => true) (fun _ => EmptyString) "/".

Lemma create_remote_directory_can_be_repeated_witness :
  fst (snd (ftp_create_remote_directory true empty_server "in/2024")) = true
  /\ snd (fst (ftp_create_remote_directory true
                 (fst (fst (ftp_create_remote_directory true empty_server
                              "in/2024")))
                 "in/2024"))
     = map CWD (targets EmptyString (PosixPath.split "in/2024")).
Proof.
  split; [reflexivity |].
  exact (proj1 (proj2 (create_remote_directory_can_be_repeated empty_server
                         "in/2024" eq_refl))).
Defined.

End RemoteSpec.

(** ** The window *)

Module UISpec.
Import Worker UI.

(** *** The selection *)

(** The text of the item of a path. *)
Definition item_of (info : string -> string) (file_path : string) : string :=
  (file_path ++ info file_path)%string.

(** The list shows the selection, item by item. *)
Definition aligned (info : string -> string) (w : window) : Prop :=
  file_list w = map (item_of info) (selected_files w).





(** *** Removing an item *)

Lemma prefix_of_item info file_path :
  String.prefix file_path (item_of info file_path) = true.
Proof.
  unfold item_of. generalize (info file_path) as suffix. intros suffix.
  induction file_path as [| c r IH]; [destruct suffix; reflexivity |].
  cbn. destruct (ascii_dec c c); [exact IH | congruence].
Qed.

Lemma take_item_map info before q after :
  take_item (List.length before) (map (item_of info) (before ++ q :: after))
  = map (item_of info) (before ++ after).
Proof.
  induction before as [| b before IH]; cbn; [reflexivity |].
  rewrite IH. reflexivity.
Qed.

Lemma nth_error_item info before q after :
  nth_error (map (item_of info) (before ++ q :: after)) (List.length before)
  = Some (item_of info q).
Proof.
  induction before as [| b before IH]; cbn; [reflexivity | exact IH].
Qed.

(** The path the loop picks and removes: the first of the selection with
    which the text of the item starts. *)
Lemma first_prefix_is_removed before p rest text :
  Forall (fun p' => String.prefix p' text = false) before ->
  String.prefix p text = true ->
  find (fun path => String.prefix path text) (before ++ p :: rest) = Some p
  /\ list_remove p (before ++ p :: rest) = before ++ rest.
Proof.
  intros Hb Hp. induction Hb as [| b before Hbp _ [IH1 IH2]]; cbn.
  - rewrite Hp, String.eqb_refl. split; reflexivity.
  - rewrite Hbp, IH1.
    destruct (String.eqb p b) eqn:He.
    + apply String.eqb_eq in He. subst b. congruence.
    + rewrite IH2. split; reflexivity.
Qed.

(** X26.  Removing the item of a selected path removes that path from the
    selection, and the list keeps showing the selection item by item, as
    long as no path selected before it is a prefix of the text of the
    item. *)
Theorem remove_selected_item_removes_its_path info w before q after :
  aligned info w ->
  selected_files w = before ++ q :: after ->
  q <> EmptyString ->
  Forall (fun p => String.prefix p (item_of info q) = false) before ->
  selected_files (remove_selected_item w (List.length before))
  = before ++ after
  /\ aligned info (remove_selected_item w (List.length before)).
Proof.
  intros Hal Hsel Hq Hb. unfold remove_selected_item, original_path_of.
  rewrite Hal, Hsel, nth_error_item. cbv beta iota zeta.
  destruct (first_prefix_is_removed before q after (item_of info q) Hb
              (prefix_of_item info q)) as [Hf Hr].
  unfold aligned in Hal. rewrite Hf, Hr, Hal, Hsel, take_item_map.
  destruct q as [| c r]; [contradiction |].
  cbn [selected_files]. split; [reflexivity |].
  unfold aligned. reflexivity.
Qed.

Lemma remove_selected_item_removes_its_path_witness :
  selected_files
    (remove_selected_item
       (mkWindow ["/data/a"; "/data/b"]%string
          ["/data/a (dir)"; "/data/b (dir)"]%string) 1)
  = ["/data/a"%string].
Proof.
  refine (proj1 (remove_selected_item_removes_its_path
                   (fun _ => " (dir)"%string)
                   (mkWindow ["/data/a"; "/data/b"]%string
                      ["/data/a (dir)"; "/data/b (dir)"]%string)
                   ["/data/a"%string] "/data/b" [] eq_refl eq_refl _ _)).
  - discriminate.
  - repeat constructor.
Defined.

(** X27.  When a path selected earlier is a prefix of the text of the item
    (a directory and a file whose name continues the name of the
    directory), removing the item removes that earlier path from the
    selection instead: the path of the item stays selected, and will be
    uploaded, while its item is gone. *)
Theorem remove_selected_item_can_remove_another_path info w before p middle q
    after :
  aligned info w ->
  selected_files w = before ++ p :: middle ++ q :: after ->
  p <> EmptyString ->
  String.prefix p (item_of info q) = true ->
  Forall (fun p' => String.prefix p' (item_of info q) = false) before ->
  selected_files
    (remove_selected_item w (List.length (before ++ p :: middle)))
  = before ++ middle ++ q :: after
  /\ file_list (remove_selected_item w (List.length (before ++ p :: middle)))
     = map (item_of info) (before ++ p :: middle ++ after).
Proof.
  intros Hal Hsel Hp Hpre Hb. unfold remove_selected_item, original_path_of.
  rewrite Hal, Hsel.
  replace (before ++ p :: middle ++ q :: after)
    with ((before ++ p :: middle) ++ q :: after)
    by (rewrite <- app_assoc; reflexivity).
  rewrite nth_error_item. cbv beta iota zeta.
  unfold aligned in Hal. rewrite Hal, Hsel.
  replace (before ++ p :: middle ++ q :: after)
    with ((before ++ p :: middle) ++ q :: after)
    by (rewrite <- app_assoc; reflexivity).
  rewrite take_item_map.
  replace ((before ++ p :: middle) ++ q :: after)
    with (before ++ p :: middle ++ q :: after)
    by (rewrite <- app_assoc; reflexivity).
  destruct (first_prefix_is_removed before p (middle ++ q :: after)
              (item_of info q) Hb Hpre) as [Hf Hr].
  rewrite Hf, Hr.
  destruct p as [| c r]; [contradiction |].
  cbn [selected_files file_list]. split; [reflexivity |].
  rewrite <- app_assoc. reflexivity.
Qed.

Lemma remove_selected_item_can_remove_another_path_witness :
  selected_files
    (remove_selected_item
       (mkWindow ["/data/a"; "/data/a.txt"]%string
          ["/data/a (2 files)"; "/data/a.txt (1.0 MB)"]%string) 1)
  = ["/data/a.txt"%string].
Proof.
  refine (proj1 (remove_selected_item_can_remove_another_path
                   (fun p => if String.eqb p "/data/a" then " (2 files)"
                             else " (1.0 MB)")%string
                   (mkWindow ["/data/a"; "/data/a.txt"]%string
                      ["/data/a (2 files)"; "/data/a.txt (1.0 MB)"]%string)
                   [] "/data/a" [] "/data/a.txt" [] eq_refl eq_refl _
                   eq_refl _)).
  - discriminate.
  - constructor.
Defined.

(** *** The history of speeds *)

Lemma speed_history_after_snoc speeds v :
  speed_history_after (speeds ++ [v])
  = fst (update_speed (speed_history_after speeds) v).
Proof. unfold speed_history_after. rewrite fold_left_app. reflexivity. Qed.

Lemma skipn_S_tl (l : list Q) k : skipn (S k) l = tl (skipn k l).
Proof.
  revert l. induction k as [| k IH]; intros l.
  - destruct l; reflexivity.
  - destruct l as [| x l]; [reflexivity |].
    change (skipn (S k) l = tl (skipn k l)). apply IH.
Qed.

Lemma update_speed_nonempty history v :
  fst (update_speed history v) <> [].
Proof.
  unfold update_speed. cbn [fst].
  destruct (Nat.ltb_spec 10 (List.length (history ++ [v]))) as [Hgt | Hle].
  - destruct (history ++ [v]) as [| a [| b l]] eqn:He; cbn in Hgt; try lia.
    cbn. discriminate.
  - destruct history; discriminate.
Qed.

(** X28.  The history of speeds holds the last ten speeds signalled since
    the upload started, oldest first, and all of them while there are
    fewer.  The average shown after a signal is the mean of the history
    that signal leaves, which is never empty: the division is never by
    zero. *)
Theorem speed_history_is_the_last_ten speeds v :
  speed_history_after speeds = skipn (List.length speeds - 10) speeds
  /\ (List.length (speed_history_after speeds) <= 10)%nat
  /\ (1 <= List.length (speed_history_after (speeds ++ [v])))%nat
  /\ snd (update_speed (speed_history_after speeds) v)
     = (fold_left Qplus (speed_history_after (speeds ++ [v])) 0
        / inject_Z
            (Z.of_nat (List.length (speed_history_after (speeds ++ [v])))))%Q.
Proof.
  assert (H : forall l,
            speed_history_after l = skipn (List.length l - 10) l).
  { intros l. induction l as [| x l IH] using rev_ind; [reflexivity |].
    rewrite speed_history_after_snoc, IH. unfold update_speed. cbn [fst].
    rewrite !length_app, length_skipn. cbn [List.length].
    destruct (Nat.ltb_spec 10 (List.length l - (List.length l - 10) + 1))
      as [Hgt | Hle].
    - assert (Hn : (10 <= List.length l)%nat) by lia.
      replace (List.length l + 1 - 10)%nat with (S (List.length l - 10))
        by lia.
      rewrite skipn_S_tl. rewrite skipn_app.
      replace (List.length l - 10 - List.length l)%nat with 0%nat by lia.
      reflexivity.
    - assert (Hn : (List.length l < 10)%nat) by lia.
      replace (List.length l - 10)%nat with 0%nat by lia.
      replace (List.length l + 1 - 10)%nat with 0%nat by lia.
      reflexivity. }
  split; [apply H |]. split; [rewrite H, length_skipn; lia |].
  rewrite speed_history_after_snoc.
  pose proof (update_speed_nonempty (speed_history_after speeds) v) as Hne.
  split.
  - destruct (fst (update_speed (speed_history_after speeds) v));
      [contradiction | cbn; lia].
  - unfold update_speed in *. cbn [fst snd] in *.
    destruct (if (10 <? List.length (speed_history_after speeds ++ [v]))%nat
              then tl (speed_history_after speeds ++ [v])
              else speed_history_after speeds ++ [v]);
      [contradiction | reflexivity].
Qed.

(** *** The ignore patterns *)








End UISpec.
